(** * A verified model of the reactivity core (effect.ts, baseHandlers.ts,
      ref.ts, computed.ts, apiWatch.ts).

    The runtime functions (track, trigger, cleanup, stop, the body of a
    reactive effect, the traps of the proxy handlers and the instrumented
    array methods, the ref and computed accessors, [ref], [unref],
    [triggerRef] and the traps of [proxyRefs], the watcher job) are Rocq
    functions over an explicit global [State].  User
    callbacks are stored in that state (an effect keeps its [raw] function,
    its scheduler, its hooks), so they are represented by terms of a small
    free monad [prog] whose operations are the calls a callback can make into
    the runtime; [exec] runs such a term with the runtime functions. *)

From Stdlib Require Import List String Ascii ZArith Bool Lia Arith.
From Stdlib Require Import DecimalString.
Import ListNotations.
Open Scope string_scope.
Open Scope list_scope.

Set Implicit Arguments.

(** ** Values, keys and targets *)

(** The constructor of a raw object: what [isArray] and [isMap] see, and
    the two ref classes of ref.ts and computed.ts. *)
Inductive TargetKind :=
| PlainObject | ArrayObject | MapObject | RefImplObject | ComputedRefObject.

(** A raw object, by identity. *)
Record Target := mkTarget { tkind : TargetKind; tid : nat }.

Definition isArray (t : Target) : bool :=
  match tkind t with ArrayObject => true | _ => false end.
Definition isMap (t : Target) : bool :=
  match tkind t with MapObject => true | _ => false end.

Definition TargetKind_eqb (a b : TargetKind) : bool :=
  match a, b with
  | PlainObject, PlainObject | ArrayObject, ArrayObject
  | MapObject, MapObject | RefImplObject, RefImplObject
  | ComputedRefObject, ComputedRefObject => true
  | _, _ => false
  end.

Definition Target_eqb (a b : Target) : bool :=
  TargetKind_eqb (tkind a) (tkind b) && Nat.eqb (tid a) (tid b).

(** Property keys: strings and symbols. *)
Inductive Key := KStr (s : string) | KSym (n : nat).

Definition ITERATE_KEY : Key := KSym 0.
Definition MAP_KEY_ITERATE_KEY : Key := KSym 1.

Definition Key_eqb (a b : Key) : bool :=
  match a, b with
  | KStr s, KStr s' => String.eqb s s'
  | KSym n, KSym n' => Nat.eqb n n'
  | _, _ => false
  end.

Definition isSymbol (k : Key) : bool :=
  match k with KSym _ => true | KStr _ => false end.

(** JavaScript values.  Numbers are the integers and NaN; a proxy carries the
    value it wraps; [VEffect] is the function object of a reactive effect. *)
Inductive value :=
| VUndefined
| VNull
| VBool (b : bool)
| VNum (z : Z)
| VNaN
| VStr (s : string)
| VObj (t : Target)
| VEffect (e : nat)
| VProxy (readonly : bool) (inner : value).

Fixpoint value_eqb (a b : value) : bool :=
  match a, b with
  | VUndefined, VUndefined | VNull, VNull | VNaN, VNaN => true
  | VBool x, VBool y => Bool.eqb x y
  | VNum x, VNum y => Z.eqb x y
  | VStr x, VStr y => String.eqb x y
  | VObj x, VObj y => Target_eqb x y
  | VEffect x, VEffect y => Nat.eqb x y
  | VProxy r x, VProxy r' y => Bool.eqb r r' && value_eqb x y
  | _, _ => false
  end.

(** [a === b]: identity on objects, equality on primitives, NaN unequal to
    itself. *)
Definition strict_equal (a b : value) : bool :=
  match a, b with
  | VNaN, _ | _, VNaN => false
  | _, _ => value_eqb a b
  end.

(** Modelled from the spec: [hasChanged] of @vue/shared, "identity with
    NaN-equality": the values differ and are not both NaN. *)
Definition hasChanged (v oldValue : value) : bool :=
  negb (strict_equal v oldValue) &&
  (strict_equal v v || strict_equal oldValue oldValue).

(** [Object.is] on the modelled values (there is no negative zero). *)
Definition Object_is (a b : value) : bool := value_eqb a b.

(** Modelled from the spec: [toRaw] of reactive.ts follows the RAW reserved
    key down to the underlying target. *)
Fixpoint toRaw (v : value) : value :=
  match v with
  | VProxy _ inner => toRaw inner
  | _ => v
  end.

(** ** The comparison [key >= newValue] of [trigger]

    The relational operator converts a string key to a Number unless both
    operands are strings, and throws a TypeError on a symbol.  The conversion
    is that of the language (StringToNumber): white space around the literal
    is dropped, the empty string is 0, the literal is [Infinity], a decimal
    literal with an optional fraction, exponent and sign, or an unsigned
    binary, octal or hexadecimal integer, and its value is rounded to the
    nearest double, ties to the even significand.  A string is the sequence
    of its code units, each below 256. *)

(** A Number: NaN, an infinity, or the finite double [m * 2 ^ e] (the two
    zeros are one). *)
Inductive jsnum := JNaN | JInf (negative : bool) | JFin (m e : Z).

Definition digit_of_ascii (c : ascii) : option Z :=
  let n := nat_of_ascii c in
  if (48 <=? n)%nat && (n <=? 57)%nat then Some (Z.of_nat (n - 48)) else None.

(** Reads a run of digits: the number read so far, how many digits, the rest. *)
Fixpoint read_digits (s : string) (acc : Z) (cnt : nat) : Z * nat * string :=
  match s with
  | EmptyString => (acc, cnt, s)
  | String c s' =>
      match digit_of_ascii c with
      | Some d => read_digits s' (10 * acc + d)%Z (S cnt)
      | None => (acc, cnt, s)
      end
  end.

Definition is_digit (c : ascii) : bool :=
  match digit_of_ascii c with Some _ => true | None => false end.

Fixpoint all_digits (s : string) : bool :=
  match s with
  | EmptyString => true
  | String c s' => is_digit c && all_digits s'
  end.

(** Modelled from the spec: [isIntegerKey] of @vue/shared, "its string form
    parses losslessly to a non-negative integer": a nonempty run of digits
    without a superfluous leading zero. *)
Definition isIntegerKey (k : Key) : bool :=
  match k with
  | KStr (String c s') =>
      is_digit c && all_digits s' &&
      (negb (Ascii.eqb c "0") || String.eqb s' "")
  | _ => false
  end.

(** [Number(key)] for an integer key. *)
Definition Number_of_key (k : Key) : Z :=
  match k with
  | KStr s => fst (fst (read_digits s 0%Z 0%nat))
  | KSym _ => 0%Z
  end.

(** An array index of the language: a canonical digit string below
    [2 ^ 32 - 1]. *)
Definition is_array_index (k : Key) : bool :=
  isIntegerKey k && (Number_of_key k <? 4294967295)%Z.

(** The double nearest to [a / b], for [0 <= a] and [0 < b]; infinity from
    [2 ^ 1024 - 2 ^ 970] on.  The quotient is taken at the scale [2 ^ -1127],
    where the grid of the subnormal doubles, [2 ^ -1074], is [2 ^ 53]: the
    grid at the quotient is [2 ^ k], the significand [m] the quotient by it,
    rounded on the remainder; a significand rounded up to [2 ^ 53] moves to
    the next grid. *)
Definition round_to_double (a b : Z) : jsnum :=
  let num := (a * 2 ^ 1127)%Z in
  let k := Z.max (Z.log2 (num / b) - 52) 53 in
  let den := (b * 2 ^ k)%Z in
  let m := (num / den)%Z in
  let r := (num mod den)%Z in
  let m' := if (2 * r <? den)%Z then m
            else if (den <? 2 * r)%Z then (m + 1)%Z
            else if Z.even m then m else (m + 1)%Z in
  if (2 ^ 2151 <=? m' * 2 ^ k)%Z then JInf false
  else if (m' =? 2 ^ 53)%Z then JFin (2 ^ 52) (k - 1126)
  else JFin m' (k - 1127).

(** The digit of a letter or a decimal digit, when it is below the radix. *)
Definition digit_in_radix (radix : Z) (c : ascii) : option Z :=
  let n := nat_of_ascii c in
  let v :=
    if (48 <=? n)%nat && (n <=? 57)%nat then Some (Z.of_nat (n - 48))
    else if (97 <=? n)%nat && (n <=? 122)%nat then Some (Z.of_nat (n - 87))
    else if (65 <=? n)%nat && (n <=? 90)%nat then Some (Z.of_nat (n - 55))
    else None in
  match v with
  | Some d => if (d <? radix)%Z then Some d else None
  | None => None
  end.

Fixpoint read_radix (radix : Z) (s : string) (acc : Z) (cnt : nat)
  : Z * nat * string :=
  match s with
  | EmptyString => (acc, cnt, s)
  | String c s' =>
      match digit_in_radix radix c with
      | Some d => read_radix radix s' (radix * acc + d)%Z (S cnt)
      | None => (acc, cnt, s)
      end
  end.

(** The digits after [0x], [0o] or [0b]: at least one, and nothing else. *)
Definition non_decimal (radix : Z) (s : string) : jsnum :=
  let '(v, n, rest) := read_radix radix s 0%Z 0%nat in
  match rest with
  | EmptyString => if Nat.eqb n 0 then JNaN else round_to_double v 1
  | _ => JNaN
  end.

(** The exponent part, which may be absent: [e] or [E], a sign or none, and
    at least one digit. *)
Definition exponent_part (s : string) : option Z :=
  match s with
  | EmptyString => Some 0%Z
  | String c r =>
      if Ascii.eqb c "e" || Ascii.eqb c "E" then
        let '(neg, r') :=
          match r with
          | String "-" r' => (true, r')
          | String "+" r' => (false, r')
          | _ => (false, r)
          end in
        let '(x, n, rest) := read_digits r' 0%Z 0%nat in
        match rest with
        | EmptyString =>
            if Nat.eqb n 0 then None else Some (if neg then (- x)%Z else x)
        | _ => None
        end
      else None
  end.

(** [Infinity], or digits with an optional fraction (a digit on one side of
    the dot at least) and an optional exponent. *)
Definition unsigned_decimal (s : string) : jsnum :=
  if String.eqb s "Infinity" then JInf false
  else
    let '(i, ni, rest) := read_digits s 0%Z 0%nat in
    let '(m, nf, rest') :=
      match rest with
      | String "." r => read_digits r i 0%nat
      | _ => (i, 0%nat, rest)
      end in
    if Nat.eqb (ni + nf) 0 then JNaN
    else
      match exponent_part rest' with
      | Some x =>
          let e := (x - Z.of_nat nf)%Z in
          if (0 <=? e)%Z then round_to_double (m * 10 ^ e) 1
          else round_to_double m (10 ^ (- e))
      | None => JNaN
      end.

Definition jsnum_opp (x : jsnum) : jsnum :=
  match x with
  | JNaN => JNaN
  | JInf negative => JInf (negb negative)
  | JFin m e => JFin (- m) e
  end.

(** White space and line terminators: TAB, LF, VT, FF, CR, SP and NBSP. *)
Definition is_whitespace (c : ascii) : bool :=
  let n := nat_of_ascii c in
  ((9 <=? n)%nat && (n <=? 13)%nat) || Nat.eqb n 32 || Nat.eqb n 160.

Fixpoint trim_left (s : string) : string :=
  match s with
  | String c s' => if is_whitespace c then trim_left s' else s
  | EmptyString => s
  end.

Fixpoint trim_right (s : string) : string :=
  match s with
  | String c s' =>
      let t := trim_right s' in
      if is_whitespace c && String.eqb t "" then EmptyString else String c t
  | EmptyString => s
  end.

Definition StringToNumber (s : string) : jsnum :=
  let t := trim_right (trim_left s) in
  match t with
  | EmptyString => JFin 0 0
  | String "-" s' => jsnum_opp (unsigned_decimal s')
  | String "+" s' => unsigned_decimal s'
  | String "0" (String c s') =>
      if Ascii.eqb c "x" || Ascii.eqb c "X" then non_decimal 16 s'
      else if Ascii.eqb c "o" || Ascii.eqb c "O" then non_decimal 8 s'
      else if Ascii.eqb c "b" || Ascii.eqb c "B" then non_decimal 2 s'
      else unsigned_decimal t
  | _ => unsigned_decimal t
  end.

(** [x >= n] for a Number [x] and an integer [n]; false on NaN. *)
Definition jsnum_ge_Z (x : jsnum) (n : Z) : bool :=
  match x with
  | JNaN => false
  | JInf negative => negb negative
  | JFin m e =>
      if (0 <=? e)%Z then (n <=? m * 2 ^ e)%Z else (n * 2 ^ (- e) <=? m)%Z
  end.

Inductive CmpResult := CmpTrue | CmpFalse | CmpTypeError.

Definition cmp_of_bool (b : bool) : CmpResult := if b then CmpTrue else CmpFalse.

(** [key >= newValue].  An object on the right is converted through its own
    [valueOf]/[toString], which the model does not run: it reads as NaN. *)
Definition key_ge (k : Key) (newValue : value) : CmpResult :=
  match k with
  | KSym _ => CmpTypeError
  | KStr s =>
      match newValue with
      | VStr s' => cmp_of_bool (negb (String.ltb s s'))
      | VNum n => cmp_of_bool (jsnum_ge_Z (StringToNumber s) n)
      | VBool b => cmp_of_bool (jsnum_ge_Z (StringToNumber s) (if b then 1 else 0))
      | VNull => cmp_of_bool (jsnum_ge_Z (StringToNumber s) 0)
      | VUndefined | VNaN | VObj _ | VEffect _ | VProxy _ _ => CmpFalse
      end
  end.


(** ** Sets and maps with insertion order

    A JavaScript [Set] is a duplicate-free list in insertion order, a [Map]
    an association list in insertion order of its keys. *)

Section Containers.
Variables K V : Type.
Variable eqb : K -> K -> bool.

Fixpoint Map_get (k : K) (m : list (K * V)) : option V :=
  match m with
  | [] => None
  | (k', v) :: m' => if eqb k' k then Some v else Map_get k m'
  end.

Fixpoint Map_set (k : K) (v : V) (m : list (K * V)) : list (K * V) :=
  match m with
  | [] => [(k, v)]
  | (k', v') :: m' =>
      if eqb k' k then (k', v) :: m' else (k', v') :: Map_set k v m'
  end.

Definition Set_has (x : K) (s : list K) : bool := existsb (eqb x) s.

Definition Set_add (x : K) (s : list K) : list K :=
  if Set_has x s then s else s ++ [x].

Definition Set_delete (x : K) (s : list K) : list K :=
  filter (fun y => negb (eqb x y)) s.
End Containers.

Definition EffectId := nat.
Definition Dep := list EffectId.
Definition KeyToDepMap := list (Key * Dep).

(** A [Dep] object is created once for a (target, key) and stays in the
    registry, so the pair identifies it: [effect.deps] holds such pairs. *)
Definition DepId := (Target * Key)%type.

Definition DepId_eqb (a b : DepId) : bool :=
  Target_eqb (fst a) (fst b) && Key_eqb (snd a) (snd b).

(** ** Operations, options and callbacks *)

(** Modelled from the spec: the [TrackOpTypes] and [TriggerOpTypes] of
    operations.ts, "values {GET, HAS, ITERATE}" and SET, ADD, DELETE, CLEAR. *)
Inductive TrackOpTypes := GET | HAS | ITERATE.
Inductive TriggerOpTypes := SET | ADD | DELETE | CLEAR.

Record DebuggerEvent := mkEvent {
  ev_effect : EffectId;
  ev_target : Target;
  ev_type : TrackOpTypes + TriggerOpTypes;
  ev_key : option Key;
  ev_newValue : value;
  ev_oldValue : value
}.

(** [ReactiveEffectOptions], over the type [P] of callbacks. *)
Record ReactiveEffectOptions (P : Type) := mkOptions {
  lazy : bool;
  scheduler : option (EffectId -> P);
  onTrack : option (DebuggerEvent -> P);
  onTrigger : option (DebuggerEvent -> P);
  onStop : option P;
  allowRecurse : bool
}.

(** The raw store: own data properties of raw objects, and the objects that
    refuse writes (frozen ones). *)
Record Heap := mkHeap {
  props : list (DepId * value);
  frozen : list Target
}.

(** A callback: a tree of calls into the runtime.  [Ret] returns, [Throw]
    raises; every other node is one call followed by the rest of the
    callback, which receives the result of the call.  [Effect], [Call] and
    [Stop] are [effect(fn, options)], [e()] and [stop(e)]; [SetOnStop] assigns
    [e.options.onStop], [CallOnStop] calls it when it is set, [IsActive]
    reads [e.active]; [TryCatch] is a try/catch around [body]. *)
#[warnings="-register-all"]
Inductive prog : Type :=
| Ret (v : value)
| Throw (v : value)
| GetHeap (c : Heap -> prog)
| PutHeap (h : Heap) (c : prog)
| Track (target : Target) (type : TrackOpTypes) (key : Key) (c : prog)
| Trigger (target : Target) (type : TriggerOpTypes) (key : option Key)
          (newValue oldValue : value) (c : prog)
| Effect (fn : prog + EffectId) (options : ReactiveEffectOptions prog)
         (c : EffectId -> prog)
| Call (e : EffectId) (c : value -> prog)
| Stop (e : EffectId) (c : prog)
| SetOnStop (e : EffectId) (h : prog) (c : prog)
| CallOnStop (e : EffectId) (c : prog)
| IsActive (e : EffectId) (c : bool -> prog)
| PauseTracking (c : prog)
| EnableTracking (c : prog)
| ResetTracking (c : prog)
| TryCatch (body : prog) (handler : value -> prog) (c : value -> prog).

(** Sequencing of callbacks. *)
Fixpoint bind (p : prog) (f : value -> prog) : prog :=
  match p with
  | Ret v => f v
  | Throw v => Throw v
  | GetHeap c => GetHeap (fun h => bind (c h) f)
  | PutHeap h c => PutHeap h (bind c f)
  | Track t ty k c => Track t ty k (bind c f)
  | Trigger t ty k nv ov c => Trigger t ty k nv ov (bind c f)
  | Effect fn o c => Effect fn o (fun e => bind (c e) f)
  | Call e c => Call e (fun v => bind (c v) f)
  | Stop e c => Stop e (bind c f)
  | SetOnStop e h c => SetOnStop e h (bind c f)
  | CallOnStop e c => CallOnStop e (bind c f)
  | IsActive e c => IsActive e (fun b => bind (c b) f)
  | PauseTracking c => PauseTracking (bind c f)
  | EnableTracking c => EnableTracking (bind c f)
  | ResetTracking c => ResetTracking (bind c f)
  | TryCatch b h c => TryCatch b h (fun v => bind (c v) f)
  end.

Declare Scope prog_scope.
Delimit Scope prog_scope with prog.
Notation "x <- p ;; q" := (bind p (fun x => q))
  (at level 61, p at next level, right associativity) : prog_scope.
Notation "p ;; q" := (bind p (fun _ => q))
  (at level 61, right associativity) : prog_scope.

(** ** The global state of effect.ts *)

Record ReactiveEffect := mkEffect {
  id : EffectId;
  active : bool;
  raw : prog;
  deps : list DepId;
  options : ReactiveEffectOptions prog
}.

(** What the runtime did, oldest last: a log kept beside the state so that
    properties of a run can be stated; nothing reads it. *)
Inductive Event :=
| EvTrack (e : EffectId) (d : DepId)
| EvRun (e : EffectId).

Record State := mkState {
  targetMap : list (Target * KeyToDepMap);
  effectStack : list EffectId;      (* top of the stack first *)
  activeEffect : option EffectId;
  uid : nat;
  shouldTrack : bool;
  trackStack : list bool;           (* top of the stack first *)
  effects : list ReactiveEffect;    (* the effect objects, by id *)
  heap : Heap;
  trace : list Event
}.

Definition initial_state : State :=
  mkState [] [] None 0 true [] [] (mkHeap [] []) [].

Definition set_targetMap (m : list (Target * KeyToDepMap)) (st : State) : State :=
  mkState m (effectStack st) (activeEffect st) (uid st) (shouldTrack st)
          (trackStack st) (effects st) (heap st) (trace st).
Definition set_effectStack (s : list EffectId) (st : State) : State :=
  mkState (targetMap st) s (activeEffect st) (uid st) (shouldTrack st)
          (trackStack st) (effects st) (heap st) (trace st).
Definition set_activeEffect (a : option EffectId) (st : State) : State :=
  mkState (targetMap st) (effectStack st) a (uid st) (shouldTrack st)
          (trackStack st) (effects st) (heap st) (trace st).
Definition set_uid (n : nat) (st : State) : State :=
  mkState (targetMap st) (effectStack st) (activeEffect st) n (shouldTrack st)
          (trackStack st) (effects st) (heap st) (trace st).
Definition set_tracking (b : bool) (s : list bool) (st : State) : State :=
  mkState (targetMap st) (effectStack st) (activeEffect st) (uid st) b s
          (effects st) (heap st) (trace st).
Definition set_effects (l : list ReactiveEffect) (st : State) : State :=
  mkState (targetMap st) (effectStack st) (activeEffect st) (uid st)
          (shouldTrack st) (trackStack st) l (heap st) (trace st).
Definition set_heap (h : Heap) (st : State) : State :=
  mkState (targetMap st) (effectStack st) (activeEffect st) (uid st)
          (shouldTrack st) (trackStack st) (effects st) h (trace st).
Definition log (ev : Event) (st : State) : State :=
  mkState (targetMap st) (effectStack st) (activeEffect st) (uid st)
          (shouldTrack st) (trackStack st) (effects st) (heap st) (ev :: trace st).

(** *** The effect objects *)

Definition get_effect (st : State) (e : EffectId) : option ReactiveEffect :=
  nth_error (effects st) e.

Fixpoint update_nth {A} (n : nat) (f : A -> A) (l : list A) : list A :=
  match n, l with
  | _, [] => []
  | O, x :: l' => f x :: l'
  | S n', x :: l' => x :: update_nth n' f l'
  end.

Definition update_effect (e : EffectId) (f : ReactiveEffect -> ReactiveEffect)
  (st : State) : State :=
  set_effects (update_nth e f (effects st)) st.

Definition set_deps (d : list DepId) (x : ReactiveEffect) : ReactiveEffect :=
  mkEffect (id x) (active x) (raw x) d (options x).
Definition set_active (b : bool) (x : ReactiveEffect) : ReactiveEffect :=
  mkEffect (id x) b (raw x) (deps x) (options x).
Definition set_onStop (h : option prog) (x : ReactiveEffect) : ReactiveEffect :=
  mkEffect (id x) (active x) (raw x) (deps x)
    (mkOptions (lazy (options x)) (scheduler (options x)) (onTrack (options x))
               (onTrigger (options x)) h (allowRecurse (options x))).

Definition effect_deps (st : State) (e : EffectId) : list DepId :=
  match get_effect st e with Some x => deps x | None => [] end.

(** *** The registry *)

Definition depsMap_of (st : State) (t : Target) : option KeyToDepMap :=
  Map_get Target_eqb t (targetMap st).

(** The effects of the [Dep] at a (target, key); none when there is no such
    [Dep] yet. *)
Definition dep_at (st : State) (d : DepId) : Dep :=
  match depsMap_of st (fst d) with
  | Some m => match Map_get Key_eqb (snd d) m with Some s => s | None => [] end
  | None => []
  end.

(** Replaces the [Dep] at a (target, key), creating the entries it needs. *)
Definition set_dep (d : DepId) (s : Dep) (st : State) : State :=
  let m := match depsMap_of st (fst d) with Some m => m | None => [] end in
  set_targetMap (Map_set Target_eqb (fst d) (Map_set Key_eqb (snd d) s m)
                         (targetMap st)) st.

(** [deps[i].delete(effect)]: the [Dep] exists, it was put in [effect.deps]
    by [track]. *)
Definition dep_delete (e : EffectId) (st : State) (d : DepId) : State :=
  match depsMap_of st (fst d) with
  | Some m =>
      match Map_get Key_eqb (snd d) m with
      | Some s => set_dep d (Set_delete Nat.eqb e s) st
      | None => st
      end
  | None => st
  end.

(** [cleanup(effect)]. *)
Definition cleanup (e : EffectId) (st : State) : State :=
  match get_effect st e with
  | Some x =>
      if Nat.eqb (List.length (deps x)) 0 then st
      else update_effect e (set_deps []) (fold_left (dep_delete e) (deps x) st)
  | None => st
  end.

(** *** The tracking-state stack *)

Definition pauseTracking (st : State) : State :=
  set_tracking false (shouldTrack st :: trackStack st) st.

Definition enableTracking (st : State) : State :=
  set_tracking true (shouldTrack st :: trackStack st) st.

Definition resetTracking (st : State) : State :=
  match trackStack st with
  | last :: rest => set_tracking last rest st
  | [] => set_tracking true [] st
  end.

Section Runtime.

(** The build flag: the debug hooks run in development builds only. *)
Variable __DEV__ : bool.

Definition effect_options (st : State) (e : EffectId)
  : option (ReactiveEffectOptions prog) :=
  match get_effect st e with Some x => Some (options x) | None => None end.

(** [track(target, type, key)]: the new state, and the [onTrack] hook to call
    when there is one. *)
Definition track (target : Target) (type : TrackOpTypes) (key : Key) (st : State)
  : State * option prog :=
  if negb (shouldTrack st) then (st, None)
  else
    match activeEffect st with
    | None => (st, None)
    | Some e =>
        let d := (target, key) in
        let st0 := log (EvTrack e d) st in
        let dep := dep_at st0 d in
        let st1 := set_dep d dep st0 in
        if Set_has Nat.eqb e dep then (st1, None)
        else
          let st2 := set_dep d (Set_add Nat.eqb e dep) st1 in
          let st3 := update_effect e (fun x => set_deps (deps x ++ [d]) x) st2 in
          (st3,
           if __DEV__ then
             match effect_options st3 e with
             | Some o =>
                 match onTrack o with
                 | Some h => Some (h (mkEvent e target (inl type) (Some key)
                                             VUndefined VUndefined))
                 | None => None
                 end
             | None => None
             end
           else None)
    end.

(** *** [trigger]: which effects are collected *)

Definition is_activeEffect (st : State) (e : EffectId) : bool :=
  match activeEffect st with Some a => Nat.eqb e a | None => false end.

Definition allowRecurse_of (st : State) (e : EffectId) : bool :=
  match effect_options st e with Some o => allowRecurse o | None => false end.

(** The local [add] of [trigger], on the local set [effects]. *)
Definition add (st : State) (effectsToAdd : option Dep) (effects : list EffectId)
  : list EffectId :=
  match effectsToAdd with
  | Some dep =>
      fold_left
        (fun acc e =>
           if negb (is_activeEffect st e) || allowRecurse_of st e
           then Set_add Nat.eqb e acc else acc)
        dep effects
  | None => effects
  end.

(** [depsMap.forEach(add)] of the CLEAR branch. *)
Definition collect_all (st : State) (m : KeyToDepMap) (effects : list EffectId)
  : list EffectId :=
  fold_left (fun acc kd => add st (Some (snd kd)) acc) m effects.

(** The [depsMap.forEach] of the length branch; [None] when the comparison
    throws. *)
Fixpoint collect_length (st : State) (newValue : value) (m : KeyToDepMap)
  (effects : list EffectId) : option (list EffectId) :=
  match m with
  | [] => Some effects
  | (k, dep) :: m' =>
      if Key_eqb k (KStr "length")
      then collect_length st newValue m' (add st (Some dep) effects)
      else
        match key_ge k newValue with
        | CmpTrue => collect_length st newValue m' (add st (Some dep) effects)
        | CmpFalse => collect_length st newValue m' effects
        | CmpTypeError => None
        end
  end.

Definition is_length (key : option Key) : bool :=
  match key with Some k => Key_eqb k (KStr "length") | None => false end.

(** The last branch: the dep of the key, then the iteration and length
    deps by operation. *)
Definition collect_key (st : State) (target : Target) (type : TriggerOpTypes)
  (key : option Key) (m : KeyToDepMap) : list EffectId :=
  let effects0 :=
    match key with
    | Some k => add st (Map_get Key_eqb k m) []
    | None => []
    end in
  match type with
  | ADD =>
      if negb (isArray target) then
        let effects1 := add st (Map_get Key_eqb ITERATE_KEY m) effects0 in
        if isMap target
        then add st (Map_get Key_eqb MAP_KEY_ITERATE_KEY m) effects1
        else effects1
      else if match key with Some k => isIntegerKey k | None => false end
      then add st (Map_get Key_eqb (KStr "length") m) effects0
      else effects0
  | DELETE =>
      if negb (isArray target) then
        let effects1 := add st (Map_get Key_eqb ITERATE_KEY m) effects0 in
        if isMap target
        then add st (Map_get Key_eqb MAP_KEY_ITERATE_KEY m) effects1
        else effects1
      else effects0
  | SET =>
      if isMap target
      then add st (Map_get Key_eqb ITERATE_KEY m) effects0
      else effects0
  | CLEAR => effects0
  end.

Inductive Selection :=
| NeverTracked
| Selected (effects : list EffectId)
| ComparisonThrows.

(** The set [effects] that [trigger] has built when it starts to run them. *)
Definition trigger_effects (st : State) (target : Target) (type : TriggerOpTypes)
  (key : option Key) (newValue : value) : Selection :=
  match depsMap_of st target with
  | None => NeverTracked
  | Some m =>
      match type with
      | CLEAR => Selected (collect_all st m [])
      | _ =>
          if is_length key && isArray target then
            match collect_length st newValue m [] with
            | Some l => Selected l
            | None => ComparisonThrows
            end
          else Selected (collect_key st target type key m)
      end
  end.

(** *** Running callbacks *)

Inductive outcome :=
| Normal (v : value) (st : State)
| Thrown (v : value) (st : State)
| OutOfFuel.

Definition TypeError : value := VStr "TypeError".

Definition andThen (o : outcome) (k : value -> State -> outcome) : outcome :=
  match o with
  | Normal v st => k v st
  | _ => o
  end.

(** The [finally] block of [reactiveEffect]. *)
Definition finally_block (st : State) : State :=
  let st1 := set_effectStack (tl (effectStack st)) st in
  let st2 := resetTracking st1 in
  set_activeEffect (hd_error (effectStack st2)) st2.

Definition run_finally (o : outcome) : outcome :=
  match o with
  | Normal v st => Normal v (finally_block st)
  | Thrown v st => Thrown v (finally_block st)
  | OutOfFuel => OutOfFuel
  end.

(** The state in which [fn] begins: after [cleanup], [enableTracking], the
    push and the assignment of [activeEffect]. *)
Definition enter_effect (e : EffectId) (st : State) : State :=
  let st1 := cleanup e st in
  let st2 := enableTracking st1 in
  let st3 := set_effectStack (e :: effectStack st2) st2 in
  log (EvRun e) (set_activeEffect (Some e) st3).

Section Step.
(** How a callback is run: the interpreter itself, one unit of fuel down. *)
Variable rec : prog -> State -> outcome.

Definition call_hook (h : option prog) (st : State) : outcome :=
  match h with
  | Some p => rec p st
  | None => Normal VUndefined st
  end.

(** The function [reactiveEffect] that [createReactiveEffect] returns. *)
Definition reactiveEffect (e : EffectId) (st : State) : outcome :=
  match get_effect st e with
  | None => Thrown TypeError st
  | Some x =>
      if negb (active x) then
        match scheduler (options x) with
        | Some _ => Normal VUndefined st
        | None => rec (raw x) st
        end
      else if negb (existsb (Nat.eqb e) (effectStack st)) then
        run_finally (rec (raw x) (enter_effect e st))
      else Normal VUndefined st
  end.

(** The local [run] of [trigger]. *)
Definition run (target : Target) (type : TriggerOpTypes) (key : option Key)
  (newValue oldValue : value) (e : EffectId) (st : State) : outcome :=
  match effect_options st e with
  | None => Thrown TypeError st
  | Some o =>
      andThen
        (call_hook
           (if __DEV__ then
              match onTrigger o with
              | Some h => Some (h (mkEvent e target (inr type) key newValue oldValue))
              | None => None
              end
            else None) st)
        (fun _ st' =>
           match scheduler o with
           | Some s => rec (s e) st'
           | None => reactiveEffect e st'
           end)
  end.

(** [effects.forEach(f)]: the first exception ends the loop. *)
Fixpoint forEach (f : EffectId -> State -> outcome) (l : list EffectId)
  (st : State) : outcome :=
  match l with
  | [] => Normal VUndefined st
  | e :: l' => andThen (f e st) (fun _ st' => forEach f l' st')
  end.

Definition trigger (target : Target) (type : TriggerOpTypes) (key : option Key)
  (newValue oldValue : value) (st : State) : outcome :=
  match trigger_effects st target type key newValue with
  | NeverTracked => Normal VUndefined st
  | ComparisonThrows => Thrown TypeError st
  | Selected l => forEach (run target type key newValue oldValue) l st
  end.

Definition stop (e : EffectId) (st : State) : outcome :=
  match get_effect st e with
  | None => Thrown TypeError st
  | Some x =>
      if active x then
        andThen (call_hook (onStop (options x)) (cleanup e st))
          (fun _ st' => Normal VUndefined (update_effect e (set_active false) st'))
      else Normal VUndefined st
  end.

(** [createReactiveEffect(fn, options)]: the new effect and the state. *)
Definition createReactiveEffect (fn : prog) (o : ReactiveEffectOptions prog)
  (st : State) : EffectId * State :=
  (List.length (effects st),
   set_uid (S (uid st))
     (set_effects (effects st ++ [mkEffect (uid st) true fn [] o]) st)).

(** [effect(fn, options)], whose result goes to [c]. *)
Definition effect (fn : prog + EffectId) (o : ReactiveEffectOptions prog)
  (c : EffectId -> prog) (st : State) : outcome :=
  match (match fn with
         | inl f => Some f
         | inr e' => match get_effect st e' with
                     | Some x => Some (raw x)
                     | None => None
                     end
         end) with
  | None => Thrown TypeError st
  | Some f =>
      let '(e, st1) := createReactiveEffect f o st in
      if lazy o then rec (c e) st1
      else andThen (reactiveEffect e st1) (fun _ st2 => rec (c e) st2)
  end.

Definition step (p : prog) (st : State) : outcome :=
  match p with
  | Ret v => Normal v st
  | Throw v => Thrown v st
  | GetHeap c => rec (c (heap st)) st
  | PutHeap h c => rec c (set_heap h st)
  | Track t ty k c =>
      andThen (call_hook (snd (track t ty k st)) (fst (track t ty k st)))
        (fun _ st' => rec c st')
  | Trigger t ty k nv ov c =>
      andThen (trigger t ty k nv ov st) (fun _ st' => rec c st')
  | Effect fn o c => effect fn o c st
  | Call e c => andThen (reactiveEffect e st) (fun v st' => rec (c v) st')
  | Stop e c => andThen (stop e st) (fun _ st' => rec c st')
  | SetOnStop e h c => rec c (update_effect e (set_onStop (Some h)) st)
  | CallOnStop e c =>
      match effect_options st e with
      | Some o => andThen (call_hook (onStop o) st) (fun _ st' => rec c st')
      | None => Thrown TypeError st
      end
  | IsActive e c =>
      match get_effect st e with
      | Some x => rec (c (active x)) st
      | None => Thrown TypeError st
      end
  | PauseTracking c => rec c (pauseTracking st)
  | EnableTracking c => rec c (enableTracking st)
  | ResetTracking c => rec c (resetTracking st)
  | TryCatch b h c =>
      match rec b st with
      | Normal v st' => rec (c v) st'
      | Thrown x st' => andThen (rec (h x) st') (fun v st'' => rec (c v) st'')
      | OutOfFuel => OutOfFuel
      end
  end.
End Step.

(** Runs a callback; [OutOfFuel] when [fuel] nested calls do not suffice. *)
Fixpoint exec (fuel : nat) (p : prog) (st : State) : outcome :=
  match fuel with
  | O => OutOfFuel
  | S n => step (exec n) p st
  end.

(** ** The raw objects *)

Definition heap_lookup (h : Heap) (t : Target) (k : Key) : option value :=
  Map_get DepId_eqb (t, k) (props h).

(** [target[key]] on a raw object with data properties only. *)
Definition heap_get (h : Heap) (t : Target) (k : Key) : value :=
  match heap_lookup h t k with Some v => v | None => VUndefined end.

Definition hasOwn (h : Heap) (t : Target) (k : Key) : bool :=
  match heap_lookup h t k with Some _ => true | None => false end.

Definition heap_put (h : Heap) (t : Target) (k : Key) (v : value) : Heap :=
  mkHeap (Map_set DepId_eqb (t, k) v (props h)) (frozen h).

Definition is_frozen (h : Heap) (t : Target) : bool :=
  existsb (Target_eqb t) (frozen h).

(** [target.length] of an array. *)
Definition array_length (h : Heap) (t : Target) : Z :=
  match heap_lookup h t (KStr "length") with Some (VNum n) => n | _ => 0%Z end.

(** The value as an array length, when it is one. *)
Definition as_length (v : value) : option Z :=
  let in_range n := if ((0 <=? n) && (n <? 2 ^ 32))%Z then Some n else None in
  match v with
  | VNum n => in_range n
  | VBool b => Some (if b then 1 else 0)%Z
  | VNull => Some 0%Z
  | VStr s =>
      match StringToNumber s with
      | JFin m e =>
          if (0 <=? e)%Z then in_range (m * 2 ^ e)%Z
          else if (m mod 2 ^ (- e) =? 0)%Z then in_range (m / 2 ^ (- e))%Z
          else None
      | _ => None
      end
  | _ => None
  end.

(** Truncation: the index properties at or beyond the new length go. *)
Definition drop_indices (t : Target) (n : Z) (l : list (DepId * value))
  : list (DepId * value) :=
  filter (fun kv =>
            negb (Target_eqb (fst (fst kv)) t && is_array_index (snd (fst kv))
                  && (n <=? Number_of_key (snd (fst kv)))%Z)) l.

(** The definition of a data property on a raw object; an array keeps its
    [length] in step.  [None] is the RangeError of an invalid length. *)
Definition define_property (h : Heap) (t : Target) (k : Key) (v : value)
  : option (Heap * bool) :=
  if is_frozen h t then Some (h, false)
  else if isArray t && Key_eqb k (KStr "length") then
    match as_length v with
    | Some n =>
        Some (mkHeap (Map_set DepId_eqb (t, k) (VNum n) (drop_indices t n (props h)))
                     (frozen h), true)
    | None => None
    end
  else if isArray t && is_array_index k && (array_length h t <=? Number_of_key k)%Z then
    Some (heap_put (heap_put h t k v) t (KStr "length")
                   (VNum (Number_of_key k + 1)), true)
  else Some (heap_put h t k v, true).

(** [Reflect.set(target, key, value, receiver)] without accessors and
    prototypes: a frozen target refuses, and the property is defined on the
    object behind the receiver. *)
Definition Reflect_set (h : Heap) (target : Target) (key : Key) (v : value)
  (receiver : value) : option (Heap * bool) :=
  if is_frozen h target then Some (h, false)
  else
    match toRaw receiver with
    | VObj r => define_property h r key v
    | _ => Some (h, false)
    end.

Definition isObject (v : value) : bool :=
  match v with VObj _ | VProxy _ _ => true | _ => false end.

(** Modelled from the spec: [reactive] of reactive.ts, "mutable deep proxy;
    idempotent; refuses to double-wrap". *)
Definition reactive (v : value) : value :=
  match v with
  | VObj _ => VProxy false v
  | _ => v
  end.

(** [isRef(r)]: [r && r.__v_isRef === true]; both ref classes declare the
    flag, another object may carry it as a property. *)
Fixpoint isRef (h : Heap) (r : value) : bool :=
  match r with
  | VObj t =>
      match tkind t with
      | RefImplObject | ComputedRefObject => true
      | _ => strict_equal (heap_get h t (KStr "__v_isRef")) (VBool true)
      end
  | VProxy _ inner => isRef h inner
  | _ => false
  end.

Definition truthy (v : value) : bool :=
  match v with
  | VUndefined | VNull | VNaN | VBool false => false
  | VNum z => negb (z =? 0)%Z
  | VStr s => negb (String.eqb s "")
  | _ => true
  end.

(** ** ref.ts: [RefImpl]

    The accessors take the raw cell as [this]. *)

Definition convert (val : value) : value :=
  if isObject val then reactive val else val.

Definition RefImpl_constructor (this : Target) (_rawValue : value)
  (_shallow : bool) : prog :=
  GetHeap (fun h =>
    PutHeap
      (heap_put
         (heap_put (heap_put h this (KStr "_rawValue") _rawValue)
                   this (KStr "_shallow") (VBool _shallow))
         this (KStr "_value") (if _shallow then _rawValue else convert _rawValue))
      (Ret (VObj this))).

Definition RefImpl_get_value (this : Target) : prog :=
  Track this GET (KStr "value")
    (GetHeap (fun h => Ret (heap_get h this (KStr "_value")))).

(** The test of the setter: [hasChanged(toRaw(newVal), this._rawValue)]. *)
Definition RefImpl_changed (h : Heap) (this : Target) (newVal : value) : bool :=
  hasChanged (toRaw newVal) (heap_get h this (KStr "_rawValue")).

Definition RefImpl_store (h : Heap) (this : Target) (newVal : value) : Heap :=
  heap_put (heap_put h this (KStr "_rawValue") newVal) this (KStr "_value")
    (if truthy (heap_get h this (KStr "_shallow")) then newVal else convert newVal).

Definition RefImpl_set_value (this : Target) (newVal : value) : prog :=
  GetHeap (fun h =>
    if RefImpl_changed h this newVal then
      PutHeap (RefImpl_store h this newVal)
        (Trigger this SET (Some (KStr "value")) newVal VUndefined (Ret VUndefined))
    else Ret VUndefined).

(** ** computed.ts: [ComputedRefImpl] *)

(** The scheduler of the lazy effect. *)
Definition computed_scheduler (this : Target) (_ : EffectId) : prog :=
  GetHeap (fun h =>
    if negb (truthy (heap_get h this (KStr "_dirty"))) then
      PutHeap (heap_put h this (KStr "_dirty") (VBool true))
        (Trigger this SET (Some (KStr "value")) VUndefined VUndefined
           (Ret VUndefined))
    else Ret VUndefined).

Definition computed_options (this : Target) : ReactiveEffectOptions prog :=
  mkOptions true (Some (computed_scheduler this)) None None None false.

Definition ComputedRefImpl_constructor (this : Target) (getter : prog)
  (isReadonly : bool) : prog :=
  GetHeap (fun h =>
    PutHeap (heap_put h this (KStr "_dirty") (VBool true))
      (Effect (inl getter) (computed_options this)
         (fun e =>
            GetHeap (fun h' =>
              PutHeap
                (heap_put (heap_put h' this (KStr "effect") (VEffect e))
                          this (KStr "__v_isReadonly") (VBool isReadonly))
                (Ret (VObj this)))))).

(** The end of [get value]: track, then return the cached value. *)
Definition computed_track_and_return (this : Target) : prog :=
  Track this GET (KStr "value")
    (GetHeap (fun h => Ret (heap_get h this (KStr "_value")))).

Definition computed_cache (h : Heap) (this : Target) (v : value) : Heap :=
  heap_put (heap_put h this (KStr "_value") v) this (KStr "_dirty") (VBool false).

Definition ComputedRefImpl_get_value (this : Target) : prog :=
  GetHeap (fun h =>
    if truthy (heap_get h this (KStr "_dirty")) then
      match heap_get h this (KStr "effect") with
      | VEffect e =>
          Call e (fun v =>
            GetHeap (fun h' =>
              PutHeap (computed_cache h' this v) (computed_track_and_return this)))
      | _ => Throw TypeError
      end
    else computed_track_and_return this).

(** ** baseHandlers.ts: the set trap *)

Section Handlers.
(** The [_setter] each computed ref was built with. *)
Variable computed_setter : Target -> value -> prog.

(** [oldValue.value = value] on a ref: the setter of its class, or a plain
    write on an object that only carries the [__v_isRef] flag. *)
Definition assign_ref_value (oldValue v : value) : prog :=
  match toRaw oldValue with
  | VObj r =>
      match tkind r with
      | RefImplObject => RefImpl_set_value r v
      | ComputedRefObject => computed_setter r v
      | _ =>
          GetHeap (fun h =>
            match define_property h r (KStr "value") v with
            | Some (h', _) => PutHeap h' (Ret VUndefined)
            | None => Throw (VStr "RangeError")
            end)
      end
  | _ => Ret VUndefined
  end.

(** [hadKey] of the set trap. *)
Definition hadKey (h : Heap) (target : Target) (key : Key) : bool :=
  if isArray target && isIntegerKey key
  then (Number_of_key key <? array_length h target)%Z
  else hasOwn h target key.

(** The function [set] that [createSetter(shallow)] returns.  In the source
    text the closing brace of the empty [else] branch ("in shallow mode,
    objects are set as-is") is absent; the blocks are taken as their
    indentation and the two closing braces of [set] and [createSetter] give
    them, so that [hadKey] and what follows it belong to the body of [set]. *)
Definition createSetter (shallow : bool) (target : Target) (key : Key)
  (value0 : value) (receiver : value) : prog :=
  GetHeap (fun h =>
    let oldValue := heap_get h target key in
    let v := if shallow then value0 else toRaw value0 in
    if negb shallow &&
       (negb (isArray target) && isRef h oldValue && negb (isRef h v))
    then bind (assign_ref_value oldValue v) (fun _ => Ret (VBool true))
    else
      match Reflect_set h target key v receiver with
      | None => Throw (VStr "RangeError")
      | Some (h', result) =>
          PutHeap h'
            (if value_eqb (VObj target) (toRaw receiver) then
               if negb (hadKey h target key) then
                 Trigger target ADD (Some key) v VUndefined (Ret (VBool result))
               else if hasChanged v oldValue then
                 Trigger target SET (Some key) v oldValue (Ret (VBool result))
               else Ret (VBool result)
             else Ret (VBool result))
      end).

Definition set := createSetter false.
Definition shallowSet := createSetter true.
End Handlers.

(** ** apiWatch.ts: the job of a watcher *)

Section Watch.
(** Modelled from the spec: the error facade of errorHandling.ts, which
    "surfaces [the error] to the component's error boundary". *)
Variable handleError : value -> prog.
(** The sentinel object [INITIAL_WATCHER_VALUE]. *)
Variable INITIAL_WATCHER_VALUE : value.

(** Modelled from the spec: [callWithErrorHandling] and
    [callWithAsyncErrorHandling] "invoke user callbacks with an error-code
    tag; propagate to the host error boundary". *)
Definition callWithErrorHandling (fn : prog) : prog :=
  TryCatch fn (fun err => bind (handleError err) (fun _ => Ret VUndefined)) Ret.

(** [onInvalidate(fn)].  The closure variable [cleanup] and
    [runner.options.onStop] are assigned together here and nowhere else, so
    one slot holds them both. *)
Definition onInvalidate (runner : EffectId) (fn : prog) : prog :=
  SetOnStop runner (callWithErrorHandling fn) (Ret VUndefined).

Definition WatchCallback := value -> value -> (prog -> prog) -> prog.

(** The closure variable [oldValue] lives in the cell [env]. *)
Definition oldValue_of (h : Heap) (env : Target) : value :=
  heap_get h env (KStr "oldValue").

(** What [job] does with [newValue] once [runner()] has returned it. *)
Definition job_with (cb : WatchCallback) (deep isRefSource : bool)
  (runner : EffectId) (env : Target) (newValue : value) : prog :=
  GetHeap (fun h =>
    let oldValue := oldValue_of h env in
    if deep || isRefSource || hasChanged newValue oldValue then
      CallOnStop runner
        (bind
           (callWithErrorHandling
              (cb newValue
                  (if strict_equal oldValue INITIAL_WATCHER_VALUE
                   then VUndefined else oldValue)
                  (onInvalidate runner)))
           (fun _ =>
              GetHeap (fun h' =>
                PutHeap (heap_put h' env (KStr "oldValue") newValue)
                        (Ret VUndefined))))
    else Ret VUndefined).

Definition job (cb : option WatchCallback) (deep isRefSource : bool)
  (runner : EffectId) (env : Target) : prog :=
  IsActive runner (fun a =>
    if negb a then Ret VUndefined
    else
      match cb with
      | Some f => Call runner (job_with f deep isRefSource runner env)
      | None => Call runner (fun _ => Ret VUndefined)
      end).

End Watch.

(** ** The statements about states *)

(** The registry and the [deps] lists say the same: a dep holds an effect
    exactly when the effect lists the dep. *)
Definition consistent (st : State) : Prop :=
  forall e d, In e (dep_at st d) <-> In d (effect_deps st e).

Definition valid_effect (st : State) (e : EffectId) : Prop :=
  e < List.length (effects st).

(** The current effect is the top of the effect stack. *)
Definition current_is_top (st : State) : Prop :=
  activeEffect st = hd_error (effectStack st).

Definition well_formed (st : State) : Prop :=
  consistent st /\
  Forall (valid_effect st) (effectStack st) /\
  (forall e, activeEffect st = Some e -> valid_effect st e).

(** A relation between the state before a call and the state it ends in,
    by a return or by an exception. *)
Definition holds_after (R : State -> State -> Prop) (st : State) (o : outcome)
  : Prop :=
  match o with
  | Normal _ st' | Thrown _ st' => R st st'
  | OutOfFuel => True
  end.

(** The call ended, with this state. *)
Definition ends_in (o : outcome) (st' : State) : Prop :=
  match o with
  | Normal _ s | Thrown _ s => s = st'
  | OutOfFuel => False
  end.

(** The effect stack is as before, and the current effect is its top if it
    was. *)
Definition stack_kept (st st' : State) : Prop :=
  effectStack st' = effectStack st /\
  (current_is_top st -> current_is_top st').

(** The events logged between two states, and what the [deps] lists may
    have gained: only deps that the effect tracked in between. *)
Definition deps_from_tracking (st st' : State) : Prop :=
  exists new, trace st' = new ++ trace st /\
    forall x d, In d (effect_deps st' x) ->
                In d (effect_deps st x) \/ In (EvTrack x d) new.

(** The filter of [add]: the effect is not the running one, or it allows
    recursion. *)
Definition eligible (st : State) (e : EffectId) : bool :=
  negb (is_activeEffect st e) || allowRecurse_of st e.

(** The test of the length branch on one key of the map. *)
Definition length_selects (k : Key) (newValue : value) : Prop :=
  k = KStr "length" \/ key_ge k newValue = CmpTrue.

(** ** Example callbacks *)

Definition plain_options : ReactiveEffectOptions prog :=
  mkOptions false None None None None false.

Definition no_setter (_ : Target) (_ : value) : prog := Ret VUndefined.

(** A read of a primitive data property through a reactive proxy: the
    [track] of the get trap, then the value. *)
Definition proxy_get (target : Target) (key : Key) (c : value -> prog) : prog :=
  Track target GET key (GetHeap (fun h => c (heap_get h target key))).

(** A write through the reactive proxy of [target]. *)
Definition proxy_set (target : Target) (key : Key) (v : value) : prog :=
  set no_setter target key v (VProxy false (VObj target)).

Definition obj_x : Target := mkTarget PlainObject 1.
Definition obj_spy : Target := mkTarget PlainObject 2.

(** [spy[key]++] on an object that is not reactive. *)
Definition count_up (key : Key) : prog :=
  GetHeap (fun h =>
    PutHeap
      (heap_put h obj_spy key
         (match heap_get h obj_spy key with VNum n => VNum (n + 1) | _ => VNum 1 end))
      (Ret VUndefined)).

(** [() => { count++; x.n++ }]. *)
Definition self_increment : prog :=
  bind (count_up (KStr "count"))
    (fun _ => proxy_get obj_x (KStr "n")
       (fun v => proxy_set obj_x (KStr "n")
                   (match v with VNum n => VNum (n + 1) | _ => VNaN end))).

(** [const x = reactive({n: 0}); effect(() => { count++; x.n++ })]. *)
Definition self_increment_scenario : prog :=
  PutHeap (heap_put (mkHeap [] []) obj_x (KStr "n") (VNum 0))
    (Effect (inl self_increment) plain_options (fun e => Ret (VEffect e))).

(** A state in which effect 0 runs, subscribed to [x.n] and to the
    iteration of [x]. *)
Definition running_state (recurse : bool) : State :=
  mkState [(obj_x, [(KStr "n", [0]); (ITERATE_KEY, [0])])] [0] (Some 0) 1 true [true]
    [mkEffect 0 true (Ret VUndefined) [(obj_x, KStr "n"); (obj_x, ITERATE_KEY)]
       (mkOptions false None None None None recurse)]
    (mkHeap [] []) [].

(** A relation that every elementary state change of the runtime respects. *)
Definition run_invariant (R : State -> State -> Prop) : Prop :=
  (forall st, R st st) /\
  (forall a b c, R a b -> R b c -> R a c) /\
  (forall h st, R st (set_heap h st)) /\
  (forall t ty k st, R st (fst (track t ty k st))) /\
  (forall fn o st, R st (snd (createReactiveEffect fn o st))) /\
  (forall e st, R st (cleanup e st)) /\
  (forall e f st, (forall x, deps (f x) = deps x) -> R st (update_effect e f st)) /\
  (forall b s st, R st (set_tracking b s st)) /\
  (forall e x st s', get_effect st e = Some x ->
                     R (enter_effect e st) s' -> R st (finally_block s')).

(** What the [finally] block of an invocation of [e] from [st] leaves, when
    [fn] ended in [s1]. *)
Definition stacks_released (st : State) (e : EffectId) (s1 : State) : Prop :=
  effectStack (finally_block s1) = effectStack st /\
  activeEffect (finally_block s1) = hd_error (effectStack st) /\
  trackStack (finally_block s1) = tl (trackStack s1) /\
  shouldTrack (finally_block s1) = hd true (trackStack s1) /\
  (trackStack s1 = trackStack (enter_effect e st) ->
   trackStack (finally_block s1) = trackStack st /\
   shouldTrack (finally_block s1) = shouldTrack st).

(** Effect objects are never removed. *)
Definition effects_kept (st st' : State) : Prop :=
  List.length (effects st) <= List.length (effects st').

(** [const e = effect(() => x.n, { lazy: true, onStop: () => e() })], made
    and not yet run. *)
Definition resubscribing_state : State :=
  mkState [] [] None 1 true []
    [mkEffect 0 true (proxy_get obj_x (KStr "n") Ret) []
       (mkOptions true None None None (Some (Call 0 (fun _ => Ret VUndefined)))
                  false)]
    (mkHeap [] []) [].

(** The selection as the specification words it for [arr.length = n]: the
    dep at "length" and the deps at integer-valued string keys >= n. *)
Definition claimed_length_selection (m : KeyToDepMap) (n : Z) (e : EffectId)
  : Prop :=
  exists k dep, In (k, dep) m /\ In e dep /\
    (k = KStr "length" \/ (isIntegerKey k = true /\ (n <= Number_of_key k)%Z)).

Definition arr : Target := mkTarget ArrayObject 3.

(** An effect that read [arr["1.5"]], at rest. *)
Definition fraction_key_state : State :=
  mkState [(arr, [(KStr "1.5", [0])])] [] None 1 true []
    [mkEffect 0 true (Ret VUndefined) [(arr, KStr "1.5")] plain_options]
    (mkHeap [] []) [].

(** Eight effects at rest, the effect [i] having read the [i]-th of these
    keys of [arr]. *)
Definition read_keys : list string :=
  ["length"; "0"; "2"; "1.5"; "Infinity"; "1e3"; "foo"; " 3 "].

Definition keyed_array_state : State :=
  mkState
    [(arr, map (fun p => (KStr (snd p), [fst p])) (combine (seq 0 8) read_keys))]
    [] None 8 true []
    (map (fun p => mkEffect (fst p) true (Ret VUndefined) [(arr, KStr (snd p))]
                     plain_options)
         (combine (seq 0 8) read_keys))
    (mkHeap [] []) [].

(** [() => x.flag ? x.n : undefined]. *)
Definition flag_effect : prog :=
  proxy_get obj_x (KStr "flag")
    (fun v => if truthy v then proxy_get obj_x (KStr "n") Ret else Ret VUndefined).

(** The effect of that function after a run with the flag set, subscribed to
    [x.flag] and [x.n]; the flag is now clear and the effect is to run again. *)
Definition flag_state : State :=
  mkState [(obj_x, [(KStr "flag", [0]); (KStr "n", [0])])] [] None 1 true []
    [mkEffect 0 true flag_effect [(obj_x, KStr "flag"); (obj_x, KStr "n")]
       plain_options]
    (heap_put (heap_put (mkHeap [] []) obj_x (KStr "n") (VNum 0))
              obj_x (KStr "flag") (VBool false)) [].

(** [effect(() => x.n, { lazy: true })], made and not yet run. *)
Definition lazy_state : State :=
  mkState [] [] None 1 true []
    [mkEffect 0 true (proxy_get obj_x (KStr "n") Ret) []
       (mkOptions true None None None None false)]
    (mkHeap [] []) [].

(** [effect(() => { x.n; throw "boom" }, { lazy: true })], made and not yet
    run. *)
Definition throwing_state : State :=
  mkState [] [] None 1 true []
    [mkEffect 0 true (proxy_get obj_x (KStr "n") (fun _ => Throw (VStr "boom"))) []
       (mkOptions true None None None None false)]
    (mkHeap [] []) [].

(** [x = reactive({n: 0})] with an effect [() => { runs++ }] subscribed to
    [x.n], at rest. *)
Definition subscribed_state : State :=
  mkState [(obj_x, [(KStr "n", [0])])] [] None 1 true []
    [mkEffect 0 true (count_up (KStr "runs")) [(obj_x, KStr "n")] plain_options]
    (heap_put (mkHeap [] []) obj_x (KStr "n") (VNum 0)) [].

Definition ref_cell : Target := mkTarget RefImplObject 4.
Definition obj_o : Target := mkTarget PlainObject 5.

(** A ref holding the number 1, with an effect [() => { runs++ }]
    subscribed to its value. *)
Definition ref_state : State :=
  mkState [(ref_cell, [(KStr "value", [0])])] [] None 1 true []
    [mkEffect 0 true (count_up (KStr "runs")) [(ref_cell, KStr "value")]
       plain_options]
    (RefImpl_store (mkHeap [] []) ref_cell (VNum 1)) [].

(** The same with [ref(reactive(o))]: the constructor stored the proxy. *)
Definition proxied_ref_state : State :=
  mkState [(ref_cell, [(KStr "value", [0])])] [] None 1 true []
    [mkEffect 0 true (count_up (KStr "runs")) [(ref_cell, KStr "value")]
       plain_options]
    (heap_put
       (heap_put (heap_put (mkHeap [] []) ref_cell (KStr "_rawValue")
                           (VProxy false (VObj obj_o)))
                 ref_cell (KStr "_shallow") (VBool false))
       ref_cell (KStr "_value") (VProxy false (VObj obj_o))) [].

(** ** A watcher of an array of sources *)

Definition watch_env : Target := mkTarget PlainObject 7.
Definition no_handler (_ : value) : prog := Ret VUndefined.
Definition initial_sentinel : value := VObj (mkTarget PlainObject 98).

(** The getter of [watch([() => 7], cb)]: [source.map(...)] builds a new
    array [[7]] at each run. *)
Definition fresh_array_getter : prog :=
  GetHeap (fun h =>
    let n := match heap_get h obj_spy (KStr "next") with
             | VNum z => Z.to_nat z
             | _ => 0
             end in
    let a := mkTarget ArrayObject (100 + n) in
    PutHeap
      (heap_put
         (heap_put (heap_put h a (KStr "0") (VNum 7)) a (KStr "length") (VNum 1))
         obj_spy (KStr "next") (VNum (Z.of_nat (S n))))
      (Ret (VObj a))).

(** [cb = () => { calls++ }]. *)
Definition counting_callback : WatchCallback :=
  fun _ _ _ => count_up (KStr "calls").

Definition array_job : prog :=
  job no_handler initial_sentinel (Some counting_callback) false false 0 watch_env.








(** A watcher whose effect was stopped. *)
Definition stopped_watch_state : State :=
  mkState [] [] None 1 true []
    [mkEffect 0 false fresh_array_getter []
       (mkOptions true (Some (fun _ => array_job)) None None None false)]
    (mkHeap [] []) [].

(** ** baseHandlers.ts: the length-altering array methods *)

(** The instrumented [push], [pop], [shift], [unshift] and [splice]: the
    native method between [pauseTracking()] and [enableTracking()]. *)
Definition length_altering_method (method : prog) : prog :=
  PauseTracking (bind method (fun res => EnableTracking (Ret res))).

(** [effect(() => { arr.push(1) }, { lazy: true })] on an empty reactive
    array, made and not yet run; the native [push] sets index 0. *)
Definition pushing_state : State :=
  mkState [] [] None 1 true []
    [mkEffect 0 true
       (length_altering_method
          (set no_setter arr (KStr "0") (VNum 1) (VProxy false (VObj arr))))
       [] (mkOptions true None None None None false)]
    (heap_put (mkHeap [] []) arr (KStr "length") (VNum 0)) [].

Definition computed_cell : Target := mkTarget ComputedRefObject 6.

(** [c = computed(() => 2)] after [stop(c.effect)], not yet read. *)
Definition stopped_computed_state : State :=
  mkState [] [] None 1 true []
    [mkEffect 0 false (Ret (VNum 2)) [] (computed_options computed_cell)]
    (heap_put (heap_put (mkHeap [] []) computed_cell (KStr "_dirty") (VBool true))
              computed_cell (KStr "effect") (VEffect 0)) [].

(** The scenario "branching cleanup":
    [o = reactive({ok: true, x: 1, y: 2}); effect(() => { out = o.ok ? o.x : o.y });
     o.ok = false; o.x = 100]. *)
Definition store_out (v : value) : prog :=
  GetHeap (fun h => PutHeap (heap_put h obj_spy (KStr "out") v) (count_up (KStr "runs"))).

Definition branching_effect : prog :=
  proxy_get obj_x (KStr "ok")
    (fun b => if truthy b then proxy_get obj_x (KStr "x") store_out
              else proxy_get obj_x (KStr "y") store_out).

Definition branching_scenario : prog :=
  PutHeap
    (heap_put (heap_put (heap_put (mkHeap [] []) obj_x (KStr "ok") (VBool true))
                        obj_x (KStr "x") (VNum 1))
              obj_x (KStr "y") (VNum 2))
    (Effect (inl branching_effect) plain_options
       (fun _ => bind (proxy_set obj_x (KStr "ok") (VBool false))
                   (fun _ => proxy_set obj_x (KStr "x") (VNum 100)))).

(** The scenario "computed invalidation":
    [o = reactive({n: 1}); c = computed(() => o.n * 2); c.value; o.n = 5;
     c.value; effect(() => { runs++; c.value }); o.n = 6; c.value]. *)
Definition doubling_getter : prog :=
  proxy_get obj_x (KStr "n")
    (fun v => Ret (match v with VNum n => VNum (n * 2) | _ => VNaN end)).

Definition computed_scenario : prog :=
  PutHeap (heap_put (mkHeap [] []) obj_x (KStr "n") (VNum 1))
    (bind (ComputedRefImpl_constructor computed_cell doubling_getter true) (fun _ =>
     bind (ComputedRefImpl_get_value computed_cell) (fun v1 =>
     bind (proxy_set obj_x (KStr "n") (VNum 5)) (fun _ =>
     bind (ComputedRefImpl_get_value computed_cell) (fun v2 =>
     Effect (inl (bind (count_up (KStr "runs"))
                       (fun _ => ComputedRefImpl_get_value computed_cell)))
            plain_options (fun _ =>
     bind (proxy_set obj_x (KStr "n") (VNum 6)) (fun _ =>
     bind (ComputedRefImpl_get_value computed_cell) (fun v3 =>
     GetHeap (fun h =>
       PutHeap (heap_put (heap_put (heap_put h obj_spy (KStr "v1") v1)
                                   obj_spy (KStr "v2") v2)
                         obj_spy (KStr "v3") v3)
               (Ret VUndefined)))))))))).

(** The same, asked only of the state changes as the runtime makes them:
    [cleanup] and the entry into [fn] for an active effect, the entry for
    one that is not on the stack, and the two updates of an effect object
    that [stop] and [onInvalidate] make. *)
Definition guarded_invariant (R : State -> State -> Prop) : Prop :=
  (forall st, R st st) /\
  (forall a b c, R a b -> R b c -> R a c) /\
  (forall h st, R st (set_heap h st)) /\
  (forall t ty k st, R st (fst (track t ty k st))) /\
  (forall fn o st, R st (snd (createReactiveEffect fn o st))) /\
  (forall e x st, get_effect st e = Some x -> active x = true ->
                  R st (cleanup e st)) /\
  (forall e st, R st (update_effect e (set_active false) st)) /\
  (forall e h st, R st (update_effect e (set_onStop (Some h)) st)) /\
  (forall b s st, R st (set_tracking b s st)) /\
  (forall e x st s',
     get_effect st e = Some x -> active x = true ->
     existsb (Nat.eqb e) (effectStack st) = false ->
     R (enter_effect e st) s' -> R st (finally_block s')).

(** No dep holds an effect twice, no [deps] list names a dep twice. *)
Definition duplicate_free (st : State) : Prop :=
  (forall d, NoDup (dep_at st d)) /\ (forall e, NoDup (effect_deps st e)).

(** Effect [i] of the store has the id [i], and [uid] is the next one. *)
Definition ids_in_order (st : State) : Prop :=
  uid st = List.length (effects st) /\
  forall i x, get_effect st i = Some x -> id x = i.

(** A stopped effect that is not running: inactive, not on the effect
    stack, not the current effect. *)
Definition dormant (e : EffectId) (st : State) : Prop :=
  (exists x, get_effect st e = Some x /\ active x = false) /\
  ~ In e (effectStack st) /\ activeEffect st <> Some e.

(** The subscriptions of [e] are the same in both states. *)
Definition same_subscriptions (e : EffectId) (st st' : State) : Prop :=
  effect_deps st' e = effect_deps st e /\
  forall d, In e (dep_at st' d) <-> In e (dep_at st d).

(** [enableTracking()] for [true], [pauseTracking()] for [false]. *)
Definition push_tracking (st : State) (b : bool) : State :=
  if b then enableTracking st else pauseTracking st.

(** [n] calls of [resetTracking()]. *)
Fixpoint reset_times (n : nat) (st : State) : State :=
  match n with
  | O => st
  | S n' => reset_times n' (resetTracking st)
  end.

(** ** baseHandlers.ts: the get, delete, has and ownKeys traps *)

(** [delete target[key]] on a raw object. *)
Definition heap_delete (h : Heap) (t : Target) (k : Key) : Heap :=
  mkHeap (filter (fun kv => negb (DepId_eqb (fst kv) (t, k))) (props h)) (frozen h).

(** [Reflect.deleteProperty(target, key)] without accessors and prototypes:
    the [length] of an array and the properties of a frozen object are not
    configurable and stay; the delete of an absent key succeeds. *)
Definition Reflect_deleteProperty (h : Heap) (target : Target) (key : Key)
  : Heap * bool :=
  if isArray target && Key_eqb key (KStr "length") then (h, false)
  else if hasOwn h target key then
    if is_frozen h target then (h, false) else (heap_delete h target key, true)
  else (h, true).

Definition deleteProperty (target : Target) (key : Key) : prog :=
  GetHeap (fun h =>
    let hadKey := hasOwn h target key in
    let oldValue := heap_get h target key in
    let (h', result) := Reflect_deleteProperty h target key in
    PutHeap h'
      (if result && hadKey
       then Trigger target DELETE (Some key) VUndefined oldValue (Ret (VBool result))
       else Ret (VBool result))).

(** Modelled from the spec: [readonly] of reactive.ts, "deep readonly
    proxy", with [readonly(readonly(x)) === readonly(x)]. *)
Definition readonly (v : value) : value :=
  match v with
  | VObj _ | VProxy false _ => VProxy true v
  | _ => v
  end.

(** Modelled from the spec: what [readonlyMap] and [reactiveMap] of
    reactive.ts give for a target, "the canonical proxy registered for that
    target". *)
Definition proxyMap_get (isReadonly : bool) (target : Target) : value :=
  VProxy isReadonly (VObj target).

(** [i + ''] for a loop index. *)
Definition index_key (i : nat) : Key :=
  KStr (NilZero.string_of_uint (Nat.to_uint i)).

(** [for (let i = ...; i < l; i++) track(arr, GET, i + '')] with [n]
    rounds to go. *)
Fixpoint track_indices (arr : Target) (i n : nat) (c : prog) : prog :=
  match n with
  | O => c
  | S n' => Track arr GET (index_key i) (track_indices arr (S i) n' c)
  end.

Section Traps.
(** The well-known symbols collected in [builtInSymbols]. *)
Variable builtInSymbols : list Key.
(** The members of [ReactiveFlags] (reactive.ts). *)
Variables IS_REACTIVE IS_READONLY RAW : Key.
(** The function objects stored in [arrayInstrumentations]. *)
Variable instrumented : string -> value.
(** [Reflect.has(target, key)]: whether the target or an object of its
    prototype chain has the key. *)
Variable Reflect_has : Heap -> Target -> Key -> bool.
(** [Reflect.ownKeys(target)]: the array of keys that it makes. *)
Variable Reflect_ownKeys : Heap -> Target -> Heap * value.
(** A property read on a proxy: the get trap of the handlers that the
    proxy was made with. *)
Variable proxy_read : value -> Key -> prog.
(** The native [includes], [indexOf] and [lastIndexOf] on a raw array. *)
Variable Array_prototype : string -> Heap -> Target -> list value -> value.
(** The [_setter] each computed ref was built with. *)
Variable computed_setter : Target -> value -> prog.

Definition has (target : Target) (key : Key) : prog :=
  GetHeap (fun h =>
    let result := Reflect_has h target key in
    if negb (isSymbol key) || negb (Set_has Key_eqb key builtInSymbols)
    then Track target HAS key (Ret (VBool result))
    else Ret (VBool result)).

Definition ownKeys (target : Target) : prog :=
  Track target ITERATE ITERATE_KEY
    (GetHeap (fun h =>
       let (h', keys) := Reflect_ownKeys h target in PutHeap h' (Ret keys))).

(** The own properties of [arrayInstrumentations]. *)
Definition arrayInstrumentations (key : Key) : option value :=
  match key with
  | KStr s =>
      if existsb (String.eqb s)
           ["includes"; "indexOf"; "lastIndexOf";
            "push"; "pop"; "shift"; "unshift"; "splice"]
      then Some (instrumented s)
      else None
  | KSym _ => None
  end.

(** [res.value] on a value that [isRef] accepts: the getter of the ref
    classes, a data property on another object that carries the flag. *)
Definition ref_value (res : value) : prog :=
  match res with
  | VObj r =>
      match tkind r with
      | RefImplObject => RefImpl_get_value r
      | ComputedRefObject => ComputedRefImpl_get_value r
      | _ => GetHeap (fun h => Ret (heap_get h r (KStr "value")))
      end
  | VProxy _ _ => proxy_read res (KStr "value")
  | _ => Ret VUndefined
  end.

(** The function [get] that [createGetter(isReadonly, shallow)] returns;
    [Reflect.get] reads a data property of the target. *)
Definition createGetter (isReadonly shallow : bool) (target : Target) (key : Key)
  (receiver : value) : prog :=
  if Key_eqb key IS_REACTIVE then Ret (VBool (negb isReadonly))
  else if Key_eqb key IS_READONLY then Ret (VBool isReadonly)
  else if Key_eqb key RAW &&
          strict_equal receiver (proxyMap_get isReadonly target)
  then Ret (VObj target)
  else
    let targetIsArray := isArray target in
    match (if targetIsArray then arrayInstrumentations key else None) with
    | Some f => Ret f
    | None =>
        GetHeap (fun h =>
          let res := heap_get h target key in
          if (if isSymbol key then Set_has Key_eqb key builtInSymbols
              else Key_eqb key (KStr "__proto__") || Key_eqb key (KStr "__v_isRef"))
          then Ret res
          else
            let unwrap :=
              if shallow then Ret res
              else
                GetHeap (fun h' =>
                  if isRef h' res then
                    if negb targetIsArray || negb (isIntegerKey key)
                    then ref_value res
                    else Ret res
                  else if isObject res then
                    Ret (if isReadonly then readonly res else reactive res)
                  else Ret res) in
            if isReadonly then unwrap else Track target GET key unwrap)
    end.

Definition get := createGetter false false.
Definition shallowGet := createGetter false true.
Definition readonlyGet := createGetter true false.
Definition shallowReadonlyGet := createGetter true true.

(** [this.length] in an instrumented method: a data property of a raw
    array, the get trap on a proxy. *)
Definition this_length (this : value) : prog :=
  match this with
  | VObj arr => GetHeap (fun h => Ret (heap_get h arr (KStr "length")))
  | VProxy _ _ => proxy_read this (KStr "length")
  | _ => Ret VUndefined
  end.

(** The instrumented [includes], [indexOf] and [lastIndexOf]; [this] is an
    array or a proxy of one, and its length a number. *)
Definition search_instrumentation (key : string) (this : value)
  (args : list value) : prog :=
  match toRaw this with
  | VObj arr =>
      bind (this_length this) (fun l =>
        track_indices arr 0 (match l with VNum z => Z.to_nat z | _ => 0 end)
          (GetHeap (fun h =>
             let res := Array_prototype key h arr args in
             if strict_equal res (VNum (-1)) || strict_equal res (VBool false)
             then Ret (Array_prototype key h arr (map toRaw args))
             else Ret res)))
  | _ => Throw TypeError
  end.

(** ** ref.ts: [ref], [shallowRef], [unref], [triggerRef], [proxyRefs]

    [this] is the object that [new RefImpl] makes. *)

Definition createRef (this : Target) (rawValue : value) (shallow : bool) : prog :=
  GetHeap (fun h =>
    if isRef h rawValue then Ret rawValue
    else RefImpl_constructor this rawValue shallow).

Definition ref (this : Target) (value0 : value) : prog :=
  createRef this value0 false.

Definition shallowRef (this : Target) (value0 : value) : prog :=
  createRef this value0 true.

Definition unref (ref0 : value) : prog :=
  GetHeap (fun h => if isRef h ref0 then ref_value ref0 else Ret ref0).

Definition triggerRef (ref0 : Target) : prog :=
  if __DEV__ then
    bind (ref_value (VObj ref0))
      (fun v => Trigger ref0 SET (Some (KStr "value")) v VUndefined (Ret VUndefined))
  else Trigger ref0 SET (Some (KStr "value")) VUndefined VUndefined (Ret VUndefined).


End Traps.

(** No [onTrack] hook runs for the current effect: a production build, or
    no hook in its options. *)
Definition hook_free (st : State) : Prop :=
  __DEV__ = false \/
  forall e x, activeEffect st = Some e -> get_effect st e = Some x ->
              onTrack (options x) = None.

(** The state after the loop of [track_indices] when no hook runs. *)
Fixpoint after_tracks (arr : Target) (i n : nat) (st : State) : State :=
  match n with
  | O => st
  | S n' => after_tracks arr (S i) n' (fst (track arr GET (index_key i) st))
  end.

(** ** Example states for the traps and the refs *)

(** Effect 0 runs with tracking on; [x = {n: 1}] and [arr = [7, 8]]. *)
Definition reading_state : State :=
  mkState [] [0] (Some 0) 1 true [true]
    [mkEffect 0 true (Ret VUndefined) [] plain_options]
    (heap_put
       (heap_put
          (heap_put (heap_put (mkHeap [] []) obj_x (KStr "n") (VNum 1))
                    arr (KStr "0") (VNum 7))
          arr (KStr "1") (VNum 8))
       arr (KStr "length") (VNum 2)) [].

(** No effect at all; [x = {n: 1, r: ref(1)}]. *)
Definition resting_state : State :=
  mkState [] [] None 0 true [] []
    (heap_put
       (heap_put (RefImpl_store (mkHeap [] []) ref_cell (VNum 1))
                 obj_x (KStr "n") (VNum 1))
       obj_x (KStr "r") (VObj ref_cell)) [].

(** [Reflect.has] on objects whose prototype chain holds the keys
    [inherited]: an own key, or one of these. *)
Definition has_own_or_inherited (inherited : list Key) (h : Heap) (t : Target)
  (k : Key) : bool :=
  hasOwn h t k || existsb (Key_eqb k) inherited.

(** A computed ref [c = computed(() => 2)], not yet read. *)
Definition fresh_computed_state : State :=
  mkState [] [] None 1 true []
    [mkEffect 0 true (Ret (VNum 2)) [] (computed_options computed_cell)]
    (heap_put (heap_put (mkHeap [] []) computed_cell (KStr "_dirty") (VBool true))
              computed_cell (KStr "effect") (VEffect 0)) [].

(** * Properties *)

(** ** Equality tests, maps and sets *)

Lemma Target_eqb_eq (a b : Target) : Target_eqb a b = true <-> a = b.
Proof.
  destruct a as [ka ia], b as [kb ib]; unfold Target_eqb; simpl.
  rewrite andb_true_iff, Nat.eqb_eq. split.
  - intros [Hk ->]. destruct ka, kb; simpl in Hk; congruence.
  - intros H; inversion H; subst. split; [destruct kb|]; reflexivity.
Qed.

Lemma Key_eqb_eq (a b : Key) : Key_eqb a b = true <-> a = b.
Proof.
  destruct a, b; simpl; rewrite ?String.eqb_eq, ?Nat.eqb_eq;
    split; intros H; try congruence; try discriminate.
Qed.

Lemma DepId_eqb_eq (a b : DepId) : DepId_eqb a b = true <-> a = b.
Proof.
  destruct a, b; unfold DepId_eqb; simpl.
  rewrite andb_true_iff, Target_eqb_eq, Key_eqb_eq.
  split; [intros [-> ->]; reflexivity | intros H; inversion H; auto].
Qed.

Lemma Target_eqb_refl (a : Target) : Target_eqb a a = true.
Proof. apply Target_eqb_eq; reflexivity. Qed.

Lemma Key_eqb_refl (a : Key) : Key_eqb a a = true.
Proof. apply Key_eqb_eq; reflexivity. Qed.


Lemma Key_eqb_neq (a b : Key) : a <> b -> Key_eqb a b = false.
Proof.
  intros H. destruct (Key_eqb a b) eqn:E; [|reflexivity].
  apply Key_eqb_eq in E. contradiction.
Qed.

Section ContainerFacts.
Variables K V : Type.
Variable eqb : K -> K -> bool.
Hypothesis eqb_eq : forall a b, eqb a b = true <-> a = b.

Lemma eqb_refl' (a : K) : eqb a a = true.
Proof. apply eqb_eq; reflexivity. Qed.

Lemma eqb_neq' (a b : K) : a <> b -> eqb a b = false.
Proof.
  intros H. destruct (eqb a b) eqn:E; [|reflexivity].
  apply eqb_eq in E. contradiction.
Qed.

Lemma Map_get_set_same (k : K) (v : V) (m : list (K * V)) :
  Map_get eqb k (Map_set eqb k v m) = Some v.
Proof.
  induction m as [|[k' v'] m IH]; simpl.
  - rewrite eqb_refl'. reflexivity.
  - destruct (eqb k' k) eqn:E; simpl; rewrite E; auto.
Qed.

Lemma Map_get_set_other (k k0 : K) (v : V) (m : list (K * V)) :
  k0 <> k -> Map_get eqb k0 (Map_set eqb k v m) = Map_get eqb k0 m.
Proof.
  intros Hne. induction m as [|[k' v'] m IH]; simpl.
  - rewrite eqb_neq'; auto.
  - destruct (eqb k' k) eqn:E; simpl.
    + apply eqb_eq in E; subst k'. rewrite eqb_neq'; auto.
    + destruct (eqb k' k0); auto.
Qed.

Lemma Set_has_In (x : K) (s : list K) : Set_has eqb x s = true <-> In x s.
Proof.
  unfold Set_has. rewrite existsb_exists. split.
  - intros [y [Hy E]]. apply eqb_eq in E. subst; auto.
  - intros H. exists x. split; auto. apply eqb_refl'.
Qed.

Lemma Set_add_In (x y : K) (s : list K) :
  In y (Set_add eqb x s) <-> y = x \/ In y s.
Proof.
  unfold Set_add. destruct (Set_has eqb x s) eqn:E.
  - apply Set_has_In in E. split; auto. intros [->|H]; auto.
  - rewrite in_app_iff. simpl. split; intros H; intuition (subst; auto).
Qed.

Lemma Set_delete_In (x y : K) (s : list K) :
  In y (Set_delete eqb x s) <-> y <> x /\ In y s.
Proof.
  unfold Set_delete. rewrite filter_In, negb_true_iff. split.
  - intros [H E]. split; auto. intros ->. rewrite eqb_refl' in E. discriminate.
  - intros [Hne H]. split; auto. apply eqb_neq'. congruence.
Qed.

Lemma Set_add_NoDup (x : K) (s : list K) : NoDup s -> NoDup (Set_add eqb x s).
Proof.
  intros H. unfold Set_add. destruct (Set_has eqb x s) eqn:E; auto.
  apply NoDup_app; auto.
  - constructor; [intros []|constructor].
  - intros y Hy [<-|[]]. apply Set_has_In in Hy. congruence.
Qed.
End ContainerFacts.

(** ** The registry and the effect objects *)

Lemma nth_error_update_nth_same {A} (n : nat) (f : A -> A) (l : list A) :
  nth_error (update_nth n f l) n = option_map f (nth_error l n).
Proof.
  revert n; induction l as [|x l IH]; intros [|n]; simpl; auto.
Qed.

Lemma nth_error_update_nth_other {A} (n m : nat) (f : A -> A) (l : list A) :
  m <> n -> nth_error (update_nth n f l) m = nth_error l m.
Proof.
  revert n m; induction l as [|x l IH]; intros [|n] [|m] H; simpl; auto.
  congruence.
Qed.

Lemma update_nth_length {A} (n : nat) (f : A -> A) (l : list A) :
  List.length (update_nth n f l) = List.length l.
Proof. revert n; induction l as [|x l IH]; intros [|n]; simpl; auto. Qed.

Lemma get_effect_update_same e f st :
  get_effect (update_effect e f st) e = option_map f (get_effect st e).
Proof. apply nth_error_update_nth_same. Qed.

Lemma get_effect_update_other e e' f st :
  e' <> e -> get_effect (update_effect e f st) e' = get_effect st e'.
Proof. apply nth_error_update_nth_other. Qed.

Lemma effect_deps_update_other e e' f st :
  e' <> e -> effect_deps (update_effect e f st) e' = effect_deps st e'.
Proof.
  intros H. unfold effect_deps. rewrite get_effect_update_other; auto.
Qed.

Lemma dep_at_set_dep_same d s st : dep_at (set_dep d s st) d = s.
Proof.
  unfold dep_at, set_dep, depsMap_of; simpl.
  rewrite (Map_get_set_same _ Target_eqb_eq), (Map_get_set_same _ Key_eqb_eq).
  reflexivity.
Qed.

Lemma dep_at_set_dep_other d d' s st :
  d' <> d -> dep_at (set_dep d s st) d' = dep_at st d'.
Proof.
  intros Hne. destruct d as [t k], d' as [t' k'].
  unfold dep_at, set_dep, depsMap_of; simpl.
  destruct (Target_eqb t' t) eqn:Et.
  - apply Target_eqb_eq in Et; subst t'.
    rewrite (Map_get_set_same _ Target_eqb_eq).
    rewrite (Map_get_set_other _ Key_eqb_eq) by congruence.
    destruct (Map_get Target_eqb t (targetMap st)); reflexivity.
  - rewrite (Map_get_set_other _ Target_eqb_eq); auto.
    intros ->. rewrite Target_eqb_refl in Et. discriminate.
Qed.

Lemma DepId_eq_dec (a b : DepId) : {a = b} + {a <> b}.
Proof.
  destruct (DepId_eqb a b) eqn:E.
  - left. apply DepId_eqb_eq; auto.
  - right. intros ->. assert (DepId_eqb b b = true) by (apply DepId_eqb_eq; auto).
    congruence.
Qed.

Lemma dep_at_set_dep_id d st : forall d', dep_at (set_dep d (dep_at st d) st) d' = dep_at st d'.
Proof.
  intros d'. destruct (DepId_eq_dec d' d) as [->|Hne].
  - apply dep_at_set_dep_same.
  - apply dep_at_set_dep_other; auto.
Qed.

Lemma dep_at_dep_delete e st d0 d x :
  In x (dep_at (dep_delete e st d0) d) <->
  In x (dep_at st d) /\ (d = d0 -> x <> e).
Proof.
  unfold dep_delete.
  destruct (depsMap_of st (fst d0)) as [m|] eqn:Em;
    [destruct (Map_get Key_eqb (snd d0) m) as [s|] eqn:Es|].
  - assert (Hs : dep_at st d0 = s) by (unfold dep_at; rewrite Em, Es; auto).
    destruct (DepId_eq_dec d d0) as [->|Hne].
    + rewrite dep_at_set_dep_same, (Set_delete_In _ Nat.eqb_eq), Hs. tauto.
    + rewrite dep_at_set_dep_other by auto. tauto.
  - split; [intros H; split; auto|tauto].
    intros -> ->. unfold dep_at in H. rewrite Em, Es in H. destruct H.
  - split; [intros H; split; auto|tauto].
    intros -> ->. unfold dep_at in H. rewrite Em in H. destruct H.
Qed.

Lemma effects_dep_delete e st d : effects (dep_delete e st d) = effects st.
Proof.
  unfold dep_delete. destruct (depsMap_of st (fst d)) as [m|]; auto.
  destruct (Map_get Key_eqb (snd d) m); auto.
Qed.

Lemma effects_fold_dep_delete e ds : forall st,
  effects (fold_left (dep_delete e) ds st) = effects st.
Proof.
  induction ds as [|d ds IH]; intros st; simpl; auto.
  rewrite IH. apply effects_dep_delete.
Qed.

Lemma dep_at_fold_dep_delete e ds : forall st d x,
  In x (dep_at (fold_left (dep_delete e) ds st) d) <->
  In x (dep_at st d) /\ (In d ds -> x <> e).
Proof.
  induction ds as [|d0 ds IH]; intros st d x; simpl.
  - tauto.
  - rewrite IH, dep_at_dep_delete. intuition (subst; auto).
Qed.

(** After [cleanup(e)] the list [e.deps] is empty. *)
Lemma effect_deps_cleanup_same e st : effect_deps (cleanup e st) e = [].
Proof.
  unfold cleanup. destruct (get_effect st e) as [x|] eqn:E.
  - destruct (Nat.eqb (List.length (deps x)) 0) eqn:El.
    + unfold effect_deps. rewrite E. apply Nat.eqb_eq in El.
      destruct (deps x); auto; discriminate.
    + unfold effect_deps. rewrite get_effect_update_same.
      unfold get_effect. rewrite effects_fold_dep_delete.
      unfold get_effect in E. rewrite E. reflexivity.
  - unfold effect_deps. rewrite E. reflexivity.
Qed.

Lemma effect_deps_cleanup_other e e' st :
  e' <> e -> effect_deps (cleanup e st) e' = effect_deps st e'.
Proof.
  intros Hne. unfold cleanup. destruct (get_effect st e) as [x|] eqn:E; auto.
  destruct (Nat.eqb (List.length (deps x)) 0); auto.
  rewrite effect_deps_update_other by auto.
  unfold effect_deps, get_effect. rewrite effects_fold_dep_delete. reflexivity.
Qed.

(** [cleanup(e)] takes [e] out of the deps listed in [e.deps] and leaves
    every other membership as it was. *)
Lemma dep_at_cleanup e st d x :
  In x (dep_at (cleanup e st) d) <->
  In x (dep_at st d) /\ (In d (effect_deps st e) -> x <> e).
Proof.
  unfold cleanup, effect_deps. destruct (get_effect st e) as [y|] eqn:E.
  - destruct (Nat.eqb (List.length (deps y)) 0) eqn:El.
    + apply Nat.eqb_eq in El. destruct (deps y); [|discriminate].
      simpl. tauto.
    + change (dep_at (update_effect e (set_deps []) ?s) d) with (dep_at s d).
      apply dep_at_fold_dep_delete.
  - simpl. tauto.
Qed.

(** ** [track] *)

Lemma track_cases t ty k st :
  (fst (track t ty k st) = st /\
   (shouldTrack st = false \/ activeEffect st = None)) \/
  exists e, shouldTrack st = true /\ activeEffect st = Some e /\
    ((In e (dep_at st (t, k)) /\
      fst (track t ty k st) =
        set_dep (t, k) (dep_at st (t, k)) (log (EvTrack e (t, k)) st)) \/
     (~ In e (dep_at st (t, k)) /\
      fst (track t ty k st) =
        update_effect e (fun x => set_deps (deps x ++ [(t, k)]) x)
          (set_dep (t, k) (dep_at st (t, k) ++ [e])
             (set_dep (t, k) (dep_at st (t, k)) (log (EvTrack e (t, k)) st))))).
Proof.
  unfold track. destruct (shouldTrack st) eqn:Es; simpl; [|left; auto].
  destruct (activeEffect st) as [e|] eqn:Ea; [|left; auto].
  right. exists e. split; auto. split; auto.
  change (dep_at (log (EvTrack e (t, k)) st) (t, k)) with (dep_at st (t, k)).
  destruct (Set_has Nat.eqb e (dep_at st (t, k))) eqn:Eh.
  - left. split; auto. apply (Set_has_In _ Nat.eqb_eq); auto.
  - right. assert (Hn : ~ In e (dep_at st (t, k))).
    { intros H. apply (Set_has_In _ Nat.eqb_eq) in H. congruence. }
    split; auto. simpl. unfold Set_add. rewrite Eh. reflexivity.
Qed.

Lemma effect_deps_update_deps e st d x :
  valid_effect st e ->
  effect_deps (update_effect e (fun y => set_deps (deps y ++ [d]) y) st) x =
  if Nat.eqb x e then effect_deps st e ++ [d] else effect_deps st x.
Proof.
  intros Hv. destruct (Nat.eqb x e) eqn:E.
  - apply Nat.eqb_eq in E; subst x. unfold effect_deps.
    rewrite get_effect_update_same.
    destruct (get_effect st e) eqn:G; auto.
    unfold get_effect in G. apply nth_error_None in G.
    unfold valid_effect in Hv. lia.
  - apply Nat.eqb_neq in E. apply effect_deps_update_other; auto.
Qed.

(** [track] keeps the registry and the [deps] lists in step. *)
Lemma track_consistent t ty k st :
  well_formed st -> consistent (fst (track t ty k st)).
Proof.
  intros (Hc & _ & Hv).
  destruct (track_cases t ty k st) as [[-> _]|[e (Hs & Ha & [[Hin ->]|[Hn ->]])]];
    auto.
  - intros x d. change (effect_deps (set_dep ?a ?b ?c) x) with (effect_deps st x).
    rewrite <- (Hc x d).
    change (dep_at (set_dep ?a ?b (log ?ev st)) d) with (dep_at (set_dep a b st) d).
    rewrite dep_at_set_dep_id. tauto.
  - intros x d.
    rewrite effect_deps_update_deps by (apply Hv; auto).
    change (dep_at (update_effect ?a ?b ?s) d) with (dep_at s d).
    change (effect_deps (set_dep ?a ?b (set_dep ?a' ?b' (log ?ev st))) ?y)
      with (effect_deps st y).
    destruct (DepId_eq_dec d (t, k)) as [->|Hne].
    + rewrite dep_at_set_dep_same, in_app_iff. simpl.
      destruct (Nat.eqb x e) eqn:E.
      * apply Nat.eqb_eq in E; subst x. rewrite in_app_iff. simpl. tauto.
      * apply Nat.eqb_neq in E. rewrite (Hc x (t, k)).
        intuition congruence.
    + rewrite !dep_at_set_dep_other by auto.
      change (dep_at (log ?ev st) d) with (dep_at st d).
      destruct (Nat.eqb x e) eqn:E.
      * apply Nat.eqb_eq in E; subst x. rewrite in_app_iff, (Hc e d). simpl.
        intuition congruence.
      * apply Hc.
Qed.

Lemma track_frame t ty k st :
  effectStack (fst (track t ty k st)) = effectStack st /\
  activeEffect (fst (track t ty k st)) = activeEffect st /\
  List.length (effects (fst (track t ty k st))) = List.length (effects st) /\
  shouldTrack (fst (track t ty k st)) = shouldTrack st /\
  trackStack (fst (track t ty k st)) = trackStack st /\
  heap (fst (track t ty k st)) = heap st.
Proof.
  destruct (track_cases t ty k st) as [[-> _]|[e (Hs & Ha & [[Hin ->]|[Hn ->]])]];
    simpl; rewrite ?update_nth_length; auto 10.
Qed.

Lemma track_well_formed t ty k st :
  well_formed st -> well_formed (fst (track t ty k st)).
Proof.
  intros H. split; [apply track_consistent; auto|].
  destruct H as (_ & Hs & Ha).
  destruct (track_frame t ty k st) as (E1 & E2 & E3 & _).
  unfold valid_effect in *. rewrite E1, E2, E3. auto.
Qed.

(** ** What every run preserves

    A relation that holds across each elementary state change of the runtime
    holds across the run of any callback, whether it returns or throws. *)

Section RunRelation.
Variable R : State -> State -> Prop.
Hypothesis R_refl : forall st, R st st.
Hypothesis R_trans : forall a b c, R a b -> R b c -> R a c.
Hypothesis R_heap : forall h st, R st (set_heap h st).
Hypothesis R_track : forall t ty k st, R st (fst (track t ty k st)).
Hypothesis R_create : forall fn o st, R st (snd (createReactiveEffect fn o st)).
Hypothesis R_cleanup : forall e x st,
  get_effect st e = Some x -> active x = true -> R st (cleanup e st).
Hypothesis R_deactivate : forall e st, R st (update_effect e (set_active false) st).
Hypothesis R_setOnStop : forall e h st,
  R st (update_effect e (set_onStop (Some h)) st).
Hypothesis R_tracking : forall b s st, R st (set_tracking b s st).
Hypothesis R_invoke : forall e x st s',
  get_effect st e = Some x -> active x = true ->
  existsb (Nat.eqb e) (effectStack st) = false ->
  R (enter_effect e st) s' -> R st (finally_block s').

Lemma holds_after_trans st s o :
  R st s -> holds_after R s o -> holds_after R st o.
Proof. destruct o; simpl; eauto. Qed.

Lemma holds_after_andThen st o k :
  holds_after R st o ->
  (forall v s, R st s -> holds_after R st (k v s)) ->
  holds_after R st (andThen o k).
Proof. destruct o; simpl; auto. Qed.

Section StepRelation.
Variable rec : prog -> State -> outcome.
Hypothesis Hrec : forall p st, holds_after R st (rec p st).

Lemma call_hook_rel h st : holds_after R st (call_hook rec h st).
Proof. destruct h; simpl; auto. Qed.

Lemma reactiveEffect_rel e st : holds_after R st (reactiveEffect rec e st).
Proof.
  unfold reactiveEffect. destruct (get_effect st e) as [x|] eqn:G; simpl; auto.
  destruct (active x) eqn:A; simpl.
  - destruct (existsb (Nat.eqb e) (effectStack st)) eqn:S; simpl; auto.
    pose proof (Hrec (raw x) (enter_effect e st)) as H.
    destruct (rec (raw x) (enter_effect e st)); simpl in *; eauto.
  - destruct (scheduler (options x)); simpl; auto.
Qed.

Lemma run_rel t ty k nv ov e st : holds_after R st (run rec t ty k nv ov e st).
Proof.
  unfold run. destruct (effect_options st e) as [o|]; simpl; auto.
  apply holds_after_andThen; [apply call_hook_rel|].
  intros _ s Hs. apply holds_after_trans with s; auto.
  destruct (scheduler o); auto. apply reactiveEffect_rel.
Qed.

Lemma forEach_rel f l :
  (forall e st, holds_after R st (f e st)) ->
  forall st, holds_after R st (forEach f l st).
Proof.
  intros Hf. induction l as [|e l IH]; intros st; simpl; auto.
  apply holds_after_andThen; auto.
  intros _ s Hs. apply holds_after_trans with s; auto.
Qed.

Lemma trigger_rel t ty k nv ov st : holds_after R st (trigger rec t ty k nv ov st).
Proof.
  unfold trigger. destruct (trigger_effects st t ty k nv); simpl; auto.
  apply forEach_rel. intros; apply run_rel.
Qed.

Lemma stop_rel e st : holds_after R st (stop rec e st).
Proof.
  unfold stop. destruct (get_effect st e) as [x|] eqn:G; simpl; auto.
  destruct (active x) eqn:A; simpl; auto.
  apply holds_after_andThen.
  - apply holds_after_trans with (cleanup e st); eauto. apply call_hook_rel.
  - intros _ s Hs. simpl. apply R_trans with s; auto.
Qed.

Lemma effect_rel fn o c st : holds_after R st (effect rec fn o c st).
Proof.
  unfold effect.
  destruct (match fn with
            | inl f => Some f
            | inr e' => match get_effect st e' with
                        | Some x => Some (raw x)
                        | None => None
                        end
            end) as [f|]; simpl; auto.
  pose proof (R_create f o st) as Hc. simpl in Hc.
  destruct (lazy o).
  - eapply holds_after_trans; eauto.
  - eapply holds_after_trans; eauto.
    apply holds_after_andThen; [apply reactiveEffect_rel|].
    intros _ s Hs. apply holds_after_trans with s; auto.
Qed.

Lemma step_rel p st : holds_after R st (step rec p st).
Proof.
  destruct p; simpl; auto.
  - apply holds_after_trans with (set_heap h st); auto.
  - apply holds_after_andThen.
    + apply holds_after_trans with (fst (track target type key st)); auto.
      apply call_hook_rel.
    + intros _ s Hs. apply holds_after_trans with s; auto.
  - apply holds_after_andThen; [apply trigger_rel|].
    intros _ s Hs. apply holds_after_trans with s; auto.
  - apply effect_rel.
  - apply holds_after_andThen; [apply reactiveEffect_rel|].
    intros v s Hs. apply holds_after_trans with s; auto.
  - apply holds_after_andThen; [apply stop_rel|].
    intros _ s Hs. apply holds_after_trans with s; auto.
  - eapply holds_after_trans; [apply R_setOnStop|auto].
  - destruct (effect_options st e); simpl; auto.
    apply holds_after_andThen; [apply call_hook_rel|].
    intros _ s Hs. apply holds_after_trans with s; auto.
  - destruct (get_effect st e); simpl; auto.
  - apply holds_after_trans with (pauseTracking st); auto. apply R_tracking.
  - apply holds_after_trans with (enableTracking st); auto. apply R_tracking.
  - apply holds_after_trans with (resetTracking st); auto.
    unfold resetTracking. destruct (trackStack st); apply R_tracking.
  - pose proof (Hrec p st) as H.
    destruct (rec p st) as [v s|x s|]; simpl in *; auto.
    + apply holds_after_trans with s; auto.
    + apply holds_after_andThen.
      * apply holds_after_trans with s; auto.
      * intros v s' Hs'. apply holds_after_trans with s'; auto.
Qed.
End StepRelation.

Lemma exec_rel_sect fuel : forall p st, holds_after R st (exec fuel p st).
Proof.
  induction fuel as [|n IH]; intros p st; simpl; auto.
  apply step_rel; auto.
Qed.
End RunRelation.

Section GuardedInvariant.
Variable R : State -> State -> Prop.
Hypothesis HR : guarded_invariant R.

Lemma exec_guarded fuel p st : holds_after R st (exec fuel p st).
Proof.
  destruct HR as (H1 & H2 & H3 & H4 & H5 & H6 & H7 & H8 & H9 & H10).
  apply exec_rel_sect; auto.
Qed.

Lemma reactiveEffect_exec_guarded n e st :
  holds_after R st (reactiveEffect (exec n) e st).
Proof.
  destruct HR as (H1 & H2 & H3 & H4 & H5 & H6 & H7 & H8 & H9 & H10).
  apply reactiveEffect_rel; auto. intros; apply exec_guarded.
Qed.

Lemma stop_exec_guarded n e st : holds_after R st (stop (exec n) e st).
Proof.
  destruct HR as (H1 & H2 & H3 & H4 & H5 & H6 & H7 & H8 & H9 & H10).
  apply stop_rel; auto. intros; apply exec_guarded.
Qed.

Lemma trigger_exec_guarded n t ty k nv ov st :
  holds_after R st (trigger (exec n) t ty k nv ov st).
Proof.
  destruct HR as (H1 & H2 & H3 & H4 & H5 & H6 & H7 & H8 & H9 & H10).
  apply trigger_rel; auto. intros; apply exec_guarded.
Qed.
End GuardedInvariant.

Lemma run_invariant_guarded R : run_invariant R -> guarded_invariant R.
Proof.
  intros (H1 & H2 & H3 & H4 & H5 & H6 & H7 & H8 & H9).
  unfold guarded_invariant.
  split; [|split; [|split; [|split; [|split; [|split; [|split; [|split; [|split]]]]]]]].
  - exact H1.
  - exact H2.
  - exact H3.
  - exact H4.
  - exact H5.
  - intros e x st _ _. apply H6.
  - intros e st. apply H7. reflexivity.
  - intros e h st. apply H7. reflexivity.
  - exact H8.
  - intros e x st s' G _ _. apply (H9 e x st s' G).
Qed.

Section RunInvariant.
Variable R : State -> State -> Prop.
Hypothesis HR : run_invariant R.

Lemma exec_rel fuel p st : holds_after R st (exec fuel p st).
Proof. apply exec_guarded, run_invariant_guarded, HR. Qed.

Lemma reactiveEffect_exec_rel n e st :
  holds_after R st (reactiveEffect (exec n) e st).
Proof. apply reactiveEffect_exec_guarded, run_invariant_guarded, HR. Qed.

Lemma stop_exec_rel n e st : holds_after R st (stop (exec n) e st).
Proof. apply stop_exec_guarded, run_invariant_guarded, HR. Qed.

Lemma trigger_exec_rel n t ty k nv ov st :
  holds_after R st (trigger (exec n) t ty k nv ov st).
Proof. apply trigger_exec_guarded, run_invariant_guarded, HR. Qed.
End RunInvariant.

(** ** [cleanup] and the frame of the elementary changes *)

Lemma set_targetMap_id st : set_targetMap (targetMap st) st = st.
Proof. destruct st; reflexivity. Qed.

Lemma dep_delete_shape e st d : exists m, dep_delete e st d = set_targetMap m st.
Proof.
  unfold dep_delete. destruct (depsMap_of st (fst d)) as [m|].
  - destruct (Map_get Key_eqb (snd d) m).
    + eexists; reflexivity.
    + exists (targetMap st). symmetry; apply set_targetMap_id.
  - exists (targetMap st). symmetry; apply set_targetMap_id.
Qed.

Lemma fold_dep_delete_shape e ds : forall st,
  exists m, fold_left (dep_delete e) ds st = set_targetMap m st.
Proof.
  induction ds as [|d ds IH]; intros st; simpl.
  - exists (targetMap st). symmetry; apply set_targetMap_id.
  - destruct (dep_delete_shape e st d) as [m ->].
    destruct (IH (set_targetMap m st)) as [m' ->]. exists m'. reflexivity.
Qed.

Lemma cleanup_shape e st :
  exists m l, cleanup e st = set_effects l (set_targetMap m st) /\
              List.length l = List.length (effects st).
Proof.
  unfold cleanup. destruct (get_effect st e) as [x|].
  - destruct (Nat.eqb (List.length (deps x)) 0).
    + exists (targetMap st), (effects st). destruct st; auto.
    + destruct (fold_dep_delete_shape e (deps x) st) as [m ->].
      eexists m, _. split; [reflexivity|]. simpl. apply update_nth_length.
  - exists (targetMap st), (effects st). destruct st; auto.
Qed.

Lemma cleanup_frame e st :
  effectStack (cleanup e st) = effectStack st /\
  activeEffect (cleanup e st) = activeEffect st /\
  shouldTrack (cleanup e st) = shouldTrack st /\
  trackStack (cleanup e st) = trackStack st /\
  heap (cleanup e st) = heap st /\
  trace (cleanup e st) = trace st /\
  List.length (effects (cleanup e st)) = List.length (effects st).
Proof.
  destruct (cleanup_shape e st) as (m & l & -> & Hl). simpl. auto 10.
Qed.

Lemma cleanup_consistent e st : consistent st -> consistent (cleanup e st).
Proof.
  intros Hc x d. rewrite dep_at_cleanup.
  destruct (Nat.eq_dec x e) as [->|Hne].
  - rewrite effect_deps_cleanup_same. simpl. rewrite (Hc e d). tauto.
  - rewrite effect_deps_cleanup_other by auto. rewrite (Hc x d). tauto.
Qed.

Lemma cleanup_well_formed e st : well_formed st -> well_formed (cleanup e st).
Proof.
  intros (Hc & Hs & Ha). split; [apply cleanup_consistent; auto|].
  destruct (cleanup_frame e st) as (E1 & E2 & _ & _ & _ & _ & E3).
  unfold valid_effect. rewrite E1, E2, E3. auto.
Qed.

Lemma effect_deps_update_keep e f st x :
  (forall y, deps (f y) = deps y) ->
  effect_deps (update_effect e f st) x = effect_deps st x.
Proof.
  intros Hf. destruct (Nat.eq_dec x e) as [->|Hne].
  - unfold effect_deps. rewrite get_effect_update_same.
    destruct (get_effect st e); simpl; auto.
  - apply effect_deps_update_other; auto.
Qed.

Lemma update_well_formed e f st :
  (forall y, deps (f y) = deps y) ->
  well_formed st -> well_formed (update_effect e f st).
Proof.
  intros Hf (Hc & Hs & Ha). split; [|split].
  - intros x d. rewrite effect_deps_update_keep by auto. apply Hc.
  - unfold valid_effect; simpl. rewrite update_nth_length. auto.
  - unfold valid_effect; simpl. rewrite update_nth_length. auto.
Qed.

Lemma effect_deps_create fn o st x :
  effect_deps (snd (createReactiveEffect fn o st)) x = effect_deps st x.
Proof.
  unfold effect_deps, get_effect; simpl.
  destruct (Nat.lt_ge_cases x (List.length (effects st))) as [Hlt|Hge].
  - rewrite nth_error_app1; auto.
  - rewrite nth_error_app2 by auto.
    assert (E : nth_error (effects st) x = None) by (apply nth_error_None; auto).
    rewrite E. destruct (x - List.length (effects st)) as [|[|n]]; reflexivity.
Qed.

Lemma create_well_formed fn o st :
  well_formed st -> well_formed (snd (createReactiveEffect fn o st)).
Proof.
  intros (Hc & Hs & Ha). split; [|split].
  - intros x d. rewrite effect_deps_create. apply Hc.
  - unfold valid_effect; simpl. rewrite length_app; simpl.
    eapply Forall_impl; [|apply Hs]. unfold valid_effect. intros; lia.
  - unfold valid_effect; simpl. rewrite length_app; simpl.
    intros e He. specialize (Ha e He). unfold valid_effect in Ha. lia.
Qed.

Lemma enter_effect_well_formed e x st :
  get_effect st e = Some x -> well_formed st -> well_formed (enter_effect e st).
Proof.
  intros G H. pose proof (cleanup_well_formed e H) as (Hc & Hs & Ha).
  assert (Hv : valid_effect (cleanup e st) e).
  { unfold valid_effect.
    destruct (cleanup_frame e st) as (_ & _ & _ & _ & _ & _ & ->).
    apply nth_error_Some. unfold get_effect in G. congruence. }
  split; [|split].
  - exact Hc.
  - simpl. constructor; auto.
  - simpl. intros ? [= <-]. exact Hv.
Qed.

Lemma finally_block_well_formed st :
  well_formed st -> well_formed (finally_block st).
Proof.
  intros (Hc & Hs & Ha).
  assert (Ht : Forall (valid_effect st) (tl (effectStack st))).
  { destruct (effectStack st); simpl; auto. inversion Hs; auto. }
  unfold finally_block, resetTracking; simpl.
  destruct (trackStack st); (split; [exact Hc|split; [exact Ht|]]); simpl;
    intros e He; destruct (tl (effectStack st)); simpl in He; try discriminate;
    inversion He; subst; inversion Ht; auto.
Qed.

(** Every run keeps a well-formed state well-formed. *)
Lemma well_formed_run_invariant :
  run_invariant (fun a b => well_formed a -> well_formed b).
Proof.
  unfold run_invariant.
  split; [|split; [|split; [|split; [|split; [|split; [|split; [|split]]]]]]].
  - auto.
  - auto.
  - intros h st H. exact H.
  - intros t ty k st. apply track_well_formed.
  - intros fn o st. apply create_well_formed.
  - intros e st. apply cleanup_well_formed.
  - intros e f st Hf. apply update_well_formed; auto.
  - intros b s st H. exact H.
  - intros e x st s' G H Hw. apply finally_block_well_formed, H.
    eapply enter_effect_well_formed; eauto.
Qed.

(** ** The effect stack across a run *)

Lemma finally_block_stack st :
  effectStack (finally_block st) = tl (effectStack st) /\
  activeEffect (finally_block st) = hd_error (tl (effectStack st)).
Proof.
  unfold finally_block, resetTracking; simpl.
  destruct (trackStack st); simpl; split; reflexivity.
Qed.

Lemma enter_effect_stack e st :
  effectStack (enter_effect e st) = e :: effectStack st.
Proof.
  unfold enter_effect; simpl.
  destruct (cleanup_frame e st) as (-> & _). reflexivity.
Qed.

(** Every run leaves the effect stack as it found it. *)
Lemma stack_kept_run_invariant : run_invariant stack_kept.
Proof.
  unfold run_invariant, stack_kept, current_is_top.
  split; [|split; [|split; [|split; [|split; [|split; [|split; [|split]]]]]]].
  - auto.
  - intros a b c [E1 H1] [E2 H2]. split; [congruence|auto].
  - intros; simpl; auto.
  - intros t ty k st. destruct (track_frame t ty k st) as (-> & -> & _). auto.
  - intros; simpl; auto.
  - intros e st. destruct (cleanup_frame e st) as (-> & -> & _). auto.
  - intros; simpl; auto.
  - intros; simpl; auto.
  - intros e x st s' _ [E _].
    destruct (finally_block_stack s') as [-> ->].
    rewrite E, enter_effect_stack. simpl. auto.
Qed.

(** ** Where the entries of [deps] come from *)

Lemma deps_from_tracking_refl st : deps_from_tracking st st.
Proof. exists []. simpl. auto. Qed.

Lemma deps_from_tracking_trans a b c :
  deps_from_tracking a b -> deps_from_tracking b c -> deps_from_tracking a c.
Proof.
  intros (n1 & T1 & H1) (n2 & T2 & H2). exists (n2 ++ n1). split.
  - rewrite T2, T1. apply app_assoc.
  - intros x d Hd. destruct (H2 x d Hd) as [H|H].
    + destruct (H1 x d H) as [H'|H']; auto. right. apply in_or_app; auto.
    + right. apply in_or_app; auto.
Qed.

Lemma deps_from_tracking_same st st' new :
  trace st' = new ++ trace st ->
  (forall x, effect_deps st' x = effect_deps st x) ->
  deps_from_tracking st st'.
Proof. intros T H. exists new. split; auto. intros x d. rewrite H. auto. Qed.

Lemma track_deps_from_tracking t ty k st :
  deps_from_tracking st (fst (track t ty k st)).
Proof.
  destruct (track_cases t ty k st) as [[-> _]|[e (Hs & Ha & [[Hin ->]|[Hn ->]])]].
  - apply deps_from_tracking_refl.
  - apply deps_from_tracking_same with [EvTrack e (t, k)]; reflexivity.
  - exists [EvTrack e (t, k)]. split; [reflexivity|].
    intros x d. destruct (Nat.eq_dec x e) as [->|Hne].
    + unfold effect_deps at 1. rewrite get_effect_update_same.
      change (get_effect (set_dep ?a ?b (set_dep ?a' ?b' (log ?ev st))) e)
        with (get_effect st e).
      unfold effect_deps. destruct (get_effect st e); simpl; [|tauto].
      rewrite in_app_iff. simpl. intuition (subst; auto).
    + rewrite effect_deps_update_other by auto. auto.
Qed.

Lemma cleanup_deps_from_tracking e st : deps_from_tracking st (cleanup e st).
Proof.
  exists []. destruct (cleanup_frame e st) as (_ & _ & _ & _ & _ & -> & _).
  split; [reflexivity|]. intros x d.
  destruct (Nat.eq_dec x e) as [->|Hne].
  - rewrite effect_deps_cleanup_same. intros [].
  - rewrite effect_deps_cleanup_other by auto. auto.
Qed.

Lemma enter_effect_deps_from_tracking e st :
  deps_from_tracking st (enter_effect e st).
Proof.
  eapply deps_from_tracking_trans; [apply cleanup_deps_from_tracking|].
  apply deps_from_tracking_same with [EvRun e]; reflexivity.
Qed.

Lemma finally_block_deps_from_tracking st :
  deps_from_tracking st (finally_block st).
Proof.
  apply deps_from_tracking_same with [];
    unfold finally_block, resetTracking; simpl;
    destruct (trackStack st); reflexivity.
Qed.

(** Across every run, an effect lists a dep it did not list before only if
    it tracked that dep during the run. *)
Lemma deps_from_tracking_run_invariant : run_invariant deps_from_tracking.
Proof.
  unfold run_invariant.
  split; [|split; [|split; [|split; [|split; [|split; [|split; [|split]]]]]]].
  - apply deps_from_tracking_refl.
  - apply deps_from_tracking_trans.
  - intros. apply deps_from_tracking_same with []; reflexivity.
  - apply track_deps_from_tracking.
  - intros. apply deps_from_tracking_same with []; [reflexivity|].
    intros x. apply effect_deps_create.
  - apply cleanup_deps_from_tracking.
  - intros e f st Hf. apply deps_from_tracking_same with []; [reflexivity|].
    intros x. apply effect_deps_update_keep; auto.
  - intros. apply deps_from_tracking_same with []; reflexivity.
  - intros e x st s' _ H.
    eapply deps_from_tracking_trans; [apply enter_effect_deps_from_tracking|].
    eapply deps_from_tracking_trans; [apply H|].
    apply finally_block_deps_from_tracking.
Qed.

(** ** The set that [trigger] collects *)

Lemma add_In st d acc e :
  In e (add st d acc) <->
  In e acc \/ exists dep, d = Some dep /\ In e dep /\ eligible st e = true.
Proof.
  unfold add, eligible. destruct d as [dep|].
  - revert acc. induction dep as [|x dep IH]; intros acc; simpl.
    + split; auto. intros [H|(? & [= <-] & [] & _)]; auto.
    + rewrite IH. clear IH.
      assert (Hx : In e (if negb (is_activeEffect st x) || allowRecurse_of st x
                         then Set_add Nat.eqb x acc else acc) <->
                   In e acc \/ (e = x /\
                     negb (is_activeEffect st x) || allowRecurse_of st x = true)).
      { destruct (negb (is_activeEffect st x) || allowRecurse_of st x).
        - rewrite (Set_add_In _ Nat.eqb_eq). tauto.
        - intuition discriminate. }
      rewrite Hx. split.
      * intros [[H|[-> H]]|(dep' & [= <-] & H1 & H2)]; auto.
        -- right. exists (x :: dep). simpl; auto.
        -- right. exists (x :: dep). simpl; auto.
      * intros [H|(dep' & [= <-] & [->|H1] & H2)]; auto.
        right. exists dep; auto.
  - split; auto. intros [H|(? & [=] & _)]; auto.
Qed.

Lemma add_NoDup st d acc : NoDup acc -> NoDup (add st d acc).
Proof.
  unfold add. destruct d as [dep|]; auto.
  revert acc. induction dep as [|x dep IH]; intros acc H; simpl; auto.
  apply IH. destruct (negb (is_activeEffect st x) || allowRecurse_of st x); auto.
  apply Set_add_NoDup; auto. apply Nat.eqb_eq.
Qed.

Lemma collect_all_In st m : forall acc e,
  In e (collect_all st m acc) <->
  In e acc \/ exists k dep, In (k, dep) m /\ In e dep /\ eligible st e = true.
Proof.
  induction m as [|[k dep] m IH]; intros acc e.
  - simpl. split; auto. intros [H|(? & ? & [] & _)]; auto.
  - change (collect_all st ((k, dep) :: m) acc)
      with (collect_all st m (add st (Some dep) acc)).
    rewrite IH, add_In. simpl. split.
    + intros [[H|(dep' & [= <-] & H)]|(k' & dep' & H1 & H2)]; auto.
      * right. exists k, dep. auto.
      * right. exists k', dep'. auto.
    + intros [H|(k' & dep' & [[= <- <-]|H1] & H2)]; auto.
      * left. right. exists dep. auto.
      * right. exists k', dep'. auto.
Qed.

Lemma collect_all_NoDup st m : forall acc, NoDup acc -> NoDup (collect_all st m acc).
Proof.
  induction m as [|[k dep] m IH]; intros acc H; auto.
  change (collect_all st ((k, dep) :: m) acc)
    with (collect_all st m (add st (Some dep) acc)).
  apply IH, add_NoDup; auto.
Qed.

Lemma collect_length_In st nv m : forall acc l e,
  collect_length st nv m acc = Some l ->
  (In e l <->
   In e acc \/ exists k dep, In (k, dep) m /\ length_selects k nv /\
                             In e dep /\ eligible st e = true).
Proof.
  unfold length_selects.
  induction m as [|[k dep] m IH]; intros acc l e; cbn [collect_length].
  - intros [= <-]. split; auto. intros [H|(? & ? & [] & _)]; auto.
  - destruct (Key_eqb k (KStr "length")) eqn:Ek.
    + apply Key_eqb_eq in Ek. intros H. rewrite (IH _ _ e H), add_In. split.
      * intros [[H1|(dep' & [= <-] & H1)]|(k' & dep' & H1 & H2)]; auto.
        -- right. exists k, dep. simpl; tauto.
        -- right. exists k', dep'. simpl; tauto.
      * intros [H1|(k' & dep' & [[= <- <-]|H1] & H2)]; auto.
        -- left. right. exists dep. tauto.
        -- right. exists k', dep'. simpl; tauto.
    + assert (Hk : k <> KStr "length").
      { intros ->. simpl in Ek. discriminate. }
      destruct (key_ge k nv) eqn:Eg; [| |discriminate]; intros H;
        rewrite (IH _ _ e H).
      * rewrite add_In. split.
        -- intros [[H1|(dep' & [= <-] & H1)]|(k' & dep' & H1 & H2)]; auto.
           ++ right. exists k, dep. simpl; tauto.
           ++ right. exists k', dep'. simpl; tauto.
        -- intros [H1|(k' & dep' & [[= <- <-]|H1] & H2)]; auto.
           ++ left. right. exists dep. tauto.
           ++ right. exists k', dep'. simpl; tauto.
      * split.
        -- intros [H1|(k' & dep' & H1 & H2)]; auto.
           right. exists k', dep'. simpl; tauto.
        -- intros [H1|(k' & dep' & [[= <- <-]|H1] & H2)]; auto.
           ++ destruct H2 as [[H2|H2] _]; congruence.
           ++ right. exists k', dep'. simpl; tauto.
Qed.

Lemma collect_length_NoDup st nv m : forall acc l,
  collect_length st nv m acc = Some l -> NoDup acc -> NoDup l.
Proof.
  induction m as [|[k dep] m IH]; intros acc l; cbn [collect_length].
  - intros [= <-]; auto.
  - destruct (Key_eqb k (KStr "length")).
    + intros H Hn. eapply IH; eauto. apply add_NoDup; auto.
    + destruct (key_ge k nv); [| |discriminate]; intros H Hn.
      * eapply IH; eauto. apply add_NoDup; auto.
      * eapply IH; eauto.
Qed.

(** Without a symbol among the keys the comparison does not throw. *)
Lemma collect_length_total st nv m : forall acc,
  (forall k dep, In (k, dep) m -> isSymbol k = false) ->
  exists l, collect_length st nv m acc = Some l.
Proof.
  induction m as [|[k dep] m IH]; intros acc Hs; cbn [collect_length]; eauto.
  assert (Hm : forall k' dep', In (k', dep') m -> isSymbol k' = false).
  { intros k' dep' H. apply (Hs k' dep'). simpl; auto. }
  destruct (Key_eqb k (KStr "length")); auto.
  destruct k as [s|n].
  - simpl. destruct nv; simpl; auto;
      match goal with |- context [cmp_of_bool ?b] => destruct b end; simpl; auto.
  - specialize (Hs (KSym n) dep (or_introl eq_refl)). discriminate.
Qed.

Lemma add_mono st d acc e : In e acc -> In e (add st d acc).
Proof. intros H. apply add_In. auto. Qed.

Lemma add_eligible st d acc e :
  In e (add st d acc) -> In e acc \/ eligible st e = true.
Proof. rewrite add_In. intros [H|(dep & _ & _ & H)]; auto. Qed.

Ltac split_collect_key :=
  unfold collect_key;
  repeat match goal with
         | |- context [match ?ty with SET => _ | ADD => _ | DELETE => _ | CLEAR => _ end] =>
             destruct ty
         | |- context [if ?b then _ else _] => destruct b
         | |- context [match ?k with Some _ => _ | None => _ end] => destruct k
         end.

Lemma collect_key_eligible st t ty key m e :
  In e (collect_key st t ty key m) -> eligible st e = true.
Proof.
  split_collect_key; intros H;
    repeat (apply add_eligible in H; destruct H as [H|H]; auto);
    try destruct H.
Qed.

Lemma collect_key_NoDup st t ty key m : NoDup (collect_key st t ty key m).
Proof. split_collect_key; repeat apply add_NoDup; constructor. Qed.

Lemma collect_key_includes st t ty k m dep e :
  Map_get Key_eqb k m = Some dep -> In e dep -> eligible st e = true ->
  In e (collect_key st t ty (Some k) m).
Proof.
  intros Hm Hin He.
  assert (H0 : In e (add st (Map_get Key_eqb k m) [])).
  { apply add_In. right. exists dep. auto. }
  unfold collect_key.
  repeat match goal with
         | |- context [match ?ty with SET => _ | ADD => _ | DELETE => _ | CLEAR => _ end] =>
             destruct ty
         | |- context [if ?b then _ else _] => destruct b
         end; repeat (first [exact H0 | apply add_mono]).
Qed.

(** A SET on a target that is not a map selects the dep of the key and
    nothing else. *)
Lemma collect_key_SET st t k m e :
  isMap t = false ->
  (In e (collect_key st t SET (Some k) m) <->
   exists dep, Map_get Key_eqb k m = Some dep /\ In e dep /\ eligible st e = true).
Proof.
  intros Hm. unfold collect_key. rewrite Hm, add_In. split.
  - intros [[]|(dep & H & H')]. exists dep. auto.
  - intros (dep & H & H'). right. exists dep. auto.
Qed.

Lemma trigger_effects_cases st t ty key nv m :
  depsMap_of st t = Some m ->
  (ty = CLEAR /\ trigger_effects st t ty key nv = Selected (collect_all st m [])) \/
  (ty <> CLEAR /\ is_length key && isArray t = true /\
   trigger_effects st t ty key nv =
     match collect_length st nv m [] with
     | Some l => Selected l
     | None => ComparisonThrows
     end) \/
  (ty <> CLEAR /\ is_length key && isArray t = false /\
   trigger_effects st t ty key nv = Selected (collect_key st t ty key m)).
Proof.
  intros Hm. unfold trigger_effects. rewrite Hm.
  destruct ty; [| | |left; auto];
    (destruct (is_length key && isArray t);
     [right; left|right; right]; repeat split; auto; discriminate).
Qed.

Lemma trigger_effects_eligible st t ty key nv l e :
  trigger_effects st t ty key nv = Selected l -> In e l -> eligible st e = true.
Proof.
  destruct (depsMap_of st t) as [m|] eqn:Hm;
    [|unfold trigger_effects; rewrite Hm; discriminate].
  destruct (trigger_effects_cases st t ty key nv Hm)
    as [[_ ->]|[(_ & _ & ->)|(_ & _ & ->)]].
  - intros [= <-]. rewrite collect_all_In.
    intros [[]|(k & dep & _ & _ & H)]; auto.
  - destruct (collect_length st nv m []) eqn:E; [|discriminate].
    intros [= <-]. rewrite (collect_length_In _ _ _ _ e E).
    intros [[]|(k & dep & _ & _ & _ & H')]; auto.
  - intros [= <-]. apply collect_key_eligible.
Qed.

Lemma trigger_effects_NoDup st t ty key nv l :
  trigger_effects st t ty key nv = Selected l -> NoDup l.
Proof.
  destruct (depsMap_of st t) as [m|] eqn:Hm;
    [|unfold trigger_effects; rewrite Hm; discriminate].
  destruct (trigger_effects_cases st t ty key nv Hm)
    as [[_ ->]|[(_ & _ & ->)|(_ & _ & ->)]].
  - intros [= <-]. apply collect_all_NoDup; constructor.
  - destruct (collect_length st nv m []) eqn:E; [|discriminate].
    intros [= <-]. eapply collect_length_NoDup; eauto; constructor.
  - intros [= <-]. apply collect_key_NoDup.
Qed.

Lemma dep_at_In st t k e :
  In e (dep_at st (t, k)) <->
  exists m dep, depsMap_of st t = Some m /\ Map_get Key_eqb k m = Some dep /\
                In e dep.
Proof.
  unfold dep_at; simpl. destruct (depsMap_of st t) as [m|].
  - destruct (Map_get Key_eqb k m) as [dep|] eqn:E.
    + split.
      * intros H. exists m, dep. repeat split; auto.
      * intros (m' & dep' & E1 & E2 & Hin). congruence.
    + split; [intros []|].
      intros (m' & dep' & E1 & E2 & _). congruence.
  - split; [intros []|].
    intros (m' & dep' & E1 & _). congruence.
Qed.

Lemma trigger_effects_key st t ty k nv m :
  depsMap_of st t = Some m -> ty <> CLEAR ->
  is_length (Some k) && isArray t = false ->
  trigger_effects st t ty (Some k) nv = Selected (collect_key st t ty (Some k) m).
Proof.
  intros Hm Hty Hl. unfold trigger_effects. rewrite Hm, Hl.
  destruct ty; auto. contradiction.
Qed.

(** ** Properties of [trigger] *)

(** C10: the set [l] that one call of [trigger] builds holds every effect at
    most once, whatever selection rules include it, and the call runs [run]
    over [l] once it is complete; an eligible effect of the dep of the written
    key is in it exactly once, whichever other selected deps hold it too. *)
Theorem C10_each_effect_at_most_once st target type key newValue l :
  trigger_effects st target type key newValue = Selected l ->
  NoDup l /\
  (forall e, count_occ Nat.eq_dec l e <= 1) /\
  (forall e, In e l -> count_occ Nat.eq_dec l e = 1) /\
  (forall rec oldValue,
     trigger rec target type key newValue oldValue st =
     forEach (run rec target type key newValue oldValue) l st) /\
  (forall k e,
     key = Some k -> type <> CLEAR -> is_length key && isArray target = false ->
     In e (dep_at st (target, k)) -> eligible st e = true ->
     count_occ Nat.eq_dec l e = 1).
Proof.
  intros Hsel. pose proof (trigger_effects_NoDup _ _ _ _ _ Hsel) as Hn.
  split; [exact Hn|split; [|split; [|split]]].
  - apply NoDup_count_occ; auto.
  - apply NoDup_count_occ'; auto.
  - intros rec ov. unfold trigger. rewrite Hsel. reflexivity.
  - intros k e -> Hty Hlen Hin He.
    apply NoDup_count_occ'; auto.
    apply dep_at_In in Hin. destruct Hin as (m & dep & Hm & Hk & Hin).
    rewrite (trigger_effects_key st target k newValue Hm Hty Hlen) in Hsel.
    injection Hsel as <-. eapply collect_key_includes; eauto.
Qed.

(** ** The invocation of an effect *)

Lemma holds_after_ends_in R st o st' :
  holds_after R st o -> ends_in o st' -> R st st'.
Proof. destruct o; simpl; intros H E; subst; auto; contradiction. Qed.
Arguments holds_after_ends_in : clear implicits.

Lemma reactiveEffect_runs st e x rec :
  get_effect st e = Some x -> active x = true ->
  existsb (Nat.eqb e) (effectStack st) = false ->
  reactiveEffect rec e st = run_finally (rec (raw x) (enter_effect e st)).
Proof.
  intros G A S. unfold reactiveEffect. rewrite G, A, S. reflexivity.
Qed.

Lemma finally_block_tracking st :
  trackStack (finally_block st) = tl (trackStack st) /\
  shouldTrack (finally_block st) = hd true (trackStack st).
Proof.
  unfold finally_block, resetTracking; simpl.
  destruct (trackStack st); simpl; split; reflexivity.
Qed.

Lemma stacks_released_after st e s1 :
  effectStack s1 = e :: effectStack st -> stacks_released st e s1.
Proof.
  intros Hs. unfold stacks_released.
  destruct (finally_block_stack s1) as [-> ->].
  destruct (finally_block_tracking s1) as [-> ->].
  rewrite Hs. simpl. repeat split; auto.
  - unfold enter_effect in H. simpl in H.
    destruct (cleanup_frame e st) as (_ & _ & E1 & E2 & _).
    rewrite H. simpl. congruence.
  - unfold enter_effect in H. simpl in H.
    destruct (cleanup_frame e st) as (_ & _ & E1 & E2 & _).
    rewrite H. simpl. congruence.
Qed.

(** C9 (amended): an invocation that runs [fn] ends as [fn] ends, by a
    return or by an exception, and in both cases after the [finally] block:
    the effect is
    off the effect stack, which is as before the call, one entry is popped
    from the tracking-state stack into [shouldTrack] (the entry and the flag
    of before the call when [fn] left that stack as it found it), and the
    current effect is the top of the stack, or undefined when it is empty.
    So the current effect is the top of the stack after every run, and
    undefined when no effect runs. *)
Theorem C9_invocation_releases_stacks st e x n :
  get_effect st e = Some x -> active x = true ->
  existsb (Nat.eqb e) (effectStack st) = false ->
  (forall v s1, exec n (raw x) (enter_effect e st) = Normal v s1 ->
     reactiveEffect (exec n) e st = Normal v (finally_block s1) /\
     stacks_released st e s1) /\
  (forall v s1, exec n (raw x) (enter_effect e st) = Thrown v s1 ->
     reactiveEffect (exec n) e st = Thrown v (finally_block s1) /\
     stacks_released st e s1) /\
  (forall p st', current_is_top st -> ends_in (exec n p st) st' ->
     effectStack st' = effectStack st /\ current_is_top st') /\
  (forall p st', ends_in (exec n p initial_state) st' ->
     effectStack st' = [] /\ activeEffect st' = None).
Proof.
  intros G A S.
  assert (Hfn : forall s1, ends_in (exec n (raw x) (enter_effect e st)) s1 ->
                           stacks_released st e s1).
  { intros s1 E. apply stacks_released_after.
    pose proof (exec_rel stack_kept_run_invariant n (raw x) (enter_effect e st)) as H.
    destruct (holds_after_ends_in _ _ _ _ H E) as [-> _].
    apply enter_effect_stack. }
  split; [|split; [|split]].
  - intros v s1 E. rewrite (reactiveEffect_runs st e (exec n) G A S), E.
    split; [reflexivity|]. apply Hfn. rewrite E. reflexivity.
  - intros v s1 E. rewrite (reactiveEffect_runs st e (exec n) G A S), E.
    split; [reflexivity|]. apply Hfn. rewrite E. reflexivity.
  - intros p st' Ht E.
    pose proof (exec_rel stack_kept_run_invariant n p st) as H.
    destruct (holds_after_ends_in _ _ _ _ H E) as [E1 E2]. auto.
  - intros p st' E.
    pose proof (exec_rel stack_kept_run_invariant n p initial_state) as H.
    destruct (holds_after_ends_in _ _ _ _ H E) as [E1 E2].
    split; [exact E1|]. rewrite (E2 eq_refl), E1. reflexivity.
Qed.

Lemma enter_effect_clean st e :
  consistent st ->
  effect_deps (enter_effect e st) e = [] /\
  forall d, ~ In e (dep_at (enter_effect e st) d).
Proof.
  intros Hc.
  change (effect_deps (enter_effect e st) e) with (effect_deps (cleanup e st) e).
  split; [apply effect_deps_cleanup_same|].
  intros d. change (dep_at (enter_effect e st) d) with (dep_at (cleanup e st) d).
  rewrite dep_at_cleanup, (Hc e d). tauto.
Qed.

Lemma finally_block_registry st :
  (forall d, dep_at (finally_block st) d = dep_at st d) /\
  (forall x, effect_deps (finally_block st) x = effect_deps st x) /\
  trace (finally_block st) = trace st.
Proof.
  unfold finally_block, resetTracking; simpl.
  destruct (trackStack st); repeat split; reflexivity.
Qed.

Lemma ends_in_run_finally o st' :
  ends_in (run_finally o) st' -> exists s1, ends_in o s1 /\ st' = finally_block s1.
Proof. destruct o; simpl; intros H; subst; eauto; contradiction. Qed.

(** C4: an active effect that is not on the stack is, when [fn] begins, in
    no dep, and its [deps] list is empty; when the invocation has ended, its
    [deps] list and the deps that hold it are among the (target, key) pairs
    it tracked during this run, so a SET of a key it did not track in this
    run does not select it. *)
Theorem C4_cleanup_then_retrack st e x n :
  well_formed st ->
  get_effect st e = Some x -> active x = true ->
  existsb (Nat.eqb e) (effectStack st) = false ->
  (effect_deps (enter_effect e st) e = [] /\
   forall d, ~ In e (dep_at (enter_effect e st) d)) /\
  reactiveEffect (exec n) e st = run_finally (exec n (raw x) (enter_effect e st)) /\
  forall st', ends_in (reactiveEffect (exec n) e st) st' ->
    exists new, trace st' = new ++ EvRun e :: trace st /\
      (forall d, In d (effect_deps st' e) -> In (EvTrack e d) new) /\
      (forall d, In e (dep_at st' d) -> In (EvTrack e d) new) /\
      (forall t k nv l,
         ~ In (EvTrack e (t, k)) new ->
         isMap t = false -> is_length (Some k) && isArray t = false ->
         trigger_effects st' t SET (Some k) nv = Selected l -> ~ In e l).
Proof.
  intros Hw G A S. pose proof Hw as (Hc & _).
  pose proof (enter_effect_clean e Hc) as [Hd0 Hin0].
  split; [split; assumption|].
  split; [apply reactiveEffect_runs; auto|].
  intros st' E. rewrite (reactiveEffect_runs st e (exec n) G A S) in E.
  apply ends_in_run_finally in E. destruct E as (s1 & E & ->).
  pose proof (holds_after_ends_in _ _ _ _
                (exec_rel deps_from_tracking_run_invariant n (raw x) _) E)
    as (new & Ht & Hdeps).
  pose proof (holds_after_ends_in _ _ _ _
                (exec_rel well_formed_run_invariant n (raw x) _) E
                (enter_effect_well_formed _ G Hw)) as (Hc1 & _).
  destruct (finally_block_registry s1) as (Fd & Fe & Ft).
  assert (Hlist : forall d, In d (effect_deps s1 e) -> In (EvTrack e d) new).
  { intros d Hd. destruct (Hdeps e d Hd) as [H|H]; auto.
    rewrite Hd0 in H. destruct H. }
  assert (Htr : trace (enter_effect e st) = EvRun e :: trace st).
  { unfold enter_effect; simpl.
    destruct (cleanup_frame e st) as (_ & _ & _ & _ & _ & -> & _). reflexivity. }
  exists new. split; [rewrite Ft, Ht, Htr; reflexivity|].
  split; [intros d; rewrite Fe; apply Hlist|].
  split; [intros d; rewrite Fd, (Hc1 e d); apply Hlist|].
  intros t k nv l Hnot Hmap Hlen Hsel Hin.
  apply Hnot, Hlist, Hc1. rewrite <- Fd. apply dep_at_In.
  destruct (depsMap_of (finally_block s1) t) as [m|] eqn:Hm;
    [|unfold trigger_effects in Hsel; rewrite Hm in Hsel; discriminate].
  rewrite (trigger_effects_key _ _ _ nv Hm) in Hsel by (auto; discriminate).
  injection Hsel as <-. apply (collect_key_SET _ _ _ _ e Hmap) in Hin.
  destruct Hin as (dep & Hk & Hin & _). exists m, dep. auto.
Qed.

(** ** The registry and [stop] *)

Lemma effects_kept_run_invariant : run_invariant effects_kept.
Proof.
  unfold run_invariant, effects_kept.
  split; [|split; [|split; [|split; [|split; [|split; [|split; [|split]]]]]]].
  - auto.
  - intros; lia.
  - auto.
  - intros t ty k st. destruct (track_frame t ty k st) as (_ & _ & -> & _). auto.
  - intros. simpl. rewrite length_app. lia.
  - intros e st. destruct (cleanup_frame e st) as (_ & _ & _ & _ & _ & _ & ->). auto.
  - intros. simpl. rewrite update_nth_length. auto.
  - auto.
  - intros e x st s' _ H.
    unfold enter_effect in H; simpl in H.
    destruct (cleanup_frame e st) as (_ & _ & _ & _ & _ & _ & E).
    rewrite E in H.
    unfold finally_block, resetTracking; simpl.
    destruct (trackStack s'); exact H.
Qed.

Lemma stop_unfold rec e x st :
  get_effect st e = Some x -> active x = true ->
  stop rec e st =
  andThen (call_hook rec (onStop (options x)) (cleanup e st))
    (fun _ st' => Normal VUndefined (update_effect e (set_active false) st')).
Proof. intros G A. unfold stop. rewrite G, A. reflexivity. Qed.

Lemma stop_ends n e x st st' :
  get_effect st e = Some x -> active x = true ->
  ends_in (stop (exec n) e st) st' ->
  exists s2, ends_in (call_hook (exec n) (onStop (options x)) (cleanup e st)) s2 /\
             (st' = s2 \/ st' = update_effect e (set_active false) s2).
Proof.
  intros G A. rewrite (@stop_unfold (exec n) e x st G A).
  destruct (call_hook (exec n) (onStop (options x)) (cleanup e st)) as [v s|v s|];
    simpl; intros E; subst; eauto.
Qed.

Lemma call_hook_exec_rel R n h st :
  run_invariant R -> holds_after R st (call_hook (exec n) h st).
Proof.
  intros HR. destruct h; simpl; [apply exec_rel; auto|].
  destruct HR as (H & _). apply H.
Qed.

(** After [stop(e)], an effect that tracked nothing while its [onStop] hook
    ran is in no dep and lists none. *)
Lemma stop_unsubscribes n e x st st' :
  well_formed st -> get_effect st e = Some x -> active x = true ->
  ends_in (stop (exec n) e st) st' ->
  exists new, trace st' = new ++ trace st /\
    ((forall d, ~ In (EvTrack e d) new) ->
     (forall d, ~ In e (dep_at st' d)) /\ effect_deps st' e = []).
Proof.
  intros Hw G A E. destruct (@stop_ends n e x st st' G A E) as (s2 & E2 & Hst').
  pose proof (holds_after_ends_in _ _ _ _
    (@call_hook_exec_rel deps_from_tracking n (onStop (options x)) (cleanup e st)
       deps_from_tracking_run_invariant) E2) as (new & Ht & Hd).
  pose proof (holds_after_ends_in _ _ _ _
    (@call_hook_exec_rel _ n (onStop (options x)) (cleanup e st)
       well_formed_run_invariant) E2 (@cleanup_well_formed e st Hw)) as (Hc & _).
  destruct (cleanup_frame e st) as (_ & _ & _ & _ & _ & Etr & _).
  assert (Hs2 : (forall d, ~ In (EvTrack e d) new) ->
                (forall d, ~ In e (dep_at s2 d)) /\ effect_deps s2 e = []).
  { intros Hno.
    assert (Hnil : forall d, ~ In d (effect_deps s2 e)).
    { intros d Hin. destruct (Hd e d Hin) as [H|H].
      - rewrite effect_deps_cleanup_same in H. destruct H.
      - exact (Hno d H). }
    split.
    - intros d Hin. apply (Hnil d), Hc, Hin.
    - destruct (effect_deps s2 e) as [|d l]; auto.
      exfalso. apply (Hnil d). simpl; auto. }
  exists new. destruct Hst' as [->| ->].
  - split; [congruence|exact Hs2].
  - split; [simpl; congruence|].
    intros Hno. destruct (Hs2 Hno) as [H1 H2]. split.
    + exact H1.
    + rewrite effect_deps_update_keep by reflexivity. exact H2.
Qed.

Lemma stop_idempotent n e v st st' :
  stop (exec n) e st = Normal v st' -> stop (exec n) e st' = Normal VUndefined st'.
Proof.
  intros H. unfold stop in H. destruct (get_effect st e) as [x|] eqn:G;
    [|discriminate].
  destruct (active x) eqn:A.
  - destruct (call_hook (exec n) (onStop (options x)) (cleanup e st))
      as [v' s2|v' s2|] eqn:Eh; simpl in H; try discriminate.
    injection H as <- <-.
    assert (Hlen : List.length (effects st) <= List.length (effects s2)).
    { destruct (cleanup_frame e st) as (_ & _ & _ & _ & _ & _ & <-).
      apply (holds_after_ends_in effects_kept (cleanup e st)
               (call_hook (exec n) (onStop (options x)) (cleanup e st))).
      - apply call_hook_exec_rel, effects_kept_run_invariant.
      - rewrite Eh. reflexivity. }
    destruct (get_effect s2 e) as [y|] eqn:G2.
    + unfold stop. rewrite get_effect_update_same, G2. reflexivity.
    + unfold get_effect in G, G2. apply nth_error_None in G2.
      assert (e < List.length (effects st)) by (apply nth_error_Some; congruence).
      lia.
  - injection H as <- <-. unfold stop. rewrite G, A. reflexivity.
Qed.

(** C2 (amended): on a well-formed state, [track], the run of any callback,
    the invocation of an effect and [stop] all leave the registry and the
    [deps] lists in agreement: a dep holds an effect exactly when the effect
    lists the dep.  After [stop(e)] of an active effect that tracked nothing
    while its [onStop] hook ran (always so without a hook) no dep holds [e]
    and [e.deps] is empty; a second [stop(e)] changes nothing. *)
Theorem C2_registry_agrees_with_deps st :
  well_formed st ->
  (forall t ty k, consistent (fst (track t ty k st))) /\
  (forall n p st', ends_in (exec n p st) st' -> consistent st') /\
  (forall n e st', ends_in (reactiveEffect (exec n) e st) st' -> consistent st') /\
  (forall n e st', ends_in (stop (exec n) e st) st' -> consistent st') /\
  (forall n e x st',
     get_effect st e = Some x -> active x = true ->
     ends_in (stop (exec n) e st) st' ->
     exists new, trace st' = new ++ trace st /\
       ((forall d, ~ In (EvTrack e d) new) ->
        (forall d, ~ In e (dep_at st' d)) /\ effect_deps st' e = [])) /\
  (forall n e x,
     get_effect st e = Some x -> active x = true -> onStop (options x) = None ->
     exists st', stop (exec n) e st = Normal VUndefined st' /\
       trace st' = trace st /\
       (forall d, ~ In e (dep_at st' d)) /\ effect_deps st' e = []) /\
  (forall n e v st',
     stop (exec n) e st = Normal v st' ->
     stop (exec n) e st' = Normal VUndefined st').
Proof.
  intros Hw. split; [|split; [|split; [|split; [|split; [|split]]]]].
  - intros t ty k. apply track_consistent; auto.
  - intros n p st' E.
    apply (holds_after_ends_in _ _ _ _ (exec_rel well_formed_run_invariant n p st) E Hw).
  - intros n e st' E.
    apply (holds_after_ends_in _ _ _ _
             (reactiveEffect_exec_rel well_formed_run_invariant n e st) E Hw).
  - intros n e st' E.
    apply (holds_after_ends_in _ _ _ _
             (stop_exec_rel well_formed_run_invariant n e st) E Hw).
  - intros n e x st' G A E. eapply stop_unsubscribes; eauto.
  - intros n e x G A Hno.
    exists (update_effect e (set_active false) (cleanup e st)).
    assert (Es : stop (exec n) e st =
                 Normal VUndefined (update_effect e (set_active false) (cleanup e st))).
    { rewrite (@stop_unfold (exec n) e x st G A), Hno. reflexivity. }
    split; [exact Es|].
    destruct (@stop_unsubscribes n e x st
                (update_effect e (set_active false) (cleanup e st)) Hw G A)
      as (new & Ht & Hd).
    { rewrite Es. reflexivity. }
    assert (Etr : trace (update_effect e (set_active false) (cleanup e st)) = trace st).
    { simpl. destruct (cleanup_frame e st) as (_ & _ & _ & _ & _ & -> & _). reflexivity. }
    split; [exact Etr|].
    apply Hd. rewrite Etr in Ht.
    assert (new = []).
    { destruct new; auto. exfalso.
      assert (L : List.length (trace st) = List.length ((e0 :: new) ++ trace st))
        by (rewrite <- Ht; reflexivity).
      simpl in L. rewrite length_app in L. lia. }
    subst new. intros d [].
  - intros n e v st'. apply stop_idempotent.
Qed.

(** ** The length of an array *)

Lemma read_digits_all s : all_digits s = true ->
  forall acc cnt, exists v,
    read_digits s acc cnt = (v, cnt + String.length s, EmptyString).
Proof.
  induction s as [|c s IH]; cbn [read_digits all_digits String.length];
    intros H acc cnt.
  - exists acc. rewrite Nat.add_0_r. reflexivity.
  - apply andb_true_iff in H. destruct H as [Hc Hs].
    unfold is_digit in Hc. destruct (digit_of_ascii c) as [d|]; [|discriminate].
    destruct (IH Hs (10 * acc + d)%Z (S cnt)) as [v Hv].
    exists v. rewrite Hv. rewrite Nat.add_succ_r. reflexivity.
Qed.

Lemma round_to_double_zero : round_to_double 0 1 = JFin 0 (-1074).
Proof. vm_compute. reflexivity. Qed.

Lemma round_to_double_small v :
  (0 < v)%Z -> (v < 2 ^ 53)%Z ->
  round_to_double v 1 = JFin (v * 2 ^ (52 - Z.log2 v)) (Z.log2 v - 52).
Proof.
  intros Hv Hb. unfold round_to_double. cbv zeta.
  assert (Hl : (0 <= Z.log2 v)%Z) by apply Z.log2_nonneg.
  assert (Hl' : (Z.log2 v < 53)%Z) by (apply Z.log2_lt_pow2; auto).
  rewrite Z.div_1_r, Z.mul_1_l.
  rewrite Z.log2_mul_pow2 by lia.
  rewrite Z.max_l by lia.
  replace (1127 + Z.log2 v - 52)%Z with (Z.log2 v + 1075)%Z by lia.
  assert (E : (v * 2 ^ 1127 = v * 2 ^ (52 - Z.log2 v) * 2 ^ (Z.log2 v + 1075))%Z).
  { rewrite <- Z.mul_assoc, <- Z.pow_add_r by lia. f_equal. f_equal. lia. }
  assert (Hp : (0 < 2 ^ (Z.log2 v + 1075))%Z) by (apply Z.pow_pos_nonneg; lia).
  rewrite E.
  rewrite Z.div_mul by lia. rewrite Z.mod_mul by lia.
  assert (H0 : (2 * 0 <? 2 ^ (Z.log2 v + 1075))%Z = true) by (apply Z.ltb_lt; lia).
  rewrite H0.
  assert (Hov : (2 ^ 2151 <=? v * 2 ^ (52 - Z.log2 v) * 2 ^ (Z.log2 v + 1075))%Z = false).
  { apply Z.leb_gt. rewrite <- E.
    apply Z.lt_trans with (2 ^ 53 * 2 ^ 1127)%Z.
    - apply Z.mul_lt_mono_pos_r; [apply Z.pow_pos_nonneg; lia|auto].
    - rewrite <- Z.pow_add_r by lia. apply Z.pow_lt_mono_r; lia. }
  rewrite Hov.
  assert (Hn : (v * 2 ^ (52 - Z.log2 v) =? 2 ^ 53)%Z = false).
  { apply Z.eqb_neq. intros Heq.
    destruct (Z.log2_spec v Hv) as [_ Hhi].
    assert (Hs : (v * 2 ^ (52 - Z.log2 v) < 2 ^ Z.succ (Z.log2 v) * 2 ^ (52 - Z.log2 v))%Z)
      by (apply Z.mul_lt_mono_pos_r; [apply Z.pow_pos_nonneg; lia|exact Hhi]).
    rewrite <- Z.pow_add_r in Hs by lia.
    replace (Z.succ (Z.log2 v) + (52 - Z.log2 v))%Z with 53%Z in Hs by lia.
    lia. }
  rewrite Hn. f_equal. lia.
Qed.

Lemma round_to_double_large v n :
  (2 ^ 53 <= v)%Z -> (n <= 2 ^ 53)%Z ->
  jsnum_ge_Z (round_to_double v 1) n = true.
Proof.
  intros Hv Hn. unfold round_to_double. cbv zeta.
  assert (Hpos : (0 < v)%Z) by (assert (0 < 2 ^ 53)%Z by (apply Z.pow_pos_nonneg; lia); lia).
  assert (Hl : (53 <= Z.log2 v)%Z) by (apply Z.log2_le_pow2; auto).
  rewrite Z.div_1_r, Z.mul_1_l.
  rewrite Z.log2_mul_pow2 by lia.
  rewrite Z.max_l by lia.
  replace (1127 + Z.log2 v - 52)%Z with (Z.log2 v + 1075)%Z by lia.
  set (k := (Z.log2 v + 1075)%Z).
  assert (Hp : (0 < 2 ^ k)%Z) by (apply Z.pow_pos_nonneg; unfold k; lia).
  set (m := (v * 2 ^ 1127 / 2 ^ k)%Z).
  set (r := ((v * 2 ^ 1127) mod 2 ^ k)%Z).
  assert (Hm : (2 ^ 52 <= m)%Z).
  { unfold m. apply Z.div_le_lower_bound; [exact Hp|].
    destruct (Z.log2_spec v Hpos) as [Hlo _].
    apply Z.le_trans with (2 ^ Z.log2 v * 2 ^ 1127)%Z.
    - unfold k. rewrite <- !Z.pow_add_r by lia.
      apply Z.pow_le_mono_r; lia.
    - apply Z.mul_le_mono_nonneg_r; [apply Z.pow_nonneg; lia|exact Hlo]. }
  set (m' := if (2 * r <? 2 ^ k)%Z then m
             else if (2 ^ k <? 2 * r)%Z then (m + 1)%Z
                  else if Z.even m then m else (m + 1)%Z).
  assert (Hm' : (2 ^ 52 <= m')%Z).
  { unfold m'. destruct (2 * r <? 2 ^ k)%Z; [exact Hm|].
    destruct (2 ^ k <? 2 * r)%Z; [lia|]. destruct (Z.even m); lia. }
  destruct (2 ^ 2151 <=? m' * 2 ^ k)%Z; [reflexivity|].
  assert (Hk : (2 ^ 1 <= 2 ^ (k - 1127))%Z)
    by (apply Z.pow_le_mono_r; unfold k; lia).
  assert (Hk' : (2 ^ 1 <= 2 ^ (k - 1126))%Z)
    by (apply Z.pow_le_mono_r; unfold k; lia).
  destruct (m' =? 2 ^ 53)%Z; cbn [jsnum_ge_Z].
  { assert (He : (0 <=? k - 1126)%Z = true) by (apply Z.leb_le; unfold k; lia).
    rewrite He. apply Z.leb_le.
    apply Z.le_trans with (2 ^ 53)%Z; [exact Hn|].
    replace (2 ^ 53)%Z with (2 ^ 52 * 2 ^ 1)%Z by reflexivity.
    apply Z.mul_le_mono_nonneg; lia. }
  assert (He : (0 <=? k - 1127)%Z = true) by (apply Z.leb_le; unfold k; lia).
  rewrite He. apply Z.leb_le.
  apply Z.le_trans with (2 ^ 53)%Z; [exact Hn|].
  replace (2 ^ 53)%Z with (2 ^ 52 * 2 ^ 1)%Z by reflexivity.
  apply Z.mul_le_mono_nonneg; lia.
Qed.

(** The comparison with the double of a non-negative integer is the
    comparison of the integers, when the integer is below [2 ^ 53] (it is its
    own double) or the other side is at most [2 ^ 53] (rounding keeps the
    integer at or above [2 ^ 53]). *)
Lemma jsnum_ge_round_integer v n :
  (0 <= v)%Z -> (v < 2 ^ 53 \/ n <= 2 ^ 53)%Z ->
  jsnum_ge_Z (round_to_double v 1) n = (n <=? v)%Z.
Proof.
  intros Hv Hn.
  destruct (Z.eq_dec v 0) as [->|Hne].
  - rewrite round_to_double_zero. cbn [jsnum_ge_Z].
    change (0 <=? -1074)%Z with false. cbv iota.
    destruct (n <=? 0)%Z eqn:E.
    + apply Z.leb_le in E. apply Z.leb_le.
      assert (0 <= 2 ^ (- -1074))%Z by (apply Z.pow_nonneg; lia). nia.
    + apply Z.leb_gt in E. apply Z.leb_gt.
      assert (0 < 2 ^ (- -1074))%Z by (apply Z.pow_pos_nonneg; lia). nia.
  - destruct (Z.lt_ge_cases v (2 ^ 53)) as [Hs|Hl].
    + rewrite round_to_double_small by lia. cbn [jsnum_ge_Z].
      assert (Hlog : (Z.log2 v < 53)%Z) by (apply Z.log2_lt_pow2; lia).
      assert (Hlog0 : (0 <= Z.log2 v)%Z) by apply Z.log2_nonneg.
      destruct (0 <=? Z.log2 v - 52)%Z eqn:E.
      * apply Z.leb_le in E. assert (El : Z.log2 v = 52%Z) by lia.
        rewrite El. change (2 ^ (52 - 52))%Z with 1%Z.
        rewrite !Z.mul_1_r. reflexivity.
      * replace (- (Z.log2 v - 52))%Z with (52 - Z.log2 v)%Z by lia.
        assert (Hp : (0 < 2 ^ (52 - Z.log2 v))%Z) by (apply Z.pow_pos_nonneg; lia).
        destruct (n <=? v)%Z eqn:L.
        -- apply Z.leb_le in L. apply Z.leb_le.
           apply Z.mul_le_mono_nonneg_r; lia.
        -- apply Z.leb_gt in L. apply Z.leb_gt.
           apply Z.mul_lt_mono_pos_r; lia.
    + assert (Hn' : (n <= 2 ^ 53)%Z) by (destruct Hn; [lia|assumption]).
      rewrite round_to_double_large by lia. symmetry. apply Z.leb_le. lia.
Qed.

Lemma digit_no_whitespace c : is_digit c = true -> is_whitespace c = false.
Proof.
  destruct c as [[] [] [] [] [] [] [] []]; intros H;
    vm_compute in H; try discriminate H; reflexivity.
Qed.

Lemma trim_right_digits s : all_digits s = true -> trim_right s = s.
Proof.
  induction s as [|c s IH]; cbn [all_digits trim_right]; auto.
  intros H. apply andb_true_iff in H. destruct H as [Hc Hs].
  rewrite (IH Hs), (digit_no_whitespace c Hc). reflexivity.
Qed.

Lemma trim_digits c s :
  is_digit c = true -> all_digits s = true ->
  trim_right (trim_left (String c s)) = String c s.
Proof.
  intros Hc Hs. cbn [trim_left]. rewrite (digit_no_whitespace c Hc).
  apply trim_right_digits. cbn [all_digits]. rewrite Hc, Hs. reflexivity.
Qed.

Lemma read_digits_nonneg s : forall acc cnt,
  (0 <= acc)%Z -> (0 <= fst (fst (read_digits s acc cnt)))%Z.
Proof.
  induction s as [|c s IH]; cbn [read_digits]; intros acc cnt H; auto.
  destruct (digit_of_ascii c) as [d|] eqn:E; auto.
  apply IH.
  assert (0 <= d)%Z; [|lia].
  unfold digit_of_ascii in E.
  destruct c as [[] [] [] [] [] [] [] []]; vm_compute in E;
    try discriminate E; injection E as <-; lia.
Qed.

Lemma StringToNumber_integer_key s :
  isIntegerKey (KStr s) = true ->
  StringToNumber s = round_to_double (Number_of_key (KStr s)) 1.
Proof.
  destruct s as [|c s]; [discriminate|]. cbn [isIntegerKey].
  intros H. apply andb_true_iff in H. destruct H as [H Hz].
  apply andb_true_iff in H. destruct H as [Hc Hs].
  unfold StringToNumber. rewrite (trim_digits c s Hc Hs). cbv zeta.
  assert (Hall : all_digits (String c s) = true)
    by (cbn [all_digits]; rewrite Hc, Hs; reflexivity).
  destruct (read_digits_all (String c s) Hall 0%Z 0%nat) as [v Hv].
  assert (Hd : unsigned_decimal (String c s) = round_to_double v 1).
  { unfold unsigned_decimal.
    assert (Hi : String.eqb (String c s) "Infinity" = false).
    { cbn [String.eqb].
      destruct c as [[] [] [] [] [] [] [] []]; vm_compute in Hc;
        try discriminate Hc; reflexivity. }
    rewrite Hi, Hv. cbn [String.length Nat.add Nat.eqb exponent_part].
    cbn [Z.of_nat Z.sub Z.opp Z.add Z.leb Z.compare].
    rewrite Z.pow_0_r, Z.mul_1_r. reflexivity. }
  unfold Number_of_key. rewrite Hv. cbn [fst]. rewrite <- Hd.
  destruct c as [[] [] [] [] [] [] [] []]; vm_compute in Hc;
    try discriminate Hc; try reflexivity.
  cbn [negb Ascii.eqb Bool.eqb andb orb] in Hz.
  apply String.eqb_eq in Hz. subst s. reflexivity.
Qed.

Lemma integer_key_selected k n :
  isIntegerKey k = true -> (Number_of_key k < 2 ^ 53 \/ n <= 2 ^ 53)%Z ->
  (length_selects k (VNum n) <-> (n <= Number_of_key k)%Z).
Proof.
  intros H Hb.
  assert (Hne : k <> KStr "length").
  { intros ->. vm_compute in H. discriminate H. }
  destruct k as [s|m]; [|discriminate H].
  unfold length_selects. cbn [key_ge].
  rewrite (@StringToNumber_integer_key s H).
  rewrite jsnum_ge_round_integer;
    [|apply (@read_digits_nonneg s 0%Z 0%nat); lia|exact Hb].
  destruct (n <=? Number_of_key (KStr s))%Z eqn:L; cbn [cmp_of_bool].
  - apply Z.leb_le in L. split; auto.
  - apply Z.leb_gt in L. split.
    + intros [E|E]; [contradiction|discriminate E].
    + intros L'. lia.
Qed.

(** C5 (amended): a trigger for the key "length" of an array whose registry
    entry has string keys only selects exactly the eligible effects of the
    dep at "length" and of every dep whose key, converted to a Number as the
    comparison [key >= n] converts it, is at least the new length [n].  An
    integer key k is among them exactly when k >= n (for k below 2 ^ 53, as
    every array index is, or n at most 2 ^ 53; beyond both the conversion
    rounds k); any other key is exactly when its Number is >= n, as "1.5",
    "1e3", "0x10", " 3 " and "Infinity" are for n = 1; a key that does not
    convert to a number is not. *)
Theorem C5_length_trigger_selection st t ty n m :
  isArray t = true -> ty <> CLEAR -> depsMap_of st t = Some m ->
  (forall k dep, In (k, dep) m -> isSymbol k = false) ->
  exists l,
    trigger_effects st t ty (Some (KStr "length")) (VNum n) = Selected l /\
    (forall e, In e l <->
       exists k dep, In (k, dep) m /\ length_selects k (VNum n) /\
                     In e dep /\ eligible st e = true) /\
    (forall k, isIntegerKey k = true ->
       (Number_of_key k < 2 ^ 53 \/ n <= 2 ^ 53)%Z ->
       (length_selects k (VNum n) <-> (n <= Number_of_key k)%Z)) /\
    (forall s, s <> "length" ->
       (length_selects (KStr s) (VNum n) <->
        jsnum_ge_Z (StringToNumber s) n = true)) /\
    (forall s, StringToNumber s = JNaN -> s <> "length" ->
               ~ length_selects (KStr s) (VNum n)).
Proof.
  intros Ha Hty Hm Hsym.
  destruct (collect_length_total st (VNum n) m [] Hsym) as [l Hl].
  exists l. split; [|split; [|split; [|split]]].
  - destruct (trigger_effects_cases st t ty (Some (KStr "length")) (VNum n) Hm)
      as [[E _]|[(_ & _ & ->)|(_ & E & _)]].
    + contradiction.
    + rewrite Hl. reflexivity.
    + simpl in E. rewrite Ha in E. discriminate.
  - intros e. rewrite (collect_length_In _ _ _ _ e Hl). split.
    + intros [[]|H]; exact H.
    + intros H. right. exact H.
  - intros k. apply integer_key_selected.
  - intros s Hne. unfold length_selects. cbn [key_ge].
    destruct (jsnum_ge_Z (StringToNumber s) n); cbn [cmp_of_bool]; split.
    + reflexivity.
    + auto.
    + intros [E|E]; [injection E as ->; contradiction|discriminate E].
    + discriminate.
  - intros s Hs Hne [E|E].
    + injection E as ->. contradiction.
    + simpl in E. rewrite Hs in E. discriminate.
Qed.

(** ** One step of a run, node by node *)

Lemma exec_Ret n v st : exec (S n) (Ret v) st = Normal v st.
Proof. reflexivity. Qed.

Lemma exec_GetHeap n c st : exec (S n) (GetHeap c) st = exec n (c (heap st)) st.
Proof. reflexivity. Qed.

Lemma exec_PutHeap n h c st : exec (S n) (PutHeap h c) st = exec n c (set_heap h st).
Proof. reflexivity. Qed.

Lemma exec_Track n t ty k c st :
  exec (S n) (Track t ty k c) st =
  andThen (call_hook (exec n) (snd (track t ty k st)) (fst (track t ty k st)))
          (fun _ st' => exec n c st').
Proof. reflexivity. Qed.

Lemma exec_Trigger n t ty k nv ov c st :
  exec (S n) (Trigger t ty k nv ov c) st =
  andThen (trigger (exec n) t ty k nv ov st) (fun _ st' => exec n c st').
Proof. reflexivity. Qed.

Lemma exec_Call n e c st :
  exec (S n) (Call e c) st =
  andThen (reactiveEffect (exec n) e st) (fun v st' => exec n (c v) st').
Proof. reflexivity. Qed.




Lemma exec_TryCatch_Thrown n b h c st x st' :
  exec n b st = Thrown x st' ->
  exec (S n) (TryCatch b h c) st =
  andThen (exec n (h x) st') (fun v st'' => exec n (c v) st'').
Proof. intros H. simpl. rewrite H. reflexivity. Qed.

(** ** The set trap *)

(** C1: a write through the mutable handlers whose receiver is the proxy of
    the target, on a key whose old value is not a ref, performs
    [Reflect.set] with the raw value and the receiver (on a plain object
    that is not frozen, the property of the target becomes the raw value),
    then triggers ADD
    when the key was absent, SET with the old value when it was present and
    the value changed, nothing when it is unchanged, and returns the result
    of [Reflect.set]; the key of an array index counts as present when it is
    below the length, any other key when it is an own property. *)
Theorem C1_set_trap computed_setter st target key v receiver h' result n :
  toRaw receiver = VObj target ->
  isRef (heap st) (heap_get (heap st) target key) = false ->
  Reflect_set (heap st) target key (toRaw v) receiver = Some (h', result) ->
  exec (4 + n) (set computed_setter target key v receiver) st =
    (if negb (hadKey (heap st) target key) then
       andThen (trigger (exec (S n)) target ADD (Some key) (toRaw v) VUndefined
                        (set_heap h' st))
               (fun _ st' => Normal (VBool result) st')
     else if hasChanged (toRaw v) (heap_get (heap st) target key) then
       andThen (trigger (exec (S n)) target SET (Some key) (toRaw v)
                        (heap_get (heap st) target key) (set_heap h' st))
               (fun _ st' => Normal (VBool result) st')
     else Normal (VBool result) (set_heap h' st)) /\
  hadKey (heap st) target key =
    (if isArray target && isIntegerKey key
     then (Number_of_key key <? array_length (heap st) target)%Z
     else hasOwn (heap st) target key) /\
  (is_frozen (heap st) target = false -> isArray target = false ->
   h' = heap_put (heap st) target key (toRaw v) /\ result = true).
Proof.
  intros Hrecv Hold Hset. split; [|split; [reflexivity|]].
  2:{ intros Hf Ha. unfold Reflect_set in Hset. rewrite Hf, Hrecv in Hset.
      unfold define_property in Hset. rewrite Hf, Ha in Hset. simpl in Hset.
      injection Hset as <- <-. auto. }
  change (4 + n) with (S (S (S (S n)))).
  unfold set, createSetter. rewrite exec_GetHeap.
  cbn [negb andb]. rewrite Hold, andb_false_r. cbn [andb].
  rewrite Hset, exec_PutHeap, Hrecv.
  assert (Eq : value_eqb (VObj target) (VObj target) = true).
  { simpl. apply Target_eqb_refl. }
  rewrite Eq.
  destruct (negb (hadKey (heap st) target key)).
  - rewrite exec_Trigger. reflexivity.
  - destruct (hasChanged (toRaw v) (heap_get (heap st) target key)).
    + rewrite exec_Trigger. reflexivity.
    + reflexivity.
Qed.

(** ** The ref cell *)

Lemma value_eqb_refl v : value_eqb v v = true.
Proof.
  induction v; simpl; auto.
  - apply Bool.eqb_reflx.
  - apply Z.eqb_refl.
  - apply String.eqb_refl.
  - apply Target_eqb_refl.
  - apply Nat.eqb_refl.
  - rewrite Bool.eqb_reflx, IHv. reflexivity.
Qed.

(** [hasChanged] is the negation of [Object.is] on the modelled values. *)
Lemma hasChanged_Object_is a b : hasChanged a b = negb (Object_is a b).
Proof.
  unfold hasChanged, Object_is, strict_equal.
  pose proof (value_eqb_refl a) as Ha. pose proof (value_eqb_refl b) as Hb.
  destruct a; destruct b; simpl in *;
    rewrite ?Ha, ?Hb, ?orb_true_r, ?andb_true_r; reflexivity.
Qed.

(** C7: what the setter of [R.value = v] does.  It compares the raw of the
    new value with the stored [_rawValue] as it is, where the specification compares
    it with the raw of the stored value: when the two are the same (NaN being
    the same as NaN) the assignment changes nothing in the state; otherwise
    it stores the value and triggers (R, SET, "value").  Where the stored
    [_rawValue] is itself raw, the test is the specified one,
    [!Object.is(toRaw(v), toRaw(R._rawValue))]; a ref that holds a reactive
    proxy is where the code departs from it. *)
Theorem C7_ref_assignment st this v n :
  (RefImpl_changed (heap st) this v = false ->
   exec (2 + n) (RefImpl_set_value this v) st = Normal VUndefined st) /\
  (RefImpl_changed (heap st) this v = true ->
   exec (4 + n) (RefImpl_set_value this v) st =
   andThen (trigger (exec (S n)) this SET (Some (KStr "value")) v VUndefined
                    (set_heap (RefImpl_store (heap st) this v) st))
           (fun _ st' => Normal VUndefined st')) /\
  RefImpl_changed (heap st) this v =
    negb (Object_is (toRaw v) (heap_get (heap st) this (KStr "_rawValue"))) /\
  (toRaw (heap_get (heap st) this (KStr "_rawValue")) =
     heap_get (heap st) this (KStr "_rawValue") ->
   RefImpl_changed (heap st) this v =
     negb (Object_is (toRaw v)
                     (toRaw (heap_get (heap st) this (KStr "_rawValue"))))).
Proof.
  split; [|split; [|split]].
  - intros H. change (2 + n) with (S (S n)).
    unfold RefImpl_set_value. rewrite exec_GetHeap, H. reflexivity.
  - intros H. change (4 + n) with (S (S (S (S n)))).
    unfold RefImpl_set_value. rewrite exec_GetHeap, H, exec_PutHeap, exec_Trigger.
    reflexivity.
  - apply hasChanged_Object_is.
  - intros ->. apply hasChanged_Object_is.
Qed.

(** ** The computed ref *)

Lemma heap_get_put_same h t k v : heap_get (heap_put h t k v) t k = v.
Proof.
  unfold heap_get, heap_lookup, heap_put; simpl.
  rewrite (Map_get_set_same _ DepId_eqb_eq). reflexivity.
Qed.

Lemma heap_get_put_other h t k v t' k' :
  (t', k') <> (t, k) -> heap_get (heap_put h t k v) t' k' = heap_get h t' k'.
Proof.
  intros H. unfold heap_get, heap_lookup, heap_put; simpl.
  rewrite (Map_get_set_other _ DepId_eqb_eq); auto.
Qed.

Lemma computed_cache_spec h this v :
  heap_get (computed_cache h this v) this (KStr "_value") = v /\
  truthy (heap_get (computed_cache h this v) this (KStr "_dirty")) = false.
Proof.
  unfold computed_cache. split.
  - rewrite heap_get_put_other by (intros [=]). apply heap_get_put_same.
  - rewrite heap_get_put_same. reflexivity.
Qed.

(** C6 (amended): a read of [c.value] while [_dirty] is set invokes the lazy
    effect, caches what it returns in [_value], clears [_dirty], tracks
    (c, GET, "value") and returns the cached value; the effect returns the
    result of the getter when it is active and not already running, and
    [undefined] when it was stopped or is on the effect stack.  A read with
    [_dirty] clear tracks (c, GET, "value") and returns the cached value
    without invoking the effect.  A trigger that reaches the effect calls its
    scheduler, which sets [_dirty] and triggers (c, SET, "value") when
    [_dirty] was clear, and does nothing when it was set.  The constructor
    makes that effect lazy and sets [_dirty]. *)
Theorem C6_computed_cache st this n :
  (forall e v st1,
     truthy (heap_get (heap st) this (KStr "_dirty")) = true ->
     heap_get (heap st) this (KStr "effect") = VEffect e ->
     reactiveEffect (exec (5 + n)) e st = Normal v st1 ->
     exec (7 + n) (ComputedRefImpl_get_value this) st =
       andThen
         (call_hook (exec (2 + n))
            (snd (track this GET (KStr "value")
                    (set_heap (computed_cache (heap st1) this v) st1)))
            (fst (track this GET (KStr "value")
                    (set_heap (computed_cache (heap st1) this v) st1))))
         (fun _ st' => Normal (heap_get (heap st') this (KStr "_value")) st') /\
     heap_get (computed_cache (heap st1) this v) this (KStr "_value") = v /\
     truthy (heap_get (computed_cache (heap st1) this v) this (KStr "_dirty"))
       = false) /\
  (forall e x m,
     get_effect st e = Some x -> active x = true ->
     existsb (Nat.eqb e) (effectStack st) = false ->
     reactiveEffect (exec m) e st = run_finally (exec m (raw x) (enter_effect e st))) /\
  (forall e x m,
     get_effect st e = Some x -> options x = computed_options this ->
     active x = false \/ existsb (Nat.eqb e) (effectStack st) = true ->
     reactiveEffect (exec m) e st = Normal VUndefined st) /\
  (truthy (heap_get (heap st) this (KStr "_dirty")) = false ->
   exec (4 + n) (ComputedRefImpl_get_value this) st =
     andThen
       (call_hook (exec (2 + n)) (snd (track this GET (KStr "value") st))
                  (fst (track this GET (KStr "value") st)))
       (fun _ st' => Normal (heap_get (heap st') this (KStr "_value")) st') /\
   (snd (track this GET (KStr "value") st) = None ->
    exec (4 + n) (ComputedRefImpl_get_value this) st =
      Normal (heap_get (heap st) this (KStr "_value"))
             (fst (track this GET (KStr "value") st)))) /\
  (forall e rec t ty k nv ov,
     effect_options st e = Some (computed_options this) ->
     run rec t ty k nv ov e st = rec (computed_scheduler this e) st) /\
  (forall e,
     truthy (heap_get (heap st) this (KStr "_dirty")) = false ->
     exec (4 + n) (computed_scheduler this e) st =
       andThen
         (trigger (exec (S n)) this SET (Some (KStr "value")) VUndefined VUndefined
            (set_heap (heap_put (heap st) this (KStr "_dirty") (VBool true)) st))
         (fun _ st' => Normal VUndefined st')) /\
  (forall e,
     truthy (heap_get (heap st) this (KStr "_dirty")) = true ->
     exec (2 + n) (computed_scheduler this e) st = Normal VUndefined st) /\
  (forall getter ro,
     exists st', exec (6 + n) (ComputedRefImpl_constructor this getter ro) st
                 = Normal (VObj this) st' /\
       get_effect st' (List.length (effects st)) =
         Some (mkEffect (uid st) true getter [] (computed_options this)) /\
       heap_get (heap st') this (KStr "effect") = VEffect (List.length (effects st)) /\
       truthy (heap_get (heap st') this (KStr "_dirty")) = true).
Proof.
  split; [|split; [|split; [|split; [|split; [|split; [|split]]]]]].
  - intros e v st1 Hd He Hr. split; [|apply computed_cache_spec].
    change (7 + n) with (S (S (S (S (S (S (S n))))))).
    change (5 + n) with (S (S (S (S (S n))))) in Hr.
    unfold ComputedRefImpl_get_value.
    rewrite exec_GetHeap, Hd, He, exec_Call, Hr. cbn [andThen].
    rewrite exec_GetHeap, exec_PutHeap. unfold computed_track_and_return.
    rewrite exec_Track. reflexivity.
  - intros e x m G A S. apply reactiveEffect_runs; auto.
  - intros e x m G Ho H. unfold reactiveEffect. rewrite G, Ho.
    destruct (active x); simpl.
    + destruct H as [H|H]; [discriminate|]. rewrite H. reflexivity.
    + reflexivity.
  - intros Hd.
    assert (E : exec (4 + n) (ComputedRefImpl_get_value this) st =
      andThen
        (call_hook (exec (2 + n)) (snd (track this GET (KStr "value") st))
                   (fst (track this GET (KStr "value") st)))
        (fun _ st' => Normal (heap_get (heap st') this (KStr "_value")) st')).
    { change (4 + n) with (S (S (S (S n)))). unfold ComputedRefImpl_get_value.
      rewrite exec_GetHeap, Hd. unfold computed_track_and_return.
      rewrite exec_Track. reflexivity. }
    split; [exact E|]. intros Hn. rewrite E, Hn. cbn [call_hook andThen].
    destruct (track_frame this GET (KStr "value") st) as (_ & _ & _ & _ & _ & ->).
    reflexivity.
  - intros e rec t ty k nv ov H. unfold run. rewrite H.
    destruct __DEV__; reflexivity.
  - intros e Hd. change (4 + n) with (S (S (S (S n)))).
    unfold computed_scheduler. rewrite exec_GetHeap, Hd. cbn [negb].
    rewrite exec_PutHeap, exec_Trigger. reflexivity.
  - intros e Hd. change (2 + n) with (S (S n)).
    unfold computed_scheduler. rewrite exec_GetHeap, Hd. reflexivity.
  - intros getter ro. eexists. split; [reflexivity|]. split; [|split].
    + unfold get_effect. simpl. rewrite nth_error_app2 by lia.
      rewrite Nat.sub_diag. reflexivity.
    + simpl. rewrite heap_get_put_other by (intros [=]). apply heap_get_put_same.
    + simpl. rewrite !heap_get_put_other by (intros [=]).
      rewrite heap_get_put_same. reflexivity.
Qed.

(** ** The job of a watcher *)


(** ** More of what every run preserves *)

Lemma dep_at_dep_delete_eq e st d0 d :
  dep_at (dep_delete e st d0) d =
  if DepId_eqb d d0 then Set_delete Nat.eqb e (dep_at st d) else dep_at st d.
Proof.
  destruct (DepId_eqb d d0) eqn:E.
  - apply DepId_eqb_eq in E; subst d0. unfold dep_delete.
    destruct (depsMap_of st (fst d)) as [m|] eqn:Em;
      [destruct (Map_get Key_eqb (snd d) m) as [s|] eqn:Es|].
    + rewrite dep_at_set_dep_same. unfold dep_at. rewrite Em, Es. reflexivity.
    + unfold dep_at. rewrite Em, Es. reflexivity.
    + unfold dep_at. rewrite Em. reflexivity.
  - assert (Hne : d <> d0).
    { intros ->. assert (DepId_eqb d0 d0 = true) by (apply DepId_eqb_eq; auto).
      congruence. }
    unfold dep_delete.
    destruct (depsMap_of st (fst d0)) as [m|]; auto.
    destruct (Map_get Key_eqb (snd d0) m); auto.
    apply dep_at_set_dep_other; auto.
Qed.

Lemma Set_delete_NoDup x (s : list EffectId) :
  NoDup s -> NoDup (Set_delete Nat.eqb x s).
Proof. intros H. unfold Set_delete. apply NoDup_filter; auto. Qed.

Lemma dep_at_fold_dep_delete_NoDup e ds : forall st d,
  NoDup (dep_at st d) -> NoDup (dep_at (fold_left (dep_delete e) ds st) d).
Proof.
  induction ds as [|d0 ds IH]; intros st d H; simpl; auto.
  apply IH. rewrite dep_at_dep_delete_eq.
  destruct (DepId_eqb d d0); auto. apply Set_delete_NoDup; auto.
Qed.

Lemma cleanup_duplicate_free e st :
  duplicate_free st -> duplicate_free (cleanup e st).
Proof.
  intros [Hd He]. split.
  - intros d. unfold cleanup. destruct (get_effect st e) as [x|]; auto.
    destruct (Nat.eqb (List.length (deps x)) 0); auto.
    change (dep_at (update_effect e (set_deps []) ?s) d) with (dep_at s d).
    apply dep_at_fold_dep_delete_NoDup; auto.
  - intros x. destruct (Nat.eq_dec x e) as [->|Hne].
    + rewrite effect_deps_cleanup_same. constructor.
    + rewrite effect_deps_cleanup_other by auto. auto.
Qed.

Lemma NoDup_snoc {A} (l : list A) (a : A) : NoDup l -> ~ In a l -> NoDup (l ++ [a]).
Proof.
  intros Hl Ha. apply NoDup_app; auto.
  - constructor; [intros []|constructor].
  - intros y Hy [<-|[]]. auto.
Qed.

Lemma track_duplicate_free t ty k st :
  well_formed st -> duplicate_free st -> duplicate_free (fst (track t ty k st)).
Proof.
  intros (Hc & _ & Hv) [Hd He].
  destruct (track_cases t ty k st) as [[-> _]|[e (Hs & Ha & [[Hin ->]|[Hn ->]])]].
  - split; auto.
  - split.
    + intros d.
      change (dep_at (set_dep ?a ?b (log ?ev st)) d) with (dep_at (set_dep a b st) d).
      rewrite dep_at_set_dep_id. auto.
    + intros x. apply He.
  - split.
    + intros d. change (dep_at (update_effect ?a ?b ?s) d) with (dep_at s d).
      destruct (DepId_eq_dec d (t, k)) as [->|Hne].
      * rewrite dep_at_set_dep_same. apply NoDup_snoc; auto.
      * rewrite !dep_at_set_dep_other by auto. apply Hd.
    + intros x. rewrite effect_deps_update_deps by (apply Hv; auto).
      change (effect_deps (set_dep ?a ?b (set_dep ?a' ?b' (log ?ev st))) ?y)
        with (effect_deps st y).
      destruct (Nat.eqb x e); [|apply He].
      apply NoDup_snoc; auto. intros H. apply Hn, Hc, H.
Qed.

Lemma finally_block_duplicate_free st :
  duplicate_free st -> duplicate_free (finally_block st).
Proof.
  intros [Hd He]. destruct (finally_block_registry st) as (Fd & Fe & _).
  split; intros; rewrite ?Fd, ?Fe; auto.
Qed.

(** Every run keeps the deps and the [deps] lists free of duplicates. *)
Lemma duplicate_free_run_invariant :
  run_invariant (fun a b => well_formed a /\ duplicate_free a ->
                            well_formed b /\ duplicate_free b).
Proof.
  destruct well_formed_run_invariant as (_ & _ & W3 & W4 & W5 & W6 & W7 & W8 & W9).
  unfold run_invariant.
  split; [|split; [|split; [|split; [|split; [|split; [|split; [|split]]]]]]].
  - auto.
  - auto.
  - intros h st H. exact H.
  - intros t ty k st [Hw Hd]. split; [apply W4; auto|].
    apply track_duplicate_free; auto.
  - intros fn o st [Hw [Hd He]]. split; [apply (W5 fn o st); auto|].
    split; [exact Hd|]. intros e. rewrite effect_deps_create. apply He.
  - intros e st [Hw Hd]. split; [apply (W6 e st); auto|].
    apply cleanup_duplicate_free; auto.
  - intros e f st Hf [Hw [Hd He]]. split; [apply (W7 e f st Hf); auto|].
    split; [exact Hd|]. intros x. rewrite effect_deps_update_keep by auto. apply He.
  - intros b s st H. exact H.
  - intros e x st s' G H [Hw Hd].
    assert (Hin : well_formed (enter_effect e st) /\ duplicate_free (enter_effect e st)).
    { split; [eapply enter_effect_well_formed; eauto|].
      apply (cleanup_duplicate_free e Hd). }
    destruct (H Hin) as [Hw' Hd']. split.
    + apply finally_block_well_formed; auto.
    + apply finally_block_duplicate_free; auto.
Qed.

Lemma get_effect_cleanup_other e e' st :
  e' <> e ->
  get_effect (cleanup e st) e' = get_effect st e'.
Proof.
  intros Hne. unfold cleanup. destruct (get_effect st e) as [x|]; auto.
  destruct (Nat.eqb (List.length (deps x)) 0); auto.
  rewrite get_effect_update_other by auto.
  unfold get_effect. rewrite effects_fold_dep_delete. reflexivity.
Qed.

Lemma get_effect_cleanup_same e st x :
  get_effect st e = Some x ->
  exists y, get_effect (cleanup e st) e = Some y /\
            id y = id x /\ active y = active x /\ raw y = raw x /\
            options y = options x.
Proof.
  intros G. unfold cleanup. rewrite G.
  destruct (Nat.eqb (List.length (deps x)) 0).
  - exists x. auto.
  - rewrite get_effect_update_same. unfold get_effect.
    rewrite effects_fold_dep_delete. unfold get_effect in G. rewrite G.
    simpl. eexists. split; [reflexivity|]. auto.
Qed.

Lemma get_effect_track t ty k st i :
  exists f, (forall x, id (f x) = id x /\ active (f x) = active x /\
                       raw (f x) = raw x /\ options (f x) = options x) /\
            get_effect (fst (track t ty k st)) i = option_map f (get_effect st i).
Proof.
  destruct (track_cases t ty k st) as [[-> _]|[e (Hs & Ha & [[Hin ->]|[Hn ->]])]].
  - exists (fun x => x). split; auto. destruct (get_effect st i); reflexivity.
  - exists (fun x => x). split; auto.
    change (get_effect (set_dep ?a ?b (log ?ev st)) i) with (get_effect st i).
    destruct (get_effect st i); reflexivity.
  - destruct (Nat.eq_dec i e) as [->|Hne].
    + exists (fun x => set_deps (deps x ++ [(t, k)]) x). split; auto.
      rewrite get_effect_update_same. reflexivity.
    + exists (fun x => x). split; auto.
      rewrite get_effect_update_other by auto.
      change (get_effect (set_dep ?a ?b (set_dep ?a' ?b' (log ?ev st))) i)
        with (get_effect st i).
      destruct (get_effect st i); reflexivity.
Qed.

Lemma finally_block_effects st :
  effects (finally_block st) = effects st /\ uid (finally_block st) = uid st.
Proof.
  unfold finally_block, resetTracking; simpl.
  destruct (trackStack st); split; reflexivity.
Qed.

Lemma cleanup_uid e st : uid (cleanup e st) = uid st.
Proof. destruct (cleanup_shape e st) as (m & l & -> & _). reflexivity. Qed.

Lemma track_uid t ty k st : uid (fst (track t ty k st)) = uid st.
Proof.
  destruct (track_cases t ty k st) as [[-> _]|[e (Hs & Ha & [[Hin ->]|[Hn ->]])]];
    reflexivity.
Qed.

Lemma cleanup_ids_in_order e st : ids_in_order st -> ids_in_order (cleanup e st).
Proof.
  intros [Hu Hi]. split.
  - rewrite cleanup_uid.
    destruct (cleanup_frame e st) as (_ & _ & _ & _ & _ & _ & ->). exact Hu.
  - intros i x G. destruct (Nat.eq_dec i e) as [->|Hne].
    + destruct (get_effect st e) as [y|] eqn:Gy.
      * destruct (get_effect_cleanup_same e st Gy) as (z & Gz & Iz & _).
        rewrite Gz in G. injection G as <-. rewrite Iz. apply Hi; auto.
      * unfold cleanup in G. rewrite Gy in G. congruence.
    + rewrite get_effect_cleanup_other in G by auto. apply Hi; auto.
Qed.

(** Every run keeps the ids of the effects in the order of their creation. *)
Lemma ids_in_order_guarded_invariant :
  guarded_invariant (fun a b => ids_in_order a -> ids_in_order b).
Proof.
  unfold guarded_invariant.
  split; [|split; [|split; [|split; [|split; [|split; [|split; [|split; [|split]]]]]]]].
  - auto.
  - auto.
  - intros h st H. exact H.
  - intros t ty k st [Hu Hi]. split.
    + rewrite track_uid.
      destruct (track_frame t ty k st) as (_ & _ & -> & _). exact Hu.
    + intros i x G. destruct (get_effect_track t ty k st i) as (f & Hf & E).
      rewrite E in G. destruct (get_effect st i) as [y|] eqn:Gy; [|discriminate].
      injection G as <-. destruct (Hf y) as (-> & _). apply Hi; auto.
  - intros fn o st [Hu Hi]. split.
    + simpl. rewrite length_app. simpl. lia.
    + intros i x G. unfold get_effect in G. simpl in G.
      destruct (Nat.lt_ge_cases i (List.length (effects st))) as [Hlt|Hge].
      * rewrite nth_error_app1 in G by auto. apply Hi; auto.
      * rewrite nth_error_app2 in G by auto.
        destruct (i - List.length (effects st)) as [|[|m]] eqn:Ed;
          simpl in G; try discriminate.
        injection G as <-. simpl. lia.
  - intros e x st _ _. apply cleanup_ids_in_order.
  - intros e st [Hu Hi]. split.
    + simpl. rewrite update_nth_length. exact Hu.
    + intros i x G. destruct (Nat.eq_dec i e) as [->|Hne].
      * rewrite get_effect_update_same in G.
        destruct (get_effect st e) as [y|] eqn:Gy; [|discriminate].
        injection G as <-. simpl. apply Hi; auto.
      * rewrite get_effect_update_other in G by auto. apply Hi; auto.
  - intros e h st [Hu Hi]. split.
    + simpl. rewrite update_nth_length. exact Hu.
    + intros i x G. destruct (Nat.eq_dec i e) as [->|Hne].
      * rewrite get_effect_update_same in G.
        destruct (get_effect st e) as [y|] eqn:Gy; [|discriminate].
        injection G as <-. simpl. apply Hi; auto.
      * rewrite get_effect_update_other in G by auto. apply Hi; auto.
  - intros b s st H. exact H.
  - intros e x st s' G _ _ H Hi.
    assert (Hin : ids_in_order (enter_effect e st)).
    { apply (cleanup_ids_in_order e Hi). }
    destruct (H Hin) as [Hu' Hi']. destruct (finally_block_effects s') as [Ee Eu].
    split.
    + rewrite Eu, Ee. exact Hu'.
    + intros i y Gy. unfold get_effect in Gy. rewrite Ee in Gy. apply Hi'; auto.
Qed.

Lemma same_subscriptions_refl e st : same_subscriptions e st st.
Proof. split; [reflexivity|tauto]. Qed.

Lemma same_subscriptions_trans e a b c :
  same_subscriptions e a b -> same_subscriptions e b c -> same_subscriptions e a c.
Proof.
  intros [E1 H1] [E2 H2]. split; [congruence|].
  intros d. rewrite H2. apply H1.
Qed.

Lemma dormant_inactive e st x :
  dormant e st -> get_effect st e = Some x -> active x = false.
Proof. intros ((y & G & A) & _) G'. congruence. Qed.

Lemma track_dormant e t ty k st :
  dormant e st ->
  dormant e (fst (track t ty k st)) /\
  same_subscriptions e st (fst (track t ty k st)).
Proof.
  intros ((x & G & A) & Hs & Ha).
  destruct (track_frame t ty k st) as (E1 & E2 & _).
  split.
  - split; [|rewrite E1, E2; auto].
    destruct (get_effect_track t ty k st e) as (f & Hf & E).
    rewrite E, G. simpl. eexists. split; [reflexivity|].
    destruct (Hf x) as (_ & -> & _). exact A.
  - destruct (track_cases t ty k st) as [[-> _]|[a (Hsh & Hact & [[Hin ->]|[Hn ->]])]].
    + apply same_subscriptions_refl.
    + split; [reflexivity|]. intros d.
      change (dep_at (set_dep ?u ?v (log ?ev st)) d) with (dep_at (set_dep u v st) d).
      rewrite dep_at_set_dep_id. tauto.
    + assert (Hne : e <> a) by congruence.
      split.
      * rewrite effect_deps_update_other by auto. reflexivity.
      * intros d. change (dep_at (update_effect ?u ?v ?s) d) with (dep_at s d).
        destruct (DepId_eq_dec d (t, k)) as [->|Hd].
        -- rewrite dep_at_set_dep_same, in_app_iff. simpl. intuition congruence.
        -- rewrite !dep_at_set_dep_other by auto. tauto.
Qed.

Lemma cleanup_dormant e e' st :
  e' <> e -> dormant e st ->
  dormant e (cleanup e' st) /\ same_subscriptions e st (cleanup e' st).
Proof.
  intros Hne ((x & G & A) & Hs & Ha).
  destruct (cleanup_frame e' st) as (E1 & E2 & _).
  split.
  - split; [|rewrite E1, E2; auto].
    exists x. rewrite get_effect_cleanup_other by auto. auto.
  - split.
    + apply effect_deps_cleanup_other; auto.
    + intros d. rewrite dep_at_cleanup. intuition congruence.
Qed.

Lemma update_dormant e e' f st :
  (forall x, deps (f x) = deps x) ->
  (forall x, active x = false -> active (f x) = false) ->
  dormant e st ->
  dormant e (update_effect e' f st) /\
  same_subscriptions e st (update_effect e' f st).
Proof.
  intros Hd Hact ((x & G & A) & Hs & Ha). split.
  - split; [|auto]. destruct (Nat.eq_dec e e') as [<-|Hne].
    + rewrite get_effect_update_same, G. simpl. eauto.
    + rewrite get_effect_update_other by auto. eauto.
  - split; [apply effect_deps_update_keep; auto|]. intros d. tauto.
Qed.

(** No run subscribes, unsubscribes or wakes an effect that is stopped and
    not running. *)
Lemma dormant_guarded_invariant e :
  guarded_invariant (fun a b => dormant e a ->
                                dormant e b /\ same_subscriptions e a b).
Proof.
  unfold guarded_invariant.
  split; [|split; [|split; [|split; [|split; [|split; [|split; [|split; [|split]]]]]]]].
  - intros st H. split; [exact H|apply same_subscriptions_refl].
  - intros a b c H1 H2 Ha. destruct (H1 Ha) as [Hb S1].
    destruct (H2 Hb) as [Hc S2]. split; [exact Hc|].
    eapply same_subscriptions_trans; eauto.
  - intros h st H. split; [exact H|split; [reflexivity|intros d; tauto]].
  - intros t ty k st. apply track_dormant.
  - intros fn o st ((x & G & A) & Hs & Ha). split.
    + split; [|auto]. exists x. split; auto.
      unfold get_effect in *. simpl. rewrite nth_error_app1; auto.
      apply nth_error_Some. congruence.
    + split; [apply effect_deps_create|]. intros d. tauto.
  - intros e' x st G A H. apply cleanup_dormant; auto.
    intros ->. rewrite (dormant_inactive H G) in A. discriminate.
  - intros e' st. apply update_dormant; auto.
  - intros e' h st. apply update_dormant; auto.
  - intros b s st H. split; [exact H|split; [reflexivity|intros d; tauto]].
  - intros e' x st s' G A S H Hd.
    assert (Hne : e' <> e).
    { intros ->. rewrite (dormant_inactive Hd G) in A. discriminate. }
    destruct (cleanup_dormant Hne Hd) as [((y & Gy & Ay) & Hs & Ha) Sc].
    assert (Hin : dormant e (enter_effect e' st)).
    { split; [exists y; auto|]. simpl. split.
      - intros [E|E]; [congruence|auto].
      - congruence. }
    destruct (H Hin) as [((z & Gz & Az) & Hs' & Ha') S'].
    destruct (finally_block_stack s') as [Es Ea].
    destruct (finally_block_registry s') as (Fd & Fe & _).
    destruct (finally_block_effects s') as [Ee _].
    assert (Htl : ~ In e (tl (effectStack s'))).
    { intros Hi. apply Hs'. destruct (effectStack s'); simpl in *; auto. }
    split.
    + split; [exists z; unfold get_effect in *; rewrite Ee; auto|].
      rewrite Es, Ea. split; [exact Htl|].
      intros E. apply Htl. destruct (tl (effectStack s')); simpl in *;
        [discriminate|]. injection E as ->. auto.
    + eapply same_subscriptions_trans; [exact Sc|].
      eapply same_subscriptions_trans;
        [|split; [apply Fe|intros d; rewrite Fd; tauto]].
      destruct S' as [E1 H1]. split; [exact E1|exact H1].
Qed.

(** ** Further properties of effect.ts *)

Lemma resetTracking_push st b : resetTracking (push_tracking st b) = st.
Proof. destruct st, b; reflexivity. Qed.

(** X1: the tracking-state stack nests: after any sequence of
    [pauseTracking()] and [enableTracking()] calls, as many
    [resetTracking()] calls give back the state of before the first call;
    the flag is what the last call set; a [resetTracking()] on the empty
    stack sets the flag and leaves the stack empty. *)
Theorem X1_tracking_brackets_nest st (bs : list bool) :
  reset_times (List.length bs) (fold_left push_tracking bs st) = st /\
  (forall b, shouldTrack (push_tracking (fold_left push_tracking bs st) b) = b) /\
  (trackStack st = [] ->
   shouldTrack (resetTracking st) = true /\ trackStack (resetTracking st) = []).
Proof.
  split; [|split].
  - revert st. induction bs as [|b bs IH] using rev_ind; intros st; simpl; auto.
    rewrite length_app, Nat.add_comm, fold_left_app. simpl.
    rewrite resetTracking_push. apply IH.
  - intros []; reflexivity.
  - intros E. unfold resetTracking. rewrite E. split; reflexivity.
Qed.

Lemma dep_at_track t ty k st e :
  shouldTrack st = true -> activeEffect st = Some e ->
  forall x d, In x (dep_at (fst (track t ty k st)) d) <->
              In x (dep_at st d) \/ (x = e /\ d = (t, k)).
Proof.
  intros Hs Ha x d.
  destruct (track_cases t ty k st) as [[_ [E|E]]|[a (_ & Ha' & [[Hin ->]|[Hn ->]])]];
    try congruence; assert (a = e) by congruence; subst a.
  - change (dep_at (set_dep ?u ?v (log ?ev st)) d) with (dep_at (set_dep u v st) d).
    rewrite dep_at_set_dep_id. intuition (subst; auto).
  - change (dep_at (update_effect ?u ?v ?s) d) with (dep_at s d).
    destruct (DepId_eq_dec d (t, k)) as [->|Hd].
    + rewrite dep_at_set_dep_same, in_app_iff. simpl. intuition (subst; auto).
    + rewrite !dep_at_set_dep_other by auto.
      change (dep_at (log ?ev st) d) with (dep_at st d). intuition congruence.
Qed.

(** X2: inside a running effect [e] with tracking on, [track(target, type,
    key)] puts [e] in the dep of (target, key) and the dep in [e.deps], and
    changes no other membership; a second [track] of the same pair changes
    no membership at all; with tracking paused or no effect running it
    leaves the state as it is and calls no hook. *)
Theorem X2_track_subscribes st t ty k e :
  well_formed st -> shouldTrack st = true -> activeEffect st = Some e ->
  (forall x d, In x (dep_at (fst (track t ty k st)) d) <->
               In x (dep_at st d) \/ (x = e /\ d = (t, k))) /\
  (forall x d, In d (effect_deps (fst (track t ty k st)) x) <->
               In d (effect_deps st x) \/ (x = e /\ d = (t, k))) /\
  (forall ty' d, dep_at (fst (track t ty' k (fst (track t ty k st)))) d =
                 dep_at (fst (track t ty k st)) d) /\
  (forall ty' x, effect_deps (fst (track t ty' k (fst (track t ty k st)))) x =
                 effect_deps (fst (track t ty k st)) x) /\
  (forall st0, shouldTrack st0 = false \/ activeEffect st0 = None ->
               track t ty k st0 = (st0, None)).
Proof.
  intros Hw Hs Ha.
  pose proof (@dep_at_track t ty k st e Hs Ha) as Hdep.
  pose proof (track_consistent t ty k Hw) as Hc1. destruct Hw as (Hc & Hst & Hv).
  assert (Hin1 : In e (dep_at (fst (track t ty k st)) (t, k))).
  { apply Hdep. auto. }
  assert (Hagain : forall ty', fst (track t ty' k (fst (track t ty k st))) =
                    set_dep (t, k) (dep_at (fst (track t ty k st)) (t, k))
                      (log (EvTrack e (t, k)) (fst (track t ty k st)))).
  { intros ty'. destruct (track_frame t ty k st) as (_ & E2 & _ & E4 & _).
    destruct (track_cases t ty' k (fst (track t ty k st)))
      as [[_ [E|E]]|[a (_ & Ha' & [[Hin ->]|[Hn _]])]]; congruence. }
  split; [exact Hdep|]. split; [|split; [|split]].
  - intros x d. rewrite <- (Hc1 x d), Hdep, (Hc x d). tauto.
  - intros ty' d. rewrite Hagain.
    change (dep_at (set_dep ?u ?v (log ?ev ?s)) d) with (dep_at (set_dep u v s) d).
    apply dep_at_set_dep_id.
  - intros ty' x. rewrite Hagain. reflexivity.
  - intros st0 H. unfold track. destruct (shouldTrack st0); simpl.
    + destruct H as [H|H]; [discriminate|]. rewrite H. reflexivity.
    + reflexivity.
Qed.

Lemma cleanup_idempotent e st : cleanup e (cleanup e st) = cleanup e st.
Proof.
  pose proof (effect_deps_cleanup_same e st) as H.
  unfold effect_deps in H. unfold cleanup at 1.
  destruct (get_effect (cleanup e st) e) as [y|]; auto.
  rewrite H. reflexivity.
Qed.

(** X3: [cleanup(e)] takes [e] out of every dep that [e.deps] lists and
    empties [e.deps]; the membership of every other effect and every other
    [deps] list stay as they were; on a state where registry and lists agree
    [e] is then in no dep at all; a second [cleanup(e)] changes nothing. *)
Theorem X3_cleanup_unsubscribes_one_effect st e :
  (forall x d, In x (dep_at (cleanup e st) d) <->
               In x (dep_at st d) /\ (In d (effect_deps st e) -> x <> e)) /\
  effect_deps (cleanup e st) e = [] /\
  (forall x, x <> e -> effect_deps (cleanup e st) x = effect_deps st x) /\
  (forall x d, x <> e -> (In x (dep_at (cleanup e st) d) <-> In x (dep_at st d))) /\
  (consistent st -> forall d, ~ In e (dep_at (cleanup e st) d)) /\
  cleanup e (cleanup e st) = cleanup e st.
Proof.
  split; [|split; [|split; [|split; [|split]]]].
  - intros x d. apply dep_at_cleanup.
  - apply effect_deps_cleanup_same.
  - intros x Hx. apply effect_deps_cleanup_other; auto.
  - intros x d Hx. rewrite dep_at_cleanup. tauto.
  - intros Hc d. rewrite dep_at_cleanup, (Hc e d). tauto.
  - apply cleanup_idempotent.
Qed.

(** X4: a dep never holds an effect twice and no [deps] list names a dep
    twice: from a state where that is so, whatever a program does (effects
    made, run, stopped, triggers, an exception on the way), the state it ends
    in is again free of duplicates. *)
Theorem X4_no_duplicate_subscription n p st st' :
  well_formed st -> duplicate_free st ->
  ends_in (exec n p st) st' -> duplicate_free st'.
Proof.
  intros Hw Hd E.
  apply (holds_after_ends_in
           (fun a b => well_formed a /\ duplicate_free a ->
                       well_formed b /\ duplicate_free b)
           st (exec n p st) st'); auto.
  apply exec_rel, duplicate_free_run_invariant.
Qed.

(** X5: [effect.id = uid++]: the effects made by a program get the ids
    following those in use, so no two effect objects have the same id, and
    every id is below the counter. *)
Theorem X5_effect_ids_unique n p st st' :
  ids_in_order st -> ends_in (exec n p st) st' ->
  (forall i j x y, get_effect st' i = Some x -> get_effect st' j = Some y ->
                   id x = id y -> i = j) /\
  (forall i x, get_effect st' i = Some x -> id x < uid st') /\
  uid st <= uid st'.
Proof.
  intros Hi E.
  assert (Hi' : ids_in_order st').
  { apply (holds_after_ends_in (fun a b => ids_in_order a -> ids_in_order b)
             st (exec n p st) st'); auto.
    apply exec_guarded, ids_in_order_guarded_invariant. }
  assert (Hk : effects_kept st st').
  { apply (holds_after_ends_in effects_kept st (exec n p st) st'); auto.
    apply exec_rel, effects_kept_run_invariant. }
  destruct Hi as [U _], Hi' as [U' I']. split; [|split].
  - intros i j x y Gx Gy Exy. rewrite <- (I' i x Gx), <- (I' j y Gy). exact Exy.
  - intros i x G. rewrite (I' i x G), U'. unfold get_effect in G.
    apply nth_error_Some. congruence.
  - unfold effects_kept in Hk. lia.
Qed.

(** X6: an effect that was stopped and is not running stays as it is:
    whatever a program does afterwards, the effect is inactive, its [deps]
    list is the same and it is in the same deps as before; calling it no
    longer subscribes it to anything. *)
Theorem X6_stopped_effect_stays_as_it_is n p e st st' :
  dormant e st -> ends_in (exec n p st) st' ->
  dormant e st' /\ effect_deps st' e = effect_deps st e /\
  (forall d, In e (dep_at st' d) <-> In e (dep_at st d)).
Proof.
  intros Hd E.
  destruct (holds_after_ends_in
              (fun a b => dormant e a -> dormant e b /\ same_subscriptions e a b)
              st (exec n p st) st') as (H1 & H2 & H3); auto.
  apply exec_guarded, dormant_guarded_invariant.
Qed.

Lemma add_Map_get_In st t m k acc e :
  depsMap_of st t = Some m ->
  (In e (add st (Map_get Key_eqb k m) acc) <->
   In e acc \/ (In e (dep_at st (t, k)) /\ eligible st e = true)).
Proof.
  intros Hm. rewrite add_In, dep_at_In. split.
  - intros [H|(dep & H1 & H2 & H3)]; auto. right. split; auto. exists m, dep. auto.
  - intros [H|((m' & dep & H1 & H2 & H3) & H4)]; auto.
    right. exists dep. split; [congruence|auto].
Qed.

Lemma Map_get_In_entry (k : Key) (m : KeyToDepMap) dep :
  Map_get Key_eqb k m = Some dep -> In (k, dep) m.
Proof.
  induction m as [|[k' d'] m IH]; simpl; [discriminate|].
  destruct (Key_eqb k' k) eqn:E.
  - apply Key_eqb_eq in E. intros [= <-]. left. congruence.
  - auto.
Qed.

(** X7: which effects a call of [trigger(target, type, key)] selects, by the
    operation and the kind of target ([key] not the "length" of an array):
    a SET selects the dep of the key, and on a Map the iteration dep too; an
    ADD or a DELETE on an object that is no array selects the dep of the key
    and the iteration dep, on a Map the key-iteration dep as well; an ADD on
    an array selects the dep of the key, and the dep of "length" exactly for
    an integer key; a DELETE on an array selects the dep of the key only; a
    CLEAR selects exactly the deps stored in the map of the target, so every
    dep of the target.  In each case an effect is taken exactly when it also
    passes the filter on the running effect. *)
Theorem X7_trigger_selection_by_operation st t ty k nv l e :
  trigger_effects st t ty (Some k) nv = Selected l ->
  is_length (Some k) && isArray t = false ->
  (ty = SET -> isMap t = false ->
   (In e l <-> In e (dep_at st (t, k)) /\ eligible st e = true)) /\
  (ty = SET -> isMap t = true ->
   (In e l <-> (In e (dep_at st (t, k)) \/ In e (dep_at st (t, ITERATE_KEY))) /\
               eligible st e = true)) /\
  (ty = ADD \/ ty = DELETE -> isArray t = false -> isMap t = false ->
   (In e l <-> (In e (dep_at st (t, k)) \/ In e (dep_at st (t, ITERATE_KEY))) /\
               eligible st e = true)) /\
  (ty = ADD \/ ty = DELETE -> isMap t = true ->
   (In e l <-> (In e (dep_at st (t, k)) \/ In e (dep_at st (t, ITERATE_KEY)) \/
                In e (dep_at st (t, MAP_KEY_ITERATE_KEY))) /\
               eligible st e = true)) /\
  (ty = ADD -> isArray t = true -> isIntegerKey k = true ->
   (In e l <-> (In e (dep_at st (t, k)) \/ In e (dep_at st (t, KStr "length"))) /\
               eligible st e = true)) /\
  (ty = ADD -> isArray t = true -> isIntegerKey k = false ->
   (In e l <-> In e (dep_at st (t, k)) /\ eligible st e = true)) /\
  (ty = DELETE -> isArray t = true ->
   (In e l <-> In e (dep_at st (t, k)) /\ eligible st e = true)) /\
  (ty = CLEAR ->
   forall k', In e (dep_at st (t, k')) -> eligible st e = true -> In e l) /\
  (ty = CLEAR -> forall deps, depsMap_of st t = Some deps ->
   (In e l <-> (exists k' dep, In (k', dep) deps /\ In e dep) /\
               eligible st e = true)).
Proof.
  intros Hsel Hlen.
  destruct (depsMap_of st t) as [m|] eqn:Hm;
    [|unfold trigger_effects in Hsel; rewrite Hm in Hsel; discriminate].
  assert (Hkind : isArray t = true -> isMap t = false).
  { destruct t as [[] i]; simpl; auto; discriminate. }
  assert (Hkey : ty <> CLEAR -> l = collect_key st t ty (Some k) m).
  { intros Hty. rewrite (trigger_effects_key st t k nv Hm Hty Hlen) in Hsel.
    congruence. }
  assert (Hkind' : isMap t = true -> isArray t = false).
  { destruct t as [[] i]; simpl; auto; discriminate. }
  repeat match goal with |- _ /\ _ => split end.
  all: intros; try match goal with H : _ \/ _ |- _ => destruct H end; subst ty.
  all: try (rewrite Hkey by discriminate; unfold collect_key;
            repeat match goal with
                   | H : isArray _ = true |- _ => rewrite ?(Hkind H), ?H; clear H
                   | H : isMap _ = true |- _ => rewrite ?(Hkind' H), ?H; clear H
                   | H : isArray _ = false |- _ => rewrite H; clear H
                   | H : isMap _ = false |- _ => rewrite H; clear H
                   | H : isIntegerKey _ = _ |- _ => rewrite H; clear H
                   end; cbn [negb];
            rewrite ?(@add_Map_get_In st t m _ _ e Hm); simpl; tauto).
  all: unfold trigger_effects in Hsel; rewrite Hm in Hsel;
    assert (El : l = collect_all st m []) by congruence; subst l.
  - apply collect_all_In. right.
    match goal with
    | H : In _ (dep_at _ (_, ?k')) |- _ =>
        apply dep_at_In in H; destruct H as (m' & dep & G1 & G2 & G3);
        exists k', dep; split; [apply Map_get_In_entry; congruence|auto]
    end.
  - match goal with H : Some _ = Some _ |- _ => injection H as <- end.
    rewrite collect_all_In. split.
    + intros [[]|(k' & dep & H1 & H2 & H3)]. split; [|exact H3].
      exists k', dep. auto.
    + intros [(k' & dep & H1 & H2) H3]. right. exists k', dep. auto.
Qed.

(** ** More fuel changes no result *)

Section MoreFuel.
Variables rec rec' : prog -> State -> outcome.
Hypothesis Hrec : forall p st, rec p st <> OutOfFuel -> rec' p st = rec p st.

Lemma andThen_more o o' k k' :
  (o <> OutOfFuel -> o' = o) ->
  (forall v s, k v s <> OutOfFuel -> k' v s = k v s) ->
  andThen o k <> OutOfFuel -> andThen o' k' = andThen o k.
Proof.
  intros Ho Hk H. destruct o as [v s|v s|]; simpl in *.
  - rewrite Ho by discriminate. simpl. auto.
  - rewrite Ho by discriminate. reflexivity.
  - contradiction.
Qed.

Lemma call_hook_more h st :
  call_hook rec h st <> OutOfFuel -> call_hook rec' h st = call_hook rec h st.
Proof. destruct h; simpl; auto. Qed.

Lemma run_finally_more o o' :
  (o <> OutOfFuel -> o' = o) ->
  run_finally o <> OutOfFuel -> run_finally o' = run_finally o.
Proof.
  intros Ho H. destruct o; simpl in *; try contradiction;
    rewrite Ho by discriminate; reflexivity.
Qed.

Lemma reactiveEffect_more e st :
  reactiveEffect rec e st <> OutOfFuel ->
  reactiveEffect rec' e st = reactiveEffect rec e st.
Proof.
  unfold reactiveEffect. destruct (get_effect st e) as [x|]; auto.
  destruct (negb (active x)).
  - destruct (scheduler (options x)); auto.
  - destruct (negb (existsb (Nat.eqb e) (effectStack st))); auto.
    apply run_finally_more. auto.
Qed.

Lemma run_more t ty k nv ov e st :
  run rec t ty k nv ov e st <> OutOfFuel ->
  run rec' t ty k nv ov e st = run rec t ty k nv ov e st.
Proof.
  unfold run. destruct (effect_options st e) as [o|]; auto.
  apply andThen_more.
  - apply call_hook_more.
  - intros _ s. destruct (scheduler o); auto. apply reactiveEffect_more.
Qed.

Lemma forEach_more f f' l :
  (forall e st, f e st <> OutOfFuel -> f' e st = f e st) ->
  forall st, forEach f l st <> OutOfFuel -> forEach f' l st = forEach f l st.
Proof.
  intros Hf. induction l as [|e l IH]; intros st; simpl; auto.
  apply andThen_more; auto.
Qed.

Lemma trigger_more t ty k nv ov st :
  trigger rec t ty k nv ov st <> OutOfFuel ->
  trigger rec' t ty k nv ov st = trigger rec t ty k nv ov st.
Proof.
  unfold trigger. destruct (trigger_effects st t ty k nv); auto.
  apply forEach_more. intros e s. apply run_more.
Qed.

Lemma stop_more e st :
  stop rec e st <> OutOfFuel -> stop rec' e st = stop rec e st.
Proof.
  unfold stop. destruct (get_effect st e) as [x|]; auto.
  destruct (active x); auto.
  apply andThen_more; auto. apply call_hook_more.
Qed.

Lemma effect_more fn o c st :
  effect rec fn o c st <> OutOfFuel -> effect rec' fn o c st = effect rec fn o c st.
Proof.
  unfold effect.
  destruct (match fn with
            | inl f => Some f
            | inr e' => match get_effect st e' with
                        | Some x => Some (raw x)
                        | None => None
                        end
            end) as [f|]; auto.
  simpl. destruct (lazy o); auto.
  apply andThen_more; auto. apply reactiveEffect_more.
Qed.

Lemma step_more p st :
  step rec p st <> OutOfFuel -> step rec' p st = step rec p st.
Proof.
  destruct p; simpl; auto.
  - apply andThen_more; auto. apply call_hook_more.
  - apply andThen_more; auto. apply trigger_more.
  - apply effect_more.
  - apply andThen_more; auto. apply reactiveEffect_more.
  - apply andThen_more; auto. apply stop_more.
  - destruct (effect_options st e); auto.
    apply andThen_more; auto. apply call_hook_more.
  - destruct (get_effect st e); auto.
  - destruct (rec p st) as [v s|v s|] eqn:E.
    + rewrite Hrec by (rewrite E; discriminate). rewrite E. auto.
    + rewrite Hrec by (rewrite E; discriminate). rewrite E.
      apply andThen_more; auto.
    + contradiction.
Qed.
End MoreFuel.

Lemma exec_S n : forall p st,
  exec n p st <> OutOfFuel -> exec (S n) p st = exec n p st.
Proof.
  induction n as [|n IH]; intros p st H; [simpl in H; contradiction|].
  change (step (exec (S n)) p st = step (exec n) p st).
  apply step_more; auto.
Qed.

(** A run that ended gives the same result with any larger fuel. *)
Lemma exec_more n m p st :
  n <= m -> exec n p st <> OutOfFuel -> exec m p st = exec n p st.
Proof.
  induction 1 as [|m Hle IH]; auto.
  intros H. rewrite exec_S; auto. rewrite IH; auto.
Qed.

Lemma exec_more_Normal n m p st v st' :
  exec n p st = Normal v st' -> n <= m -> exec m p st = Normal v st'.
Proof. intros E H. rewrite (@exec_more n m p st H); [exact E|rewrite E; discriminate]. Qed.

Lemma exec_more_Thrown n m p st v st' :
  exec n p st = Thrown v st' -> n <= m -> exec m p st = Thrown v st'.
Proof. intros E H. rewrite (@exec_more n m p st H); [exact E|rewrite E; discriminate]. Qed.

Lemma andThen_Normal_inv o k v s :
  andThen o k = Normal v s -> exists v1 s1, o = Normal v1 s1 /\ k v1 s1 = Normal v s.
Proof. destruct o as [v1 s1|v1 s1|]; simpl; try discriminate. eauto. Qed.

Lemma andThen_Thrown_inv o k v s :
  andThen o k = Thrown v s ->
  o = Thrown v s \/ exists v1 s1, o = Normal v1 s1 /\ k v1 s1 = Thrown v s.
Proof. destruct o as [v1 s1|v1 s1|]; simpl; try discriminate; eauto. Qed.

Lemma exec_more_rec n m :
  forall p st, exec n p st <> OutOfFuel -> exec (n + m) p st = exec n p st.
Proof. intros p st. apply exec_more. lia. Qed.

(** Sequencing: the first part runs to its result, the second goes on from
    there. *)
Lemma exec_bind_Normal n : forall p f st v st' m r,
  exec n p st = Normal v st' -> exec m (f v) st' = r -> r <> OutOfFuel ->
  exec (n + m) (bind p f) st = r.
Proof.
  induction n as [|n IH]; intros p f st v st' m r E Ef Ho; [discriminate|].
  pose proof (@exec_more_rec n m) as Hm.
  change (S n + m) with (S (n + m)).
  destruct p as [v0|v0|c|h c|t ty k c|t ty k nv ov c|fn o c|e c|e c|e h c|e c|e c|c|c|c|b h c]; cbn [bind]; cbn [exec step] in E;
    [injection E as <- <-; subst r; apply exec_more; [lia|auto]|..];
    cbn [exec step].
  - discriminate.
  - eapply IH; eauto.
  - eapply IH; eauto.
  - apply andThen_Normal_inv in E. destruct E as (v1 & s1 & E1 & E2).
    rewrite (@call_hook_more (exec n) (exec (n + m)) Hm) by (rewrite E1; discriminate).
    rewrite E1. simpl. eapply IH; eauto.
  - apply andThen_Normal_inv in E. destruct E as (v1 & s1 & E1 & E2).
    rewrite (@trigger_more (exec n) (exec (n + m)) Hm) by (rewrite E1; discriminate).
    rewrite E1. simpl. eapply IH; eauto.
  - unfold effect in E |- *.
    destruct (match fn with
              | inl f0 => Some f0
              | inr e' => match get_effect st e' with
                          | Some x => Some (raw x)
                          | None => None
                          end
              end) as [f0|]; [|discriminate].
    simpl in E |- *. destruct (lazy o).
    + eapply IH; eauto.
    + apply andThen_Normal_inv in E. destruct E as (v1 & s1 & E1 & E2).
      rewrite (@reactiveEffect_more (exec n) (exec (n + m)) Hm)
        by (rewrite E1; discriminate).
      rewrite E1. simpl. eapply IH; eauto.
  - apply andThen_Normal_inv in E. destruct E as (v1 & s1 & E1 & E2).
    rewrite (@reactiveEffect_more (exec n) (exec (n + m)) Hm)
      by (rewrite E1; discriminate).
    rewrite E1. simpl. eapply IH; eauto.
  - apply andThen_Normal_inv in E. destruct E as (v1 & s1 & E1 & E2).
    rewrite (@stop_more (exec n) (exec (n + m)) Hm) by (rewrite E1; discriminate).
    rewrite E1. simpl. eapply IH; eauto.
  - eapply IH; eauto.
  - destruct (effect_options st e); [|discriminate].
    apply andThen_Normal_inv in E. destruct E as (v1 & s1 & E1 & E2).
    rewrite (@call_hook_more (exec n) (exec (n + m)) Hm) by (rewrite E1; discriminate).
    rewrite E1. simpl. eapply IH; eauto.
  - destruct (get_effect st e); [|discriminate]. eapply IH; eauto.
  - eapply IH; eauto.
  - eapply IH; eauto.
  - eapply IH; eauto.
  - destruct (exec n b st) as [v1 s1|v1 s1|] eqn:E1; [| |discriminate].
    + rewrite Hm by (rewrite E1; discriminate). rewrite E1. eapply IH; eauto.
    + rewrite Hm by (rewrite E1; discriminate). rewrite E1.
      apply andThen_Normal_inv in E. destruct E as (v2 & s2 & E2 & E3).
      rewrite Hm by (rewrite E2; discriminate). rewrite E2. simpl.
      eapply IH; eauto.
Qed.

Lemma exec_bind_Thrown n : forall p f st v st',
  exec n p st = Thrown v st' -> exec n (bind p f) st = Thrown v st'.
Proof.
  induction n as [|n IH]; intros p f st v st' E; [discriminate|].
  destruct p as [v0|v0|c|h c|t ty k c|t ty k nv ov c|fn o c|e c|e c|e h c|e c|e c|c|c|c|b h c]; cbn [bind]; cbn [exec step] in E |- *; auto;
    try discriminate.
  - apply andThen_Thrown_inv in E. destruct E as [E|(v1 & s1 & E1 & E2)].
    + rewrite E. reflexivity.
    + rewrite E1. simpl. auto.
  - apply andThen_Thrown_inv in E. destruct E as [E|(v1 & s1 & E1 & E2)].
    + rewrite E. reflexivity.
    + rewrite E1. simpl. auto.
  - unfold effect in E |- *.
    destruct (match fn with
              | inl f0 => Some f0
              | inr e' => match get_effect st e' with
                          | Some x => Some (raw x)
                          | None => None
                          end
              end) as [f0|]; [|exact E].
    simpl in E |- *. destruct (lazy o); auto.
    apply andThen_Thrown_inv in E. destruct E as [E|(v1 & s1 & E1 & E2)].
    + rewrite E. reflexivity.
    + rewrite E1. simpl. auto.
  - apply andThen_Thrown_inv in E. destruct E as [E|(v1 & s1 & E1 & E2)].
    + rewrite E. reflexivity.
    + rewrite E1. simpl. auto.
  - apply andThen_Thrown_inv in E. destruct E as [E|(v1 & s1 & E1 & E2)].
    + rewrite E. reflexivity.
    + rewrite E1. simpl. auto.
  - destruct (effect_options st e); [|exact E].
    apply andThen_Thrown_inv in E. destruct E as [E|(v1 & s1 & E1 & E2)].
    + rewrite E. reflexivity.
    + rewrite E1. simpl. auto.
  - destruct (get_effect st e); auto.
  - destruct (exec n b st) as [v1 s1|v1 s1|] eqn:E1; [| |discriminate]; auto.
    apply andThen_Thrown_inv in E. destruct E as [E|(v2 & s2 & E2 & E3)].
    + rewrite E. reflexivity.
    + rewrite E2. simpl. auto.
Qed.

(** ** The delete trap *)

Lemma set_heap_id st : set_heap (heap st) st = st.
Proof. destruct st; reflexivity. Qed.

Lemma heap_lookup_delete h t k t' k' :
  heap_lookup (heap_delete h t k) t' k' =
  if DepId_eqb (t', k') (t, k) then None else heap_lookup h t' k'.
Proof.
  unfold heap_lookup, heap_delete; simpl.
  induction (props h) as [|[d v] m IH]; simpl.
  - destruct (DepId_eqb (t', k') (t, k)); reflexivity.
  - destruct (DepId_eqb d (t, k)) eqn:E1; simpl.
    + rewrite IH. destruct (DepId_eqb (t', k') (t, k)) eqn:E2; auto.
      destruct (DepId_eqb d (t', k')) eqn:E3; auto.
      apply DepId_eqb_eq in E1, E3.
      assert (X : (t', k') = (t, k)) by congruence.
      apply DepId_eqb_eq in X. congruence.
    + rewrite IH. destruct (DepId_eqb d (t', k')) eqn:E3; auto.
      apply DepId_eqb_eq in E3. subst d. rewrite E1. reflexivity.
Qed.

Lemma hasOwn_delete_same h t k : hasOwn (heap_delete h t k) t k = false.
Proof.
  unfold hasOwn. rewrite heap_lookup_delete.
  rewrite (proj2 (DepId_eqb_eq _ _) eq_refl). reflexivity.
Qed.

Lemma heap_get_delete_other h t k t' k' :
  (t', k') <> (t, k) -> heap_get (heap_delete h t k) t' k' = heap_get h t' k'.
Proof.
  intros H. unfold heap_get. rewrite heap_lookup_delete.
  destruct (DepId_eqb (t', k') (t, k)) eqn:E; auto.
  apply DepId_eqb_eq in E. contradiction.
Qed.

(** X8: the delete trap of the mutable handlers.  A key that the target
    does not own: nothing changes and no effect is triggered.  An own key
    that cannot be deleted (a frozen target, the [length] of an array): the
    trap returns [false], nothing changes, no effect is triggered.  Any
    other own key: the property is removed, every other property stays, and
    [trigger(target, DELETE, key, undefined, oldValue)] runs on the new heap
    before the trap returns [true]. *)
Theorem X8_delete_trap st target key n :
  (hasOwn (heap st) target key = false ->
   exists b, exec (4 + n) (deleteProperty target key) st = Normal (VBool b) st /\
             (isArray target = false -> b = true)) /\
  (hasOwn (heap st) target key = true ->
   is_frozen (heap st) target = true \/
   (isArray target = true /\ key = KStr "length") ->
   exec (4 + n) (deleteProperty target key) st = Normal (VBool false) st) /\
  (hasOwn (heap st) target key = true ->
   is_frozen (heap st) target = false ->
   isArray target && Key_eqb key (KStr "length") = false ->
   exec (4 + n) (deleteProperty target key) st =
     andThen (trigger (exec (S n)) target DELETE (Some key) VUndefined
                      (heap_get (heap st) target key)
                      (set_heap (heap_delete (heap st) target key) st))
             (fun _ st' => Normal (VBool true) st') /\
   hasOwn (heap_delete (heap st) target key) target key = false /\
   (forall t' k', (t', k') <> (target, key) ->
      heap_get (heap_delete (heap st) target key) t' k' =
      heap_get (heap st) t' k')).
Proof.
  change (4 + n) with (S (S (S (S n)))).
  unfold deleteProperty. rewrite exec_GetHeap. unfold Reflect_deleteProperty.
  split; [|split].
  - intros Hown. rewrite Hown.
    destruct (isArray target && Key_eqb key (KStr "length")) eqn:Hl.
    + rewrite exec_PutHeap, set_heap_id. exists false. split; [reflexivity|].
      intros Ha. rewrite Ha in Hl. discriminate.
    + rewrite exec_PutHeap, set_heap_id. exists true. split; reflexivity.
  - intros Hown Hcase. rewrite Hown.
    destruct (isArray target && Key_eqb key (KStr "length")) eqn:Hl.
    + rewrite exec_PutHeap, set_heap_id. reflexivity.
    + destruct Hcase as [Hf|[Ha ->]].
      * rewrite Hf, exec_PutHeap, set_heap_id. reflexivity.
      * rewrite Ha in Hl. discriminate.
  - intros Hown Hf Hl. rewrite Hown, Hl, Hf.
    split; [|split].
    + rewrite exec_PutHeap. cbn [andb]. rewrite exec_Trigger. reflexivity.
    + apply hasOwn_delete_same.
    + intros t' k'. apply heap_get_delete_other.
Qed.

(** ** The read traps *)

Lemma track_hook_free t ty k st : hook_free st -> snd (track t ty k st) = None.
Proof.
  intros H. unfold track. destruct (negb (shouldTrack st)); auto.
  destruct (activeEffect st) as [e|] eqn:Ha; auto.
  destruct (Set_has Nat.eqb e (dep_at (log (EvTrack e (t, k)) st) (t, k))); auto.
  cbn [snd]. destruct H as [->|H]; auto.
  destruct __DEV__; auto.
  unfold effect_options. rewrite get_effect_update_same.
  change (get_effect (set_dep ?a ?b (set_dep ?c ?d (log ?ev st))) e)
    with (get_effect st e).
  destruct (get_effect st e) as [x|] eqn:G; auto.
  simpl. rewrite (H e x Ha G). reflexivity.
Qed.

Lemma exec_Track_quiet n t ty k c st :
  snd (track t ty k st) = None ->
  exec (S n) (Track t ty k c) st = exec n c (fst (track t ty k st)).
Proof. intros H. rewrite exec_Track, H. reflexivity. Qed.

Lemma track_heap t ty k st : heap (fst (track t ty k st)) = heap st.
Proof. apply track_frame. Qed.

Lemma hook_free_track t ty k st : hook_free st -> hook_free (fst (track t ty k st)).
Proof.
  intros [H|H]; [left; exact H|right].
  intros e x Ha G.
  destruct (track_frame t ty k st) as (_ & E2 & _). rewrite E2 in Ha.
  destruct (get_effect_track t ty k st e) as (f & Hf & E).
  rewrite E in G. destruct (get_effect st e) as [y|] eqn:Gy; [|discriminate].
  injection G as <-. destruct (Hf y) as (_ & _ & _ & ->). eauto.
Qed.

(** X9: the has and ownKeys traps inside a running effect [e] (tracking on,
    no [onTrack] hook to run): [key in proxy] returns what [Reflect.has]
    gives for the target and leaves [e] subscribed to (target, key), unless
    the key is a built-in symbol, for which nothing is tracked; [ownKeys]
    returns what [Reflect.ownKeys] gives and leaves [e] subscribed to the
    iteration key of the target; the has trap changes no property. *)
Theorem X9_has_and_ownKeys_subscribe Reflect_has builtInSymbols Reflect_ownKeys
  st e target key n :
  activeEffect st = Some e -> shouldTrack st = true -> hook_free st ->
  (isSymbol key && Set_has Key_eqb key builtInSymbols = false ->
   exec (3 + n) (has builtInSymbols Reflect_has target key) st =
     Normal (VBool (Reflect_has (heap st) target key))
            (fst (track target HAS key st)) /\
   In e (dep_at (fst (track target HAS key st)) (target, key)) /\
   heap (fst (track target HAS key st)) = heap st) /\
  (isSymbol key && Set_has Key_eqb key builtInSymbols = true ->
   exec (3 + n) (has builtInSymbols Reflect_has target key) st =
     Normal (VBool (Reflect_has (heap st) target key)) st) /\
  exec (4 + n) (ownKeys Reflect_ownKeys target) st =
    Normal (snd (Reflect_ownKeys (heap st) target))
           (set_heap (fst (Reflect_ownKeys (heap st) target))
                     (fst (track target ITERATE ITERATE_KEY st))) /\
  In e (dep_at (fst (track target ITERATE ITERATE_KEY st)) (target, ITERATE_KEY)).
Proof.
  intros Ha Hs Hq.
  change (3 + n) with (S (S (S n))). change (4 + n) with (S (S (S (S n)))).
  split; [|split; [|split]].
  - intros Hb. split; [|split].
    + unfold has. rewrite exec_GetHeap.
      assert (E : negb (isSymbol key) || negb (Set_has Key_eqb key builtInSymbols)
                  = true).
      { destruct (isSymbol key), (Set_has Key_eqb key builtInSymbols);
          simpl in *; congruence. }
      rewrite E, exec_Track_quiet by (apply track_hook_free; auto).
      reflexivity.
    + apply (@dep_at_track target HAS key st e Hs Ha). auto.
    + apply track_heap.
  - intros Hb. unfold has. rewrite exec_GetHeap.
    apply andb_true_iff in Hb. destruct Hb as [-> ->]. reflexivity.
  - unfold ownKeys. rewrite exec_Track_quiet by (apply track_hook_free; auto).
    rewrite exec_GetHeap, track_heap.
    destruct (Reflect_ownKeys (heap st) target) as [h' keys]. reflexivity.
  - apply (@dep_at_track target ITERATE ITERATE_KEY st e Hs Ha). auto.
Qed.


(** ** A write, then a read *)

Lemma collect_key_In st t ty k m e :
  depsMap_of st t = Some m ->
  In e (collect_key st t ty (Some k) m) -> exists k', In e (dep_at st (t, k')).
Proof.
  intros Hm. unfold collect_key.
  repeat match goal with
         | |- context [match ?ty with SET => _ | ADD => _ | DELETE => _ | CLEAR => _ end] =>
             destruct ty
         | |- context [if ?b then _ else _] => destruct b
         end;
    rewrite ?(@add_Map_get_In st t m _ _ e Hm); simpl;
    intros H; decompose [or and] H; try contradiction; eauto.
Qed.

(** With no effect subscribed to the target, [trigger] does nothing. *)
Lemma trigger_unsubscribed rec t ty k nv ov st :
  (forall k', dep_at st (t, k') = []) -> ty <> CLEAR ->
  is_length (Some k) && isArray t = false ->
  trigger rec t ty (Some k) nv ov st = Normal VUndefined st.
Proof.
  intros Hd Hty Hl. unfold trigger.
  destruct (depsMap_of st t) as [m|] eqn:Hm.
  - rewrite (trigger_effects_key st t k nv Hm Hty Hl).
    destruct (collect_key st t ty (Some k) m) as [|e l] eqn:E; [reflexivity|].
    destruct (@collect_key_In st t ty k m e Hm) as [k' Hin].
    + rewrite E. left. reflexivity.
    + rewrite Hd in Hin. destruct Hin.
  - unfold trigger_effects. rewrite Hm. reflexivity.
Qed.

Lemma createGetter_reads builtInSymbols IS_REACTIVE IS_READONLY RAW instrumented
  proxy_read (isReadonly shallow : bool) st target key receiver n :
  Key_eqb key IS_REACTIVE = false -> Key_eqb key IS_READONLY = false ->
  Key_eqb key RAW = false ->
  (isArray target = true -> arrayInstrumentations instrumented key = None) ->
  isRef (heap st) (heap_get (heap st) target key) = false ->
  hook_free st ->
  (if isSymbol key then Set_has Key_eqb key builtInSymbols
   else Key_eqb key (KStr "__proto__") || Key_eqb key (KStr "__v_isRef")) = false ->
  exec (4 + n)
       (createGetter builtInSymbols IS_REACTIVE IS_READONLY RAW instrumented
          proxy_read isReadonly shallow target key receiver) st =
  Normal (if shallow then heap_get (heap st) target key
          else if isObject (heap_get (heap st) target key)
               then (if isReadonly then readonly (heap_get (heap st) target key)
                     else reactive (heap_get (heap st) target key))
               else heap_get (heap st) target key)
         (if isReadonly then st else fst (track target GET key st)).
Proof.
  intros H1 H2 H3 H4 Href Hq Hk.
  assert (Hinst : (if isArray target then arrayInstrumentations instrumented key
                   else None) = None).
  { destruct (isArray target); auto. }
  change (4 + n) with (S (S (S (S n)))).
  unfold createGetter. rewrite H1, H2, H3. cbn [andb].
  rewrite Hinst, exec_GetHeap, Hk.
  destruct isReadonly.
  - destruct shallow; [reflexivity|].
    rewrite exec_GetHeap, Href.
    destruct (isObject (heap_get (heap st) target key)); reflexivity.
  - rewrite exec_Track_quiet by (apply track_hook_free; auto).
    destruct shallow; [reflexivity|].
    rewrite exec_GetHeap, track_heap, Href.
    destruct (isObject (heap_get (heap st) target key)); reflexivity.
Qed.

Lemma reactive_convert v : (if isObject v then reactive v else v) = reactive v.
Proof. destruct v; reflexivity. Qed.

(** X11: a write [proxy[key] = v] through the mutable proxy of a plain
    object, then a read of the same key through it, where
    - the target is no array and is not frozen, and the receiver is its proxy;
    - the value held at the key before the write is no ref, and the raw value
      written, [toRaw(v)], is no ref either (a ref on either side takes the
      unwrapping branches of the traps);
    - the key is none of the [ReactiveFlags], no built-in symbol, and neither
      "__proto__" nor "__v_isRef";
    - no effect is subscribed to a key of the target, and no [onTrack] hook is
      to run.
    Then the two traps return within 8 levels of calls, the target holds the
    raw value ([toRaw(v)], never a proxy), and the read returns
    [reactive(toRaw(v))], which stands for the same raw value: the value
    itself when it is a primitive or the reactive proxy of a raw object. *)
Theorem X11_set_then_get builtInSymbols IS_REACTIVE IS_READONLY RAW instrumented
  proxy_read computed_setter st target key v receiver n :
  toRaw receiver = VObj target -> isArray target = false ->
  is_frozen (heap st) target = false ->
  isRef (heap st) (heap_get (heap st) target key) = false ->
  isRef (heap_put (heap st) target key (toRaw v)) (toRaw v) = false ->
  Key_eqb key IS_REACTIVE = false -> Key_eqb key IS_READONLY = false ->
  Key_eqb key RAW = false ->
  (if isSymbol key then Set_has Key_eqb key builtInSymbols
   else Key_eqb key (KStr "__proto__") || Key_eqb key (KStr "__v_isRef")) = false ->
  (forall k, dep_at st (target, k) = []) ->
  hook_free st ->
  8 <= n ->
  exec n (bind (set computed_setter target key v receiver)
               (fun _ => get builtInSymbols IS_REACTIVE IS_READONLY RAW instrumented
                             proxy_read target key receiver)) st =
    Normal (reactive (toRaw v))
           (fst (track target GET key
                   (set_heap (heap_put (heap st) target key (toRaw v)) st))) /\
  heap_get (heap_put (heap st) target key (toRaw v)) target key = toRaw v /\
  toRaw (reactive (toRaw v)) = toRaw v /\
  (isObject v = false -> reactive (toRaw v) = v) /\
  (forall t, v = VProxy false (VObj t) -> reactive (toRaw v) = v).
Proof.
  intros Hrecv Ha Hf Hold Hnew H1 H2 H3 Hk Hd Hq Hn.
  set (st1 := set_heap (heap_put (heap st) target key (toRaw v)) st).
  assert (Hset : exec 4 (set computed_setter target key v receiver) st =
                 Normal (VBool true) st1).
  { unfold set, createSetter. rewrite exec_GetHeap.
    cbn [negb andb]. rewrite Hold, andb_false_r. cbn [andb].
    unfold Reflect_set. rewrite Hf, Hrecv. unfold define_property.
    rewrite Hf, Ha. cbn [andb]. rewrite exec_PutHeap.
    assert (Eq : value_eqb (VObj target) (VObj target) = true).
    { simpl. apply Target_eqb_refl. }
    rewrite Eq. fold st1.
    assert (Hl : forall k0, is_length (Some k0) && isArray target = false).
    { intros k0. rewrite Ha. apply andb_false_r. }
    destruct (negb (hadKey (heap st) target key)).
    - rewrite exec_Trigger, trigger_unsubscribed; auto; discriminate.
    - destruct (hasChanged (toRaw v) (heap_get (heap st) target key)).
      + rewrite exec_Trigger, trigger_unsubscribed; auto; discriminate.
      + reflexivity. }
  assert (Hget : exec 4 (get builtInSymbols IS_REACTIVE IS_READONLY RAW instrumented
                             proxy_read target key receiver) st1 =
                 Normal (reactive (toRaw v)) (fst (track target GET key st1))).
  { unfold get. change 4 with (4 + 0).
    rewrite createGetter_reads; auto.
    - change (heap st1) with (heap_put (heap st) target key (toRaw v)).
      rewrite heap_get_put_same, reactive_convert. reflexivity.
    - intros Ha'. congruence.
    - change (heap st1) with (heap_put (heap st) target key (toRaw v)).
      rewrite heap_get_put_same. exact Hnew. }
  split; [|split; [|split; [|split]]].
  - rewrite (@exec_more (4 + 4) n); [|lia|].
    + eapply exec_bind_Normal; [exact Hset|exact Hget|discriminate].
    + rewrite (@exec_bind_Normal 4 _ _ _ _ _ 4 _ Hset Hget); discriminate.
  - apply heap_get_put_same.
  - clear. induction v; simpl; auto.
  - destruct v; simpl; auto; discriminate.
  - intros t ->. reflexivity.
Qed.

(** ** The instrumented array methods *)

Lemma exec_track_indices arr c m : forall n i st,
  hook_free st ->
  exec (n + m) (track_indices arr i n c) st = exec m c (after_tracks arr i n st).
Proof.
  induction n as [|n IH]; intros i st Hq; [reflexivity|].
  change (S n + m) with (S (n + m)). cbn [track_indices after_tracks].
  rewrite exec_Track_quiet by (apply track_hook_free; auto).
  apply IH. apply hook_free_track; auto.
Qed.

Lemma after_tracks_frame arr : forall n i st,
  heap (after_tracks arr i n st) = heap st /\
  activeEffect (after_tracks arr i n st) = activeEffect st /\
  shouldTrack (after_tracks arr i n st) = shouldTrack st /\
  effectStack (after_tracks arr i n st) = effectStack st /\
  trackStack (after_tracks arr i n st) = trackStack st.
Proof.
  induction n as [|n IH]; intros i st; cbn [after_tracks]; auto.
  destruct (IH (S i) (fst (track arr GET (index_key i) st))) as (-> & -> & -> & -> & ->).
  destruct (track_frame arr GET (index_key i) st) as (E1 & E2 & _ & E4 & E5 & E6).
  auto.
Qed.

Lemma dep_at_after_tracks arr e : forall n i st,
  shouldTrack st = true -> activeEffect st = Some e ->
  forall x d, In x (dep_at (after_tracks arr i n st) d) <->
              In x (dep_at st d) \/
              (x = e /\ exists j, i <= j < i + n /\ d = (arr, index_key j)).
Proof.
  induction n as [|n IH]; intros i st Hs Ha x d; cbn [after_tracks].
  - split; auto. intros [H|(_ & j & Hj & _)]; auto. lia.
  - destruct (track_frame arr GET (index_key i) st) as (_ & E2 & _ & E4 & _).
    rewrite IH by congruence.
    rewrite (@dep_at_track arr GET (index_key i) st e Hs Ha). split.
    + intros [[H|[-> ->]]|(-> & j & Hj & ->)]; auto.
      * right. split; auto. exists i. split; [lia|auto].
      * right. split; auto. exists j. split; [lia|auto].
    + intros [H|(-> & j & Hj & ->)]; auto.
      destruct (Nat.eq_dec j i) as [->|Hne]; auto.
      right. split; auto. exists j. split; [lia|auto].
Qed.

(** X12: the instrumented [includes], [indexOf] and [lastIndexOf], called
    inside a running effect [e] (tracking on, no [onTrack] hook to run) once
    [this.length] has given [l]: the effect is subscribed to every index
    below [l] of the raw array, whatever proxy [this] is, and to nothing
    else; no property changes; the result is that of the native method on
    the raw array with the arguments as given, and when that is [-1] or
    [false], that of the native method with the raw arguments. *)
Theorem X12_search_methods_track_indices proxy_read Array_prototype
  key this args arr st st0 e n0 l n :
  toRaw this = VObj arr ->
  exec n0 (this_length proxy_read this) st = Normal (VNum (Z.of_nat l)) st0 ->
  activeEffect st0 = Some e -> shouldTrack st0 = true -> hook_free st0 ->
  n0 + l + 2 <= n ->
  let res := Array_prototype key (heap st0) arr args in
  exec n (search_instrumentation proxy_read Array_prototype key this args) st =
    Normal (if strict_equal res (VNum (-1)) || strict_equal res (VBool false)
            then Array_prototype key (heap st0) arr (map toRaw args)
            else res)
           (after_tracks arr 0 l st0) /\
  heap (after_tracks arr 0 l st0) = heap st0 /\
  (forall i, i < l -> In e (dep_at (after_tracks arr 0 l st0) (arr, index_key i))) /\
  (forall x d, In x (dep_at (after_tracks arr 0 l st0) d) <->
               In x (dep_at st0 d) \/
               (x = e /\ exists i, i < l /\ d = (arr, index_key i))).
Proof.
  intros Hraw Hlen Ha Hs Hq Hn res.
  assert (Hdep : forall x d, In x (dep_at (after_tracks arr 0 l st0) d) <->
               In x (dep_at st0 d) \/
               (x = e /\ exists i, i < l /\ d = (arr, index_key i))).
  { intros x d. rewrite (@dep_at_after_tracks arr e l 0 st0 Hs Ha). split.
    - intros [H|(-> & j & Hj & ->)]; auto. right. split; auto. exists j.
      split; [lia|auto].
    - intros [H|(-> & j & Hj & ->)]; auto. right. split; auto. exists j.
      split; [lia|auto]. }
  destruct (after_tracks_frame arr l 0 st0) as (Eh & _).
  split; [|split; [exact Eh|split; [|exact Hdep]]].
  - unfold search_instrumentation. rewrite Hraw.
    set (body := fun l0 : value =>
           track_indices arr 0 (match l0 with VNum z => Z.to_nat z | _ => 0 end)
             (GetHeap (fun h =>
                let res0 := Array_prototype key h arr args in
                if strict_equal res0 (VNum (-1)) || strict_equal res0 (VBool false)
                then Ret (Array_prototype key h arr (map toRaw args))
                else Ret res0))).
    assert (Hbody : exec (l + 2) (body (VNum (Z.of_nat l))) st0 =
                    Normal (if strict_equal res (VNum (-1)) ||
                               strict_equal res (VBool false)
                            then Array_prototype key (heap st0) arr (map toRaw args)
                            else res)
                           (after_tracks arr 0 l st0)).
    { unfold body. rewrite Nat2Z.id, exec_track_indices by auto.
      change 2 with (S (S 0)). rewrite exec_GetHeap, Eh. fold res.
      destruct (strict_equal res (VNum (-1)) || strict_equal res (VBool false));
        reflexivity. }
    rewrite (@exec_more (n0 + (l + 2)) n); [|lia|].
    + eapply exec_bind_Normal; [exact Hlen|exact Hbody|discriminate].
    + rewrite (@exec_bind_Normal n0 _ _ _ _ _ (l + 2) _ Hlen Hbody); discriminate.
  - intros i Hi. apply Hdep. right. split; auto. exists i. auto.
Qed.

(** X13: the instrumented [push], [pop], [shift], [unshift] and [splice].
    The native method runs with tracking paused.  When it returns, the
    wrapper returns its result after [enableTracking()]: tracking is then on,
    whatever it was before the call, and the tracking-state stack holds two
    entries more than before when the method left it as it found it.  When
    the method throws, the exception passes with [enableTracking()] not
    called. *)
Theorem X13_length_altering_methods method st n :
  shouldTrack (pauseTracking st) = false /\
  (forall res st1 m,
     exec n method (pauseTracking st) = Normal res st1 -> n + 3 <= m ->
     exec m (length_altering_method method) st = Normal res (enableTracking st1) /\
     shouldTrack (enableTracking st1) = true /\
     (trackStack st1 = trackStack (pauseTracking st) ->
      trackStack (enableTracking st1) =
        shouldTrack st1 :: shouldTrack st :: trackStack st)) /\
  (forall x st1 m,
     exec n method (pauseTracking st) = Thrown x st1 -> n < m ->
     exec m (length_altering_method method) st = Thrown x st1).
Proof.
  split; [reflexivity|split].
  - intros res st1 m E Hm. split; [|split].
    + assert (H2 : exec 2 (EnableTracking (Ret res)) st1 =
                   Normal res (enableTracking st1)) by reflexivity.
      pose proof (@exec_bind_Normal n method
                    (fun res0 => EnableTracking (Ret res0)) _ _ _ 2 _ E H2)
        as Hb.
      rewrite (@exec_more (S (n + 2)) m); [|lia|].
      * unfold length_altering_method. cbn [exec step]. apply Hb. discriminate.
      * unfold length_altering_method. cbn [exec step].
        rewrite Hb; discriminate.
    + reflexivity.
    + intros Hst. unfold enableTracking at 1. cbn [trackStack set_tracking].
      rewrite Hst. reflexivity.
  - intros x st1 m E Hm.
    pose proof (@exec_bind_Thrown n method
                  (fun res0 => EnableTracking (Ret res0)) _ _ _ E) as Hb.
    rewrite (@exec_more (S n) m); [|lia|].
    + unfold length_altering_method. cbn [exec step]. exact Hb.
    + unfold length_altering_method. cbn [exec step]. rewrite Hb. discriminate.
Qed.

(** ** Refs *)

(** X14: [ref], [shallowRef] and [unref].  A value that is a ref already is
    returned as it is and nothing is made; [unref] of a value that is no ref
    is the value.  Otherwise a new cell is made, it is a ref, and [unref] of
    it is [convert(value)] for [ref] (the reactive proxy of a raw object, a
    primitive as it is) and the value itself for [shallowRef]; that read
    tracks (cell, "value"). *)
Theorem X14_ref_and_unref proxy_read st this v (shallow : bool) n :
  (isRef (heap st) v = true ->
   exec (2 + n) (createRef this v shallow) st = Normal v st) /\
  (isRef (heap st) v = false ->
   exec (2 + n) (unref proxy_read v) st = Normal v st) /\
  (isRef (heap st) v = false -> tkind this = RefImplObject -> hook_free st ->
   let h1 :=
     heap_put
       (heap_put (heap_put (heap st) this (KStr "_rawValue") v)
                 this (KStr "_shallow") (VBool shallow))
       this (KStr "_value") (if shallow then v else convert v) in
   exec (4 + n) (createRef this v shallow) st = Normal (VObj this) (set_heap h1 st) /\
   isRef h1 (VObj this) = true /\
   exec (8 + n) (bind (createRef this v shallow) (unref proxy_read)) st =
     Normal (if shallow then v else convert v)
            (fst (track this GET (KStr "value") (set_heap h1 st)))).
Proof.
  split; [|split].
  - intros H. change (2 + n) with (S (S n)). unfold createRef.
    rewrite exec_GetHeap, H. reflexivity.
  - intros H. change (2 + n) with (S (S n)). unfold unref.
    rewrite exec_GetHeap, H. reflexivity.
  - intros H Hk Hq h1.
    assert (Hmake : forall k, exec (4 + k) (createRef this v shallow) st =
                              Normal (VObj this) (set_heap h1 st)).
    { intros k. change (4 + k) with (S (S (S (S k)))). unfold createRef.
      rewrite exec_GetHeap, H. unfold RefImpl_constructor.
      rewrite exec_GetHeap, exec_PutHeap. reflexivity. }
    assert (Hisref : isRef h1 (VObj this) = true).
    { simpl. rewrite Hk. reflexivity. }
    split; [apply Hmake|split; [exact Hisref|]].
    assert (Hread : exec 4 (unref proxy_read (VObj this)) (set_heap h1 st) =
                    Normal (if shallow then v else convert v)
                           (fst (track this GET (KStr "value") (set_heap h1 st)))).
    { unfold unref. rewrite exec_GetHeap.
      change (heap (set_heap h1 st)) with h1. rewrite Hisref.
      unfold ref_value. rewrite Hk. unfold RefImpl_get_value.
      rewrite exec_Track_quiet by (apply track_hook_free; exact Hq).
      rewrite exec_GetHeap, track_heap.
      change (heap (set_heap h1 st)) with h1. unfold h1.
      rewrite heap_get_put_same. reflexivity. }
    rewrite (@exec_more (4 + 4) (8 + n)); [|lia|].
    + eapply exec_bind_Normal; [exact (Hmake 0)|exact Hread|discriminate].
    + rewrite (@exec_bind_Normal 4 _ _ _ _ _ 4 _ (Hmake 0) Hread); discriminate.
Qed.

Lemma RefImpl_set_value_unsubscribed st this v :
  (forall k, dep_at st (this, k) = []) ->
  exec 4 (RefImpl_set_value this v) st =
    Normal VUndefined
      (if RefImpl_changed (heap st) this v
       then set_heap (RefImpl_store (heap st) this v) st
       else st).
Proof.
  intros Hd. unfold RefImpl_set_value. rewrite exec_GetHeap.
  destruct (RefImpl_changed (heap st) this v); [|reflexivity].
  rewrite exec_PutHeap, exec_Trigger, trigger_unsubscribed; auto; discriminate.
Qed.

Lemma RefImpl_get_value_quiet st this n :
  hook_free st ->
  exec (3 + n) (RefImpl_get_value this) st =
    Normal (heap_get (heap st) this (KStr "_value"))
           (fst (track this GET (KStr "value") st)).
Proof.
  intros Hq. change (3 + n) with (S (S (S n))). unfold RefImpl_get_value.
  rewrite exec_Track_quiet by (apply track_hook_free; exact Hq).
  rewrite exec_GetHeap, track_heap. reflexivity.
Qed.

(** X15: [r.value = v] and then a read of [r.value], with no effect
    subscribed to the ref.  When the raw of [v] differs from the stored raw
    value, the read gives [convert(v)], or [v] itself for a shallow ref;
    when it does not differ, the assignment changes nothing and the read
    gives the value held before. *)
Theorem X15_ref_write_then_read st this v n :
  (forall k, dep_at st (this, k) = []) -> hook_free st -> 7 <= n ->
  (RefImpl_changed (heap st) this v = true ->
   exec n (bind (RefImpl_set_value this v) (fun _ => RefImpl_get_value this)) st =
     Normal (if truthy (heap_get (heap st) this (KStr "_shallow")) then v
             else convert v)
            (fst (track this GET (KStr "value")
                    (set_heap (RefImpl_store (heap st) this v) st)))) /\
  (RefImpl_changed (heap st) this v = false ->
   exec n (bind (RefImpl_set_value this v) (fun _ => RefImpl_get_value this)) st =
     Normal (heap_get (heap st) this (KStr "_value"))
            (fst (track this GET (KStr "value") st))).
Proof.
  intros Hd Hq Hn.
  pose proof (@RefImpl_set_value_unsubscribed st this v Hd) as Hset.
  split; intros Hc; rewrite Hc in Hset.
  - assert (Hget : exec 3 (RefImpl_get_value this)
                        (set_heap (RefImpl_store (heap st) this v) st) =
                   Normal (if truthy (heap_get (heap st) this (KStr "_shallow"))
                           then v else convert v)
                          (fst (track this GET (KStr "value")
                                  (set_heap (RefImpl_store (heap st) this v) st)))).
    { change 3 with (3 + 0). rewrite RefImpl_get_value_quiet by exact Hq.
      change (heap (set_heap ?h st)) with h. unfold RefImpl_store.
      rewrite heap_get_put_same. reflexivity. }
    rewrite (@exec_more (4 + 3) n); [|lia|].
    + eapply exec_bind_Normal; [exact Hset|exact Hget|discriminate].
    + rewrite (@exec_bind_Normal 4 _ _ _ _ _ 3 _ Hset Hget); discriminate.
  - assert (Hget : exec 3 (RefImpl_get_value this) st =
                   Normal (heap_get (heap st) this (KStr "_value"))
                          (fst (track this GET (KStr "value") st))).
    { change 3 with (3 + 0). apply RefImpl_get_value_quiet. exact Hq. }
    rewrite (@exec_more (4 + 3) n); [|lia|].
    + eapply exec_bind_Normal; [exact Hset|exact Hget|discriminate].
    + rewrite (@exec_bind_Normal 4 _ _ _ _ _ 3 _ Hset Hget); discriminate.
Qed.

(** X16: [triggerRef(r)] triggers (r, SET, "value") whether or not the
    value changed.  A production build passes [undefined] as the new value
    and reads nothing.  A development build reads [r.value] first to pass
    it, and that read tracks: called inside a running effect, [triggerRef]
    leaves that effect subscribed to the ref. *)
Theorem X16_triggerRef proxy_read st r n :
  (__DEV__ = false ->
   exec (2 + n) (triggerRef proxy_read r) st =
     andThen (trigger (exec (S n)) r SET (Some (KStr "value")) VUndefined VUndefined
                      st)
             (fun _ st' => Normal VUndefined st')) /\
  (__DEV__ = true -> tkind r = RefImplObject -> hook_free st ->
   exec (4 + n) (triggerRef proxy_read r) st =
     andThen (trigger (exec (S n)) r SET (Some (KStr "value"))
                      (heap_get (heap st) r (KStr "_value")) VUndefined
                      (fst (track r GET (KStr "value") st)))
             (fun _ st' => Normal VUndefined st') /\
   (forall e, activeEffect st = Some e -> shouldTrack st = true ->
              In e (dep_at (fst (track r GET (KStr "value") st)) (r, KStr "value")))).
Proof.
  split.
  - intros Hdev. unfold triggerRef. rewrite Hdev.
    change (2 + n) with (S (S n)). rewrite exec_Trigger. reflexivity.
  - intros Hdev Hk Hq. split.
    + unfold triggerRef, ref_value. rewrite Hdev, Hk.
      unfold RefImpl_get_value. cbn [bind].
      change (4 + n) with (S (S (S (S n)))).
      rewrite exec_Track_quiet by (apply track_hook_free; exact Hq).
      rewrite exec_GetHeap, track_heap, exec_Trigger. reflexivity.
    + intros e Ha Hs.
      apply (@dep_at_track r GET (KStr "value") st e Hs Ha). auto.
Qed.


(** ** Making and stopping effects *)

Lemma get_effect_create_other fn o st i :
  i <> List.length (effects st) ->
  get_effect (snd (createReactiveEffect fn o st)) i = get_effect st i.
Proof.
  intros Hne. unfold get_effect, createReactiveEffect; simpl.
  destruct (Nat.lt_ge_cases i (List.length (effects st))) as [Hlt|Hge].
  - apply nth_error_app1. exact Hlt.
  - rewrite (proj2 (nth_error_None (effects st) i)) by exact Hge.
    apply nth_error_None. rewrite length_app. simpl. lia.
Qed.

Lemma get_effect_create_new fn o st :
  get_effect (snd (createReactiveEffect fn o st)) (List.length (effects st)) =
  Some (mkEffect (uid st) true fn [] o).
Proof.
  unfold get_effect, createReactiveEffect; simpl.
  rewrite nth_error_app2 by lia. rewrite Nat.sub_diag. reflexivity.
Qed.

Lemma effect_unfold rec fn o c st :
  effect rec (inl fn) o c st =
  if lazy o then rec (c (List.length (effects st))) (snd (createReactiveEffect fn o st))
  else andThen (reactiveEffect rec (List.length (effects st))
                               (snd (createReactiveEffect fn o st)))
               (fun _ st2 => rec (c (List.length (effects st))) st2).
Proof. reflexivity. Qed.

(** X18: [effect(fn, options)] makes a new effect object: active, with an
    empty [deps], the raw function and the options given; the effects that
    exist and the registry stay as they are.  With [lazy] the
    function is not run; without it the new effect is invoked at once, [fn]
    running as the current effect.  Given an effect instead of a function,
    [effect] wraps the raw function of that effect. *)
Theorem X18_effect_creation fn o c st n :
  let e := List.length (effects st) in
  let st1 := snd (createReactiveEffect fn o st) in
  get_effect st e = None /\
  get_effect st1 e = Some (mkEffect (uid st) true fn [] o) /\
  (forall i, i <> e -> get_effect st1 i = get_effect st i) /\
  (forall d, dep_at st1 d = dep_at st d) /\
  (lazy o = true -> exec (S n) (Effect (inl fn) o c) st = exec n (c e) st1) /\
  (lazy o = false -> Forall (valid_effect st) (effectStack st) ->
   exec (S n) (Effect (inl fn) o c) st =
     andThen (run_finally (exec n fn (enter_effect e st1)))
             (fun _ st2 => exec n (c e) st2)) /\
  (forall e' x, get_effect st e' = Some x ->
     exec (S n) (Effect (inr e') o c) st = exec (S n) (Effect (inl (raw x)) o c) st).
Proof.
  intros e st1. split; [|split; [|split; [|split; [|split; [|split]]]]].
  - apply nth_error_None. unfold e. lia.
  - apply get_effect_create_new.
  - intros i Hi. apply get_effect_create_other. exact Hi.
  - reflexivity.
  - intros Hl. cbn [exec step]. rewrite effect_unfold, Hl. reflexivity.
  - intros Hl Hst. cbn [exec step]. rewrite effect_unfold, Hl. fold e. fold st1.
    assert (Hnot : existsb (Nat.eqb e) (effectStack st) = false).
    { destruct (existsb (Nat.eqb e) (effectStack st)) eqn:E; [|reflexivity].
      apply existsb_exists in E. destruct E as (y & Hy & Ey).
      apply Nat.eqb_eq in Ey. subst y.
      rewrite Forall_forall in Hst. specialize (Hst e Hy).
      unfold valid_effect, e in Hst. lia. }
    rewrite (@reactiveEffect_runs st1 e (mkEffect (uid st) true fn [] o) (exec n)
               (get_effect_create_new fn o st) eq_refl Hnot).
    reflexivity.
  - intros e' x G. cbn [exec step]. unfold effect. rewrite G. reflexivity.
Qed.

Lemma stop_inactive n e v st st' :
  stop (exec n) e st = Normal v st' ->
  exists x, get_effect st' e = Some x /\ active x = false.
Proof.
  intros H. unfold stop in H. destruct (get_effect st e) as [x|] eqn:G;
    [|discriminate].
  destruct (active x) eqn:A.
  - destruct (call_hook (exec n) (onStop (options x)) (cleanup e st))
      as [v' s2|v' s2|] eqn:Eh; simpl in H; try discriminate.
    injection H as <- <-.
    assert (Hlen : List.length (effects st) <= List.length (effects s2)).
    { destruct (cleanup_frame e st) as (_ & _ & _ & _ & _ & _ & <-).
      apply (holds_after_ends_in effects_kept (cleanup e st)
               (call_hook (exec n) (onStop (options x)) (cleanup e st))).
      - apply call_hook_exec_rel, effects_kept_run_invariant.
      - rewrite Eh. reflexivity. }
    destruct (get_effect s2 e) as [y|] eqn:G2.
    + rewrite get_effect_update_same, G2. simpl. eauto.
    + unfold get_effect in G, G2. apply nth_error_None in G2.
      assert (e < List.length (effects st)) by (apply nth_error_Some; congruence).
      lia.
  - injection H as <- <-. eauto.
Qed.

(** X19: [stop] is final.  Once [stop(e)] has returned for an effect that
    was not running, whatever runs afterwards leaves [e] inactive, with the
    [deps] list and the memberships it had when [stop] returned: nothing
    subscribes it again. *)
Theorem X19_stop_is_final n e v st st' m p st'' :
  current_is_top st -> ~ In e (effectStack st) ->
  stop (exec n) e st = Normal v st' ->
  ends_in (exec m p st') st'' ->
  (exists x, get_effect st'' e = Some x /\ active x = false) /\
  effect_deps st'' e = effect_deps st' e /\
  (forall d, In e (dep_at st'' d) <-> In e (dep_at st' d)).
Proof.
  intros Htop Hnot Hstop E.
  assert (Hk : stack_kept st st').
  { apply (holds_after_ends_in stack_kept st (stop (exec n) e st) st').
    - apply stop_exec_rel, stack_kept_run_invariant.
    - rewrite Hstop. reflexivity. }
  destruct Hk as [Es Ht]. specialize (Ht Htop).
  assert (Hd : dormant e st').
  { split; [exact (@stop_inactive n e v st st' Hstop)|]. split.
    - rewrite Es. exact Hnot.
    - unfold current_is_top in Ht. rewrite Ht, Es. intros Hh.
      apply Hnot. destruct (effectStack st) as [|a l]; [discriminate|].
      injection Hh as ->. left. reflexivity. }
  destruct (holds_after_ends_in
              (fun a b => dormant e a -> dormant e b /\ same_subscriptions e a b)
              st' (exec m p st') st'') as ((H1 & _) & H2 & H3); auto.
  apply exec_guarded, dormant_guarded_invariant.
Qed.

(** ** Two reads of a computed ref *)

Lemma reactiveEffect_exec_more n m e st :
  n <= m -> reactiveEffect (exec n) e st <> OutOfFuel ->
  reactiveEffect (exec m) e st = reactiveEffect (exec n) e st.
Proof.
  intros Hle. apply reactiveEffect_more. intros p s. apply exec_more. exact Hle.
Qed.

(** X20: two reads of [c.value] in a row, the first with [_dirty] set: the
    lazy effect is invoked once, by the first read; the second read returns
    the cached value without invoking it. *)
Theorem X20_computed_read_twice st this e v st1 m n :
  truthy (heap_get (heap st) this (KStr "_dirty")) = true ->
  heap_get (heap st) this (KStr "effect") = VEffect e ->
  reactiveEffect (exec m) e st = Normal v st1 ->
  hook_free st1 ->
  m + 11 <= n ->
  exec n (bind (ComputedRefImpl_get_value this)
               (fun _ => ComputedRefImpl_get_value this)) st =
    Normal v
      (fst (track this GET (KStr "value")
         (fst (track this GET (KStr "value")
                 (set_heap (computed_cache (heap st1) this v) st1))))).
Proof.
  intros Hdirty Heff Hrun Hq Hn.
  set (st2 := set_heap (computed_cache (heap st1) this v) st1).
  set (st3 := fst (track this GET (KStr "value") st2)).
  assert (Hcached : heap_get (heap st3) this (KStr "_value") = v /\
                    truthy (heap_get (heap st3) this (KStr "_dirty")) = false).
  { unfold st3. rewrite track_heap. unfold st2.
    change (heap (set_heap ?h st1)) with h. apply computed_cache_spec. }
  destruct Hcached as [Hv Hclean].
  assert (Hfirst : exec (m + 7) (ComputedRefImpl_get_value this) st = Normal v st3).
  { replace (m + 7) with (S (S (m + 5))) by lia.
    unfold ComputedRefImpl_get_value. rewrite exec_GetHeap, Hdirty, Heff, exec_Call.
    rewrite (@reactiveEffect_exec_more m (m + 5)); [|lia|rewrite Hrun; discriminate].
    rewrite Hrun. cbn [andThen].
    replace (m + 5) with (S (S (S (S (S m))))) by lia.
    rewrite exec_GetHeap, exec_PutHeap. fold st2.
    unfold computed_track_and_return.
    rewrite exec_Track_quiet by (apply track_hook_free; exact Hq).
    fold st3. rewrite exec_GetHeap, Hv. reflexivity. }
  assert (Hsecond : exec 4 (ComputedRefImpl_get_value this) st3 =
                    Normal v (fst (track this GET (KStr "value") st3))).
  { unfold ComputedRefImpl_get_value. rewrite exec_GetHeap, Hclean. cbn [negb].
    unfold computed_track_and_return.
    rewrite exec_Track_quiet
      by (apply track_hook_free; unfold st3; apply hook_free_track; exact Hq).
    rewrite exec_GetHeap, track_heap, Hv. reflexivity. }
  rewrite (@exec_more (m + 7 + 4) n); [|lia|].
  - eapply exec_bind_Normal; [exact Hfirst|exact Hsecond|discriminate].
  - rewrite (@exec_bind_Normal (m + 7) _ _ _ _ _ 4 _ Hfirst Hsecond); discriminate.
Qed.

(** ** Refs held by a reactive object *)

(** X21: the get trap on a key that holds a ref.  The deep traps on an
    object that is no array, and on an array for a key that is no integer,
    return the value of the ref, whose getter tracks (ref, "value"), also
    through the readonly trap; on an array with an integer key, and in
    shallow mode, they return the ref itself.  The mutable traps track
    (target, key) first. *)
Theorem X21_get_unwraps_refs builtInSymbols IS_REACTIVE IS_READONLY RAW instrumented
  proxy_read (isReadonly shallow : bool) st target key receiver r n :
  Key_eqb key IS_REACTIVE = false -> Key_eqb key IS_READONLY = false ->
  Key_eqb key RAW = false ->
  (isArray target = true -> arrayInstrumentations instrumented key = None) ->
  (if isSymbol key then Set_has Key_eqb key builtInSymbols
   else Key_eqb key (KStr "__proto__") || Key_eqb key (KStr "__v_isRef")) = false ->
  heap_get (heap st) target key = VObj r -> tkind r = RefImplObject ->
  hook_free st ->
  let get := createGetter builtInSymbols IS_REACTIVE IS_READONLY RAW instrumented
               proxy_read isReadonly shallow in
  let st1 := if isReadonly then st else fst (track target GET key st) in
  (shallow = true \/ (isArray target = true /\ isIntegerKey key = true) ->
   exec (4 + n) (get target key receiver) st = Normal (VObj r) st1) /\
  (shallow = false -> isArray target = false \/ isIntegerKey key = false ->
   exec (7 + n) (get target key receiver) st =
     Normal (heap_get (heap st) r (KStr "_value"))
            (fst (track r GET (KStr "value") st1))).
Proof.
  intros H1 H2 H3 H4 Hk Hr Hkind Hq get st1. subst get st1.
  assert (Hinst : (if isArray target then arrayInstrumentations instrumented key
                   else None) = None).
  { destruct (isArray target); auto. }
  assert (Href : isRef (heap st) (VObj r) = true) by (simpl; rewrite Hkind; reflexivity).
  split.
  - intros Hcase. change (4 + n) with (S (S (S (S n)))).
    unfold createGetter. rewrite H1, H2, H3. cbn [andb].
    rewrite Hinst, exec_GetHeap, Hk, Hr.
    destruct isReadonly.
    + destruct shallow; [reflexivity|].
      destruct Hcase as [Hc|[Ha Hi]]; [discriminate|].
      rewrite exec_GetHeap, Href, Ha, Hi. reflexivity.
    + rewrite exec_Track_quiet by (apply track_hook_free; auto).
      destruct shallow; [reflexivity|].
      destruct Hcase as [Hc|[Ha Hi]]; [discriminate|].
      rewrite exec_GetHeap, track_heap, Href, Ha, Hi. reflexivity.
  - intros -> Hcase.
    assert (Hun : negb (isArray target) || negb (isIntegerKey key) = true).
    { destruct Hcase as [-> | ->]; [reflexivity|apply orb_true_r]. }
    unfold createGetter. rewrite H1, H2, H3. cbn [andb]. rewrite Hinst.
    destruct isReadonly.
    + change (7 + n) with (S (S (3 + (2 + n)))).
      rewrite exec_GetHeap, Hk, Hr, exec_GetHeap, Href, Hun.
      unfold ref_value. rewrite Hkind. apply RefImpl_get_value_quiet. exact Hq.
    + change (7 + n) with (S (S (S (3 + (1 + n))))).
      rewrite exec_GetHeap, Hk, Hr.
      rewrite exec_Track_quiet by (apply track_hook_free; auto).
      rewrite exec_GetHeap, track_heap, Href, Hun.
      unfold ref_value. rewrite Hkind.
      rewrite RefImpl_get_value_quiet by (apply hook_free_track; exact Hq).
      rewrite track_heap. reflexivity.
Qed.

(** X22: the set trap of the mutable handlers on a key of an object (no
    array) that holds a ref, with a new value that is no ref: the value goes
    into the ref ([oldValue.value = value]), the ref stays in the object, no
    effect of the object is triggered, and the trap returns [true]; with no
    effect subscribed to the ref, the state is that of the assignment to the
    ref. *)
Theorem X22_set_assigns_through_ref computed_setter st target key v receiver r n :
  isArray target = false ->
  heap_get (heap st) target key = VObj r -> tkind r = RefImplObject ->
  isRef (heap st) (toRaw v) = false ->
  (forall k, dep_at st (r, k) = []) ->
  exec (6 + n) (set computed_setter target key v receiver) st =
    Normal (VBool true)
      (if RefImpl_changed (heap st) r (toRaw v)
       then set_heap (RefImpl_store (heap st) r (toRaw v)) st
       else st) /\
  (target <> r ->
   heap_get (RefImpl_store (heap st) r (toRaw v)) target key = VObj r).
Proof.
  intros Ha Hr Hkind Hv Hd. split.
  - pose proof (@RefImpl_set_value_unsubscribed st r (toRaw v) Hd) as Hset.
    assert (Href : isRef (heap st) (VObj r) = true)
      by (simpl; rewrite Hkind; reflexivity).
    change (6 + n) with (S (5 + n)).
    unfold set, createSetter. rewrite exec_GetHeap, Hr, Href, Hv, Ha.
    cbn [negb andb]. unfold assign_ref_value. cbn [toRaw]. rewrite Hkind.
    set (st1 := if RefImpl_changed (heap st) r (toRaw v)
                then set_heap (RefImpl_store (heap st) r (toRaw v)) st
                else st) in *.
    assert (Hret : exec 1 (Ret (VBool true)) st1 = Normal (VBool true) st1)
      by reflexivity.
    rewrite (@exec_more (4 + 1) (5 + n)); [|lia|].
    + eapply exec_bind_Normal; [exact Hset|exact Hret|discriminate].
    + rewrite (@exec_bind_Normal 4 _ _ _ _ _ 1 _ Hset Hret); discriminate.
  - intros Hne. unfold RefImpl_store.
    rewrite !heap_get_put_other by congruence. exact Hr.
Qed.

(** ** The order in which a write runs the subscribers *)

Lemma add_filter st dep : forall acc,
  NoDup (acc ++ dep) -> add st (Some dep) acc = acc ++ filter (eligible st) dep.
Proof.
  unfold add. induction dep as [|x dep IH]; intros acc Hn; simpl.
  - rewrite app_nil_r. reflexivity.
  - assert (Hx : ~ In x acc).
    { intros Hin. apply NoDup_remove_2 in Hn. apply Hn.
      apply in_or_app. auto. }
    assert (Hadd : Set_add Nat.eqb x acc = acc ++ [x]).
    { unfold Set_add.
      destruct (Set_has Nat.eqb x acc) eqn:E; [|reflexivity].
      apply (Set_has_In _ Nat.eqb_eq) in E. contradiction. }
    fold (eligible st x). destruct (eligible st x).
    + rewrite Hadd, IH.
      * rewrite <- app_assoc. reflexivity.
      * rewrite <- app_assoc. exact Hn.
    + apply IH. apply NoDup_remove_1 in Hn. exact Hn.
Qed.

(** X23: a SET on a key of an object that is no Map (the length of an
    array apart) runs the effects subscribed to that key and no other, in
    the order in which they subscribed, each once, the running effect being
    left out unless it allows recursion; with no effect running these are
    all the subscribers of the key. *)
Theorem X23_set_runs_subscribers_in_order rec st t k nv ov :
  isMap t = false -> is_length (Some k) && isArray t = false ->
  NoDup (dep_at st (t, k)) ->
  trigger rec t SET (Some k) nv ov st =
    forEach (run rec t SET (Some k) nv ov)
            (filter (eligible st) (dep_at st (t, k))) st /\
  (activeEffect st = None ->
   filter (eligible st) (dep_at st (t, k)) = dep_at st (t, k)).
Proof.
  intros Hmap Hl Hn. split.
  - unfold trigger. unfold dep_at in *. cbn [fst snd] in *.
    destruct (depsMap_of st t) as [m|] eqn:Hm.
    + rewrite (@trigger_effects_key st t SET k nv m Hm) by (auto; discriminate).
      unfold collect_key. rewrite Hmap.
      destruct (Map_get Key_eqb k m) as [dep|]; [|reflexivity].
      rewrite add_filter by exact Hn. reflexivity.
    + unfold trigger_effects. rewrite Hm. reflexivity.
  - intros Ha. apply forallb_filter_id. apply forallb_forall.
    intros e _. unfold eligible, is_activeEffect. rewrite Ha. reflexivity.
Qed.

End Runtime.

(** ** Examples *)

Lemma self_increment_runs_once (dev : bool) :
  exists st', exec dev 20 self_increment_scenario initial_state = Normal (VEffect 0) st' /\
    heap_get (heap st') obj_spy (KStr "count") = VNum 1 /\
    heap_get (heap st') obj_x (KStr "n") = VNum 1.
Proof.
  assert (H : match exec dev 20 self_increment_scenario initial_state with
              | Normal v st' =>
                  v = VEffect 0 /\
                  heap_get (heap st') obj_spy (KStr "count") = VNum 1 /\
                  heap_get (heap st') obj_x (KStr "n") = VNum 1
              | _ => False
              end).
  { destruct dev; vm_compute; auto. }
  destruct (exec dev 20 self_increment_scenario initial_state) as [v st'|v st'|];
    try contradiction.
  destruct H as (-> & H1 & H2). exists st'. auto.
Qed.

(** C3: while an effect [e] is the running effect, a [trigger] collects it
    only if it allows recursion: without [allowRecurse] it is absent from the
    set [l] that [trigger] runs or schedules, with [allowRecurse] it is in
    that set whenever the dep of the written key holds it.  So the effect
    [() => { count++; x.n++ }] runs once: its own write does not run it
    again. *)
Theorem C3_running_effect_excluded (dev : bool) st target type key newValue l e :
  trigger_effects st target type key newValue = Selected l ->
  activeEffect st = Some e ->
  (allowRecurse_of st e = false -> ~ In e l) /\
  (allowRecurse_of st e = true ->
   forall k, key = Some k -> type <> CLEAR ->
             is_length key && isArray target = false ->
             In e (dep_at st (target, k)) -> In e l) /\
  (forall rec oldValue,
     trigger dev rec target type key newValue oldValue st =
     forEach (run dev rec target type key newValue oldValue) l st) /\
  (exists st',
     exec dev 20 self_increment_scenario initial_state = Normal (VEffect 0) st' /\
     heap_get (heap st') obj_spy (KStr "count") = VNum 1 /\
     heap_get (heap st') obj_x (KStr "n") = VNum 1).
Proof.
  intros Hsel Hact. split; [|split; [|split]].
  - intros Hr Hin. pose proof (trigger_effects_eligible _ _ _ _ _ e Hsel Hin) as He.
    unfold eligible, is_activeEffect in He. rewrite Hact, Nat.eqb_refl, Hr in He.
    discriminate.
  - intros Hr k -> Hty Hlen Hin.
    apply dep_at_In in Hin. destruct Hin as (m & dep & Hm & Hk & Hin).
    rewrite (trigger_effects_key st target k newValue Hm Hty Hlen) in Hsel.
    injection Hsel as <-. eapply collect_key_includes; eauto.
    unfold eligible. rewrite Hr. apply orb_true_r.
  - intros rec ov. unfold trigger. rewrite Hsel. reflexivity.
  - destruct (self_increment_runs_once dev) as (st' & H1 & H2 & H3). eauto.
Qed.


Example isIntegerKey_examples :
  isIntegerKey (KStr "0") = true /\ isIntegerKey (KStr "12") = true /\
  isIntegerKey (KStr "012") = false /\ isIntegerKey (KStr "") = false /\
  isIntegerKey (KStr "length") = false /\ isIntegerKey (KStr "-1") = false /\
  isIntegerKey (KStr "1.5") = false /\ isIntegerKey ITERATE_KEY = false /\
  Number_of_key (KStr "12") = 12%Z.
Proof. repeat split; reflexivity. Qed.

Example key_ge_examples :
  key_ge (KStr "3") (VNum 2) = CmpTrue /\ key_ge (KStr "1") (VNum 2) = CmpFalse /\
  key_ge (KStr "length") (VNum 0) = CmpFalse /\
  key_ge (KStr "1.5") (VNum 1) = CmpTrue /\
  key_ge (KStr "10") (VNum 9) = CmpTrue /\
  key_ge (KStr "Infinity") (VNum 1) = CmpTrue /\
  key_ge (KStr "-Infinity") (VNum 1) = CmpFalse /\
  key_ge (KStr "1e3") (VNum 1000) = CmpTrue /\
  key_ge (KStr "1e3") (VNum 1001) = CmpFalse /\
  key_ge (KStr "0x10") (VNum 16) = CmpTrue /\
  key_ge (KStr " 3 ") (VNum 3) = CmpTrue /\
  key_ge (KStr "") (VNum 0) = CmpTrue /\
  key_ge (KStr "0.99999999999999999") (VNum 1) = CmpTrue /\
  key_ge (KStr "0.9999999999999999") (VNum 1) = CmpFalse /\
  key_ge (KStr "4294967295") (VNum 4294967295) = CmpTrue /\
  key_ge ITERATE_KEY (VNum 0) = CmpTypeError.
Proof. vm_compute. repeat split. Qed.

Example StringToNumber_examples :
  StringToNumber "12" = JFin (3 * 2 ^ 51) (-49) /\
  StringToNumber "" = JFin 0 0 /\
  StringToNumber "  " = JFin 0 0 /\
  StringToNumber "length" = JNaN /\
  StringToNumber "Infinity" = JInf false /\
  StringToNumber "-Infinity" = JInf true /\
  StringToNumber "infinity" = JNaN /\
  StringToNumber "1e3" = StringToNumber "1000" /\
  StringToNumber "0x10" = StringToNumber "16" /\
  StringToNumber "0b101" = StringToNumber "5" /\
  StringToNumber "0o17" = StringToNumber "15" /\
  StringToNumber "-0x10" = JNaN /\
  StringToNumber " 3 " = StringToNumber "3" /\
  StringToNumber "1.5" = StringToNumber "15e-1" /\
  StringToNumber ".5" = StringToNumber "0.5" /\
  StringToNumber "5." = StringToNumber "5" /\
  StringToNumber "." = JNaN /\
  StringToNumber "1e" = JNaN /\
  StringToNumber "1 2" = JNaN /\
  StringToNumber "0.99999999999999999" = StringToNumber "1" /\
  StringToNumber "9007199254740993" = StringToNumber "9007199254740992" /\
  StringToNumber "1e400" = JInf false /\
  StringToNumber "0.1" = JFin 7205759403792794 (-56) /\
  StringToNumber "5e-324" = JFin 1 (-1074) /\
  StringToNumber "2e-324" = JFin 0 (-1074) /\
  StringToNumber "1.7976931348623157e308" = JFin (2 ^ 53 - 1) 971 /\
  StringToNumber "1.7976931348623159e308" = JInf false.
Proof. vm_compute. repeat split. Qed.


(** ** Instances on concrete states *)

Lemma lazy_state_well_formed : well_formed lazy_state.
Proof.
  split; [|split].
  - intros e d. destruct e as [|[|e]]; simpl; tauto.
  - constructor.
  - discriminate.
Defined.

Lemma C1_set_trap_witness :
  match exec true 6 (proxy_set obj_x (KStr "n") (VNum 5)) subscribed_state with
  | Normal v st' =>
      v = VBool true /\ heap_get (heap st') obj_x (KStr "n") = VNum 5 /\
      heap_get (heap st') obj_spy (KStr "runs") = VNum 1
  | _ => False
  end.
Proof.
  unfold proxy_set. change 6 with (4 + 2).
  rewrite (proj1 (@C1_set_trap true no_setter subscribed_state obj_x (KStr "n")
                    (VNum 5) (VProxy false (VObj obj_x))
                    (heap_put (heap subscribed_state) obj_x (KStr "n") (VNum 5))
                    true 2 eq_refl eq_refl eq_refl)).
  vm_compute. auto.
Defined.

Lemma running_lazy_state_well_formed : well_formed (enter_effect 0 lazy_state).
Proof.
  split; [|split].
  - intros e d. destruct e as [|[|e]]; simpl; tauto.
  - repeat constructor.
  - intros e [= <-]. repeat constructor.
Defined.

Lemma subscribed_state_well_formed : well_formed subscribed_state.
Proof.
  split; [|split].
  - intros e [t k]. unfold dep_at, depsMap_of, effect_deps.
    cbn -[Key_eqb Target_eqb].
    destruct (Target_eqb obj_x t) eqn:Et; cbn -[Key_eqb Target_eqb].
    + apply Target_eqb_eq in Et. subst t.
      destruct (Key_eqb (KStr "n") k) eqn:Ek; cbn -[Key_eqb Target_eqb].
      * apply Key_eqb_eq in Ek. subst k.
        destruct e as [|[|e]]; simpl; intuition congruence.
      * assert (k <> KStr "n") by (intros ->; vm_compute in Ek; discriminate).
        destruct e as [|[|e]]; simpl; intuition congruence.
    + assert (t <> obj_x) by (intros ->; vm_compute in Et; discriminate).
      destruct e as [|[|e]]; simpl; intuition congruence.
  - constructor.
  - discriminate.
Defined.

Lemma C2_registry_witness :
  In 0 (dep_at subscribed_state (obj_x, KStr "n")) /\
  (exists st',
     stop (exec true 3) 0 subscribed_state = Normal VUndefined st' /\
     ~ In 0 (dep_at st' (obj_x, KStr "n")) /\ effect_deps st' 0 = [] /\
     stop (exec true 3) 0 st' = Normal VUndefined st') /\
  consistent (fst (track true obj_x GET (KStr "n") (enter_effect 0 lazy_state))).
Proof.
  pose proof (@C2_registry_agrees_with_deps true subscribed_state
                subscribed_state_well_formed)
    as (_ & _ & _ & _ & _ & H6 & H7).
  pose proof (@C2_registry_agrees_with_deps true (enter_effect 0 lazy_state)
                running_lazy_state_well_formed) as (H1 & _).
  split; [left; reflexivity|]. split; [|apply H1].
  destruct (H6 3 0 (mkEffect 0 true (count_up (KStr "runs")) [(obj_x, KStr "n")]
                      plain_options) eq_refl eq_refl eq_refl)
    as (st' & Hs & _ & Hno & Hd).
  exists st'. split; [exact Hs|]. split; [apply Hno|]. split; [exact Hd|].
  exact (H7 3 0 VUndefined st' Hs).
Defined.

Lemma C3_running_effect_witness :
  ~ In 0 ([] : list EffectId) /\ In 0 [0].
Proof.
  split.
  - apply (proj1 (@C3_running_effect_excluded true (running_state false) obj_x SET
                    (Some (KStr "n")) VUndefined [] 0 eq_refl eq_refl)).
    reflexivity.
  - apply (proj1 (proj2 (@C3_running_effect_excluded true (running_state true) obj_x
                           SET (Some (KStr "n")) VUndefined [0] 0 eq_refl eq_refl)))
      with (k := KStr "n").
    + reflexivity.
    + reflexivity.
    + discriminate.
    + reflexivity.
    + simpl. auto.
Defined.

Lemma flag_state_well_formed : well_formed flag_state.
Proof.
  split; [|split].
  - intros e [t k]. unfold dep_at, depsMap_of, effect_deps.
    cbn -[Key_eqb Target_eqb].
    destruct (Target_eqb obj_x t) eqn:Et; cbn -[Key_eqb Target_eqb].
    + apply Target_eqb_eq in Et. subst t.
      destruct (Key_eqb (KStr "flag") k) eqn:Ef; cbn -[Key_eqb Target_eqb].
      * apply Key_eqb_eq in Ef. subst k.
        destruct e as [|[|e]]; simpl; intuition congruence.
      * assert (k <> KStr "flag") by (intros ->; vm_compute in Ef; discriminate).
        destruct (Key_eqb (KStr "n") k) eqn:Ek; cbn -[Key_eqb Target_eqb].
        -- apply Key_eqb_eq in Ek. subst k.
           destruct e as [|[|e]]; simpl; intuition congruence.
        -- assert (k <> KStr "n") by (intros ->; vm_compute in Ek; discriminate).
           destruct e as [|[|e]]; simpl; intuition congruence.
    + assert (t <> obj_x) by (intros ->; vm_compute in Et; discriminate).
      destruct e as [|[|e]]; simpl; intuition congruence.
  - constructor.
  - discriminate.
Defined.

Lemma C4_cleanup_witness :
  effect_deps flag_state 0 = [(obj_x, KStr "flag"); (obj_x, KStr "n")] /\
  effect_deps (enter_effect 0 flag_state) 0 = [] /\
  ~ In 0 (dep_at (enter_effect 0 flag_state) (obj_x, KStr "n")) /\
  reactiveEffect (exec true 6) 0 flag_state =
    run_finally (exec true 6 flag_effect (enter_effect 0 flag_state)) /\
  match reactiveEffect (exec true 6) 0 flag_state with
  | Normal _ st' =>
      In 0 (dep_at st' (obj_x, KStr "flag")) /\ ~ In 0 (dep_at st' (obj_x, KStr "n"))
  | _ => False
  end.
Proof.
  pose proof (@C4_cleanup_then_retrack true flag_state 0
                (mkEffect 0 true flag_effect
                   [(obj_x, KStr "flag"); (obj_x, KStr "n")] plain_options)
                6 flag_state_well_formed eq_refl eq_refl eq_refl)
    as ((H1 & H2) & H3 & H4).
  split; [reflexivity|]. split; [exact H1|]. split; [apply H2|].
  split; [exact H3|].
  assert (Hobs : match reactiveEffect (exec true 6) 0 flag_state with
                 | Normal _ st' =>
                     trace st' = [EvTrack 0 (obj_x, KStr "flag"); EvRun 0] /\
                     In 0 (dep_at st' (obj_x, KStr "flag"))
                 | _ => False
                 end) by (vm_compute; auto).
  destruct (reactiveEffect (exec true 6) 0 flag_state) as [v st'|v st'|] eqn:E;
    try contradiction.
  destruct Hobs as [Ht Hin]. split; [exact Hin|].
  destruct (H4 st' eq_refl) as (new & Hnew & _ & Hdep & _).
  intros Hn. apply Hdep in Hn. rewrite Ht in Hnew.
  change [EvTrack 0 (obj_x, KStr "flag"); EvRun 0]
    with ([EvTrack 0 (obj_x, KStr "flag")] ++ EvRun 0 :: trace flag_state)
    in Hnew.
  apply app_inv_tail in Hnew. subst new.
  destruct Hn as [Hn|[]]. discriminate Hn.
Defined.

Lemma C5_length_trigger_witness :
  trigger_effects keyed_array_state arr SET (Some (KStr "length")) (VNum 1)
    = Selected [0; 2; 3; 4; 5; 7] /\
  (length_selects (KStr "2") (VNum 1) <-> (1 <= 2)%Z) /\
  (length_selects (KStr "0") (VNum 1) <-> (1 <= 0)%Z).
Proof.
  destruct (@C5_length_trigger_selection keyed_array_state arr SET 1
              (map (fun p => (KStr (snd p), [fst p])) (combine (seq 0 8) read_keys))
              eq_refl) as (l & H & _ & Hint & _).
  - discriminate.
  - reflexivity.
  - intros k dep Hin. simpl in Hin.
    repeat (destruct Hin as [Hin|Hin]; [injection Hin as <- _; reflexivity|]).
    destruct Hin.
  - split; [vm_compute; reflexivity|]. split.
    + apply (Hint (KStr "2")); [reflexivity|right; vm_compute; discriminate].
    + apply (Hint (KStr "0")); [reflexivity|right; vm_compute; discriminate].
Defined.

Lemma C6_computed_witness :
  match exec true (7 + 0) (ComputedRefImpl_get_value computed_cell)
             fresh_computed_state with
  | Normal v st' =>
      v = VNum 2 /\
      heap_get (heap st') computed_cell (KStr "_value") = VNum 2 /\
      truthy (heap_get (heap st') computed_cell (KStr "_dirty")) = false /\
      exec true (4 + 0) (ComputedRefImpl_get_value computed_cell) st' =
        Normal (VNum 2) (fst (track true computed_cell GET (KStr "value") st')) /\
      match exec true (4 + 0) (computed_scheduler computed_cell 0) st' with
      | Normal _ st2 =>
          truthy (heap_get (heap st2) computed_cell (KStr "_dirty")) = true
      | _ => False
      end
  | _ => False
  end.
Proof.
  pose proof (@C6_computed_cache true fresh_computed_state computed_cell 0)
    as (H & _).
  rewrite (proj1 (H 0 (VNum 2) (finally_block (enter_effect 0 fresh_computed_state))
                    eq_refl eq_refl eq_refl)).
  vm_compute. auto.
Defined.

Lemma C7_ref_assignment_witness :
  exec true (2 + 0) (RefImpl_set_value ref_cell (VNum 1)) ref_state
    = Normal VUndefined ref_state /\
  match exec true (4 + 3) (RefImpl_set_value ref_cell (VNum 2)) ref_state with
  | Normal _ st' =>
      heap_get (heap st') ref_cell (KStr "_rawValue") = VNum 2 /\
      heap_get (heap st') ref_cell (KStr "_value") = VNum 2 /\
      heap_get (heap st') obj_spy (KStr "runs") = VNum 1
  | _ => False
  end.
Proof.
  split.
  - apply (proj1 (@C7_ref_assignment true ref_state ref_cell (VNum 1) 0)).
    reflexivity.
  - rewrite (proj1 (proj2 (@C7_ref_assignment true ref_state ref_cell (VNum 2) 3))
               eq_refl).
    vm_compute. auto.
Defined.


Lemma C9_invocation_witness :
  match reactiveEffect (exec true 5) 0 throwing_state with
  | Thrown v st' =>
      v = VStr "boom" /\ effectStack st' = [] /\ activeEffect st' = None /\
      trackStack st' = [] /\ shouldTrack st' = true
  | _ => False
  end.
Proof.
  assert (Hobs : match exec true 5 (proxy_get obj_x (KStr "n")
                                      (fun _ => Throw (VStr "boom")))
                            (enter_effect 0 throwing_state) with
                 | Thrown v s1 =>
                     v = VStr "boom" /\
                     trackStack s1 = trackStack (enter_effect 0 throwing_state)
                 | _ => False
                 end).
  { vm_compute. auto. }
  destruct (exec true 5 (proxy_get obj_x (KStr "n") (fun _ => Throw (VStr "boom")))
                 (enter_effect 0 throwing_state)) as [v s1|v s1|] eqn:E;
    try contradiction.
  destruct Hobs as [-> Hbal].
  destruct (proj1 (proj2 (@C9_invocation_releases_stacks true throwing_state 0
              (mkEffect 0 true
                 (proxy_get obj_x (KStr "n") (fun _ => Throw (VStr "boom"))) []
                 (mkOptions true None None None None false))
              5 eq_refl eq_refl eq_refl)) (VStr "boom") s1 E)
    as (-> & H1 & H2 & _ & _ & H5).
  destruct (H5 Hbal) as [H6 H7].
  repeat split; assumption.
Defined.

Lemma C10_each_effect_witness :
  count_occ Nat.eq_dec [0] 0 <= 1 /\ NoDup [0].
Proof.
  pose proof (@C10_each_effect_at_most_once true (running_state true) obj_x ADD
                (Some (KStr "n")) VUndefined [0] eq_refl) as (H1 & H2 & _).
  split; [apply H2|exact H1].
Defined.

(** ** Where the wording of the specification is too strong *)

Lemma resubscribing_state_well_formed : well_formed resubscribing_state.
Proof.
  split; [|split].
  - intros e d. destruct e as [|[|e]]; simpl; tauto.
  - constructor.
  - discriminate.
Qed.

(** C2, as worded: "after stop(E) no dep contains E and E.deps is empty".
    With [onStop: () => e()] the hook, which runs after the cleanup and
    before [e.active = false], runs the effect once more: [stop(e)] returns
    with [e] subscribed to [x.n]. *)
Lemma C2_stop_counterexample :
  ~ (forall st e n st',
       well_formed st -> effectStack st = [] ->
       ends_in (stop (exec true n) e st) st' ->
       (forall d, ~ In e (dep_at st' d)) /\ effect_deps st' e = []).
Proof.
  intros H.
  assert (Hobs : match stop (exec true 10) 0 resubscribing_state with
                 | Normal _ st' => In 0 (dep_at st' (obj_x, KStr "n"))
                 | _ => False
                 end).
  { vm_compute. auto. }
  destruct (stop (exec true 10) 0 resubscribing_state) as [v st'|v st'|] eqn:E;
    try contradiction.
  destruct (H resubscribing_state 0 10 st' resubscribing_state_well_formed eq_refl)
    as [Hno _].
  - rewrite E. reflexivity.
  - exact (Hno _ Hobs).
Qed.

(** C5, as worded: "exactly the deps at "length" and at integer keys >= n".
    The dep at the key "1.5" is selected by [arr.length = 1]. *)
Lemma C5_length_counterexample :
  trigger_effects fraction_key_state arr SET (Some (KStr "length")) (VNum 1)
    = Selected [0] /\
  ~ claimed_length_selection [(KStr "1.5", [0])] 1 0.
Proof.
  split; [reflexivity|].
  intros (k & dep & [[= <- <-]|[]] & _ & [E|[E _]]); discriminate.
Qed.

(** C7, as worded: "triggers iff !Object.is(toRaw(v), toRaw(R._rawValue))".
    A ref made from a reactive proxy keeps the proxy as [_rawValue]; assigning
    the same proxy again runs the subscribed effect. *)
Lemma C7_ref_counterexample :
  Object_is (toRaw (VProxy false (VObj obj_o)))
            (toRaw (heap_get (heap proxied_ref_state) ref_cell (KStr "_rawValue")))
    = true /\
  match exec true 10 (RefImpl_set_value ref_cell (VProxy false (VObj obj_o)))
             proxied_ref_state with
  | Normal _ st' => heap_get (heap st') obj_spy (KStr "runs") = VNum 1
  | _ => False
  end.
Proof. split; [reflexivity|vm_compute; reflexivity]. Qed.


(** C6, as worded: the invocation "returns the getter's result".  The
    effect of a computed ref has a scheduler, so once stopped it returns
    [undefined] without calling the getter: the read caches [undefined]. *)
Lemma C6_stopped_counterexample :
  exec true 3 (Ret (VNum 2)) stopped_computed_state
    = Normal (VNum 2) stopped_computed_state /\
  match exec true 10 (ComputedRefImpl_get_value computed_cell)
             stopped_computed_state with
  | Normal v st' =>
      v = VUndefined /\
      heap_get (heap st') computed_cell (KStr "_value") = VUndefined /\
      truthy (heap_get (heap st') computed_cell (KStr "_dirty")) = false
  | _ => False
  end.
Proof. split; [reflexivity|vm_compute; auto]. Qed.

(** C9, as worded: the pop "restores the previous shouldTrack value".  An
    effect that calls the instrumented [push] leaves two more entries on the
    tracking-state stack than it found; the [finally] block pops one of them,
    and [shouldTrack], true before the invocation, is false after it. *)
Lemma C9_tracking_counterexample :
  ~ (forall st e x n v st',
       get_effect st e = Some x -> active x = true ->
       existsb (Nat.eqb e) (effectStack st) = false ->
       reactiveEffect (exec true n) e st = Normal v st' ->
       shouldTrack st' = shouldTrack st).
Proof.
  intros H.
  assert (Hobs : match reactiveEffect (exec true 12) 0 pushing_state with
                 | Normal _ st' => shouldTrack st' = false
                 | _ => False
                 end).
  { vm_compute. auto. }
  destruct (reactiveEffect (exec true 12) 0 pushing_state) as [v st'|v st'|] eqn:E;
    try contradiction.
  specialize (H pushing_state 0 _ 12 v st' eq_refl eq_refl eq_refl E).
  rewrite Hobs in H. discriminate H.
Qed.

(** ** The scenarios of the specification, run on the model *)

Example branching_cleanup_scenario :
  match exec true 30 branching_scenario initial_state with
  | Normal _ st' =>
      heap_get (heap st') obj_spy (KStr "out") = VNum 2 /\
      heap_get (heap st') obj_spy (KStr "runs") = VNum 2 /\
      dep_at st' (obj_x, KStr "x") = [] /\ dep_at st' (obj_x, KStr "y") = [0]
  | _ => False
  end.
Proof. vm_compute. auto. Qed.

Example computed_invalidation_scenario :
  match exec true 100 computed_scenario initial_state with
  | Normal _ st' =>
      heap_get (heap st') obj_spy (KStr "v1") = VNum 2 /\
      heap_get (heap st') obj_spy (KStr "v2") = VNum 10 /\
      heap_get (heap st') obj_spy (KStr "v3") = VNum 12 /\
      heap_get (heap st') obj_spy (KStr "runs") = VNum 2
  | _ => False
  end.
Proof. vm_compute. auto. Qed.

(** ** Instances of the further properties *)

Lemma X2_track_witness :
  In 0 (dep_at (fst (track true obj_x GET (KStr "n") (enter_effect 0 lazy_state)))
               (obj_x, KStr "n")).
Proof.
  apply (proj1 (@X2_track_subscribes true (enter_effect 0 lazy_state) obj_x GET
                  (KStr "n") 0 running_lazy_state_well_formed eq_refl eq_refl)).
  right. split; reflexivity.
Defined.

Lemma initial_state_well_formed : well_formed initial_state.
Proof.
  split; [|split].
  - intros e d. destruct e; simpl; tauto.
  - constructor.
  - discriminate.
Defined.

Lemma initial_state_duplicate_free : duplicate_free initial_state.
Proof. split; [intros d|intros [|e]]; constructor. Defined.

Lemma X4_no_duplicate_witness :
  match exec true 30 branching_scenario initial_state with
  | Normal _ st' => duplicate_free st'
  | _ => False
  end.
Proof.
  assert (Hobs : match exec true 30 branching_scenario initial_state with
                 | Normal _ _ => True
                 | _ => False
                 end) by (vm_compute; auto).
  destruct (exec true 30 branching_scenario initial_state) as [v st'|v st'|] eqn:E;
    try contradiction.
  apply (@X4_no_duplicate_subscription true 30 branching_scenario initial_state st'
           initial_state_well_formed initial_state_duplicate_free).
  rewrite E. reflexivity.
Defined.

Lemma initial_state_ids_in_order : ids_in_order initial_state.
Proof. split; [reflexivity|]. intros [|i] x; discriminate. Defined.

Lemma X5_effect_ids_witness :
  match exec true 20 self_increment_scenario initial_state with
  | Normal _ st' => uid initial_state <= uid st'
  | _ => False
  end.
Proof.
  assert (Hobs : match exec true 20 self_increment_scenario initial_state with
                 | Normal _ _ => True
                 | _ => False
                 end) by (vm_compute; auto).
  destruct (exec true 20 self_increment_scenario initial_state) as [v st'|v st'|] eqn:E;
    try contradiction.
  refine (proj2 (proj2 (@X5_effect_ids_unique true 20 self_increment_scenario
                          initial_state st' initial_state_ids_in_order _))).
  rewrite E. reflexivity.
Defined.

Lemma stopped_watch_state_dormant : dormant 0 stopped_watch_state.
Proof.
  split; [|split].
  - eexists. split; reflexivity.
  - intros [].
  - discriminate.
Defined.

Lemma X6_stopped_effect_witness :
  match exec true 5 (Call 0 Ret) stopped_watch_state with
  | Normal _ st' => effect_deps st' 0 = []
  | _ => False
  end.
Proof.
  assert (Hobs : match exec true 5 (Call 0 Ret) stopped_watch_state with
                 | Normal _ _ => True
                 | _ => False
                 end) by (vm_compute; auto).
  destruct (exec true 5 (Call 0 Ret) stopped_watch_state) as [v st'|v st'|] eqn:E;
    try contradiction.
  refine (proj1 (proj2 (@X6_stopped_effect_stays_as_it_is true 5 (Call 0 Ret) 0
                          stopped_watch_state st' stopped_watch_state_dormant _))).
  rewrite E. reflexivity.
Defined.

Lemma X7_trigger_selection_witness :
  (In 0 (dep_at subscribed_state (obj_x, KStr "n")) /\
   eligible subscribed_state 0 = true) /\
  ((exists k' dep, In (k', dep) [(KStr "n", [0])] /\ In 0 dep) /\
   eligible subscribed_state 0 = true).
Proof.
  split.
  - destruct (@X7_trigger_selection_by_operation subscribed_state obj_x SET
                (KStr "n") (VNum 5) [0] 0 eq_refl eq_refl) as (H & _).
    apply (H eq_refl eq_refl). left. reflexivity.
  - destruct (@X7_trigger_selection_by_operation subscribed_state obj_x CLEAR
                (KStr "n") VUndefined [0] 0 eq_refl eq_refl)
      as (_ & _ & _ & _ & _ & _ & _ & _ & H).
    apply (H eq_refl [(KStr "n", [0])] eq_refl). left. reflexivity.
Defined.

Lemma reading_state_hook_free : hook_free true reading_state.
Proof. right. intros e x [= <-] [= <-]. reflexivity. Defined.

Lemma resting_state_hook_free : hook_free true resting_state.
Proof. right. intros e x [=]. Defined.

Lemma X8_delete_trap_witness :
  exec true 4 (deleteProperty obj_x (KStr "missing")) resting_state =
    Normal (VBool true) resting_state /\
  hasOwn (heap_delete (heap resting_state) obj_x (KStr "n")) obj_x (KStr "n") = false.
Proof.
  destruct (X8_delete_trap true resting_state obj_x (KStr "missing") 0)
    as (H1 & _).
  destruct (X8_delete_trap true resting_state obj_x (KStr "n") 0)
    as (_ & _ & H3).
  split.
  - destruct (H1 eq_refl) as (b & E & Hb). rewrite (Hb eq_refl) in E. exact E.
  - apply (H3 eq_refl eq_refl eq_refl).
Defined.

Lemma X9_has_and_ownKeys_witness :
  exec true (3 + 0)
       (has [KSym 2] (has_own_or_inherited [KStr "toString"]) obj_x (KStr "toString"))
       reading_state =
    Normal (VBool true) (fst (track true obj_x HAS (KStr "toString") reading_state)) /\
  hasOwn (heap reading_state) obj_x (KStr "toString") = false /\
  In 0 (dep_at (fst (track true obj_x HAS (KStr "toString") reading_state))
               (obj_x, KStr "toString")) /\
  In 0 (dep_at (fst (track true obj_x ITERATE ITERATE_KEY reading_state))
               (obj_x, ITERATE_KEY)).
Proof.
  destruct (@X9_has_and_ownKeys_subscribe true
              (has_own_or_inherited [KStr "toString"]) [KSym 2]
              (fun h _ => (h, VUndefined)) reading_state 0 obj_x (KStr "toString") 0
              eq_refl eq_refl reading_state_hook_free) as (H1 & _ & _ & H4).
  destruct (H1 eq_refl) as (Hr & Hin & _).
  split; [exact Hr|]. split; [reflexivity|]. split; [exact Hin|exact H4].
Defined.


Lemma X11_set_then_get_witness :
  exec true 8
    (bind (set no_setter obj_x (KStr "n") (VProxy false (VObj obj_o))
               (VProxy false (VObj obj_x)))
          (fun _ => get [KSym 2] (KStr "__v_isReactive") (KStr "__v_isReadonly")
                        (KStr "__v_raw") (fun _ => VUndefined)
                        (fun _ _ => Ret VUndefined)
                        obj_x (KStr "n") (VProxy false (VObj obj_x))))
    resting_state =
  Normal (reactive (toRaw (VProxy false (VObj obj_o))))
    (fst (track true obj_x GET (KStr "n")
            (set_heap (heap_put (heap resting_state) obj_x (KStr "n")
                                (toRaw (VProxy false (VObj obj_o))))
                      resting_state))).
Proof.
  apply (@X11_set_then_get true [KSym 2] (KStr "__v_isReactive")
           (KStr "__v_isReadonly") (KStr "__v_raw") (fun _ => VUndefined)
           (fun _ _ => Ret VUndefined) no_setter resting_state obj_x (KStr "n")
           (VProxy false (VObj obj_o)) (VProxy false (VObj obj_x)) 8
           eq_refl eq_refl eq_refl eq_refl eq_refl eq_refl eq_refl eq_refl eq_refl
           (fun k => eq_refl) resting_state_hook_free (le_n 8)).
Defined.
Lemma X12_search_methods_witness :
  In 0 (dep_at (after_tracks true arr 0 2 reading_state) (arr, index_key 1)).
Proof.
  pose proof (@X12_search_methods_track_indices true (fun _ _ => Ret VUndefined)
                (fun _ _ _ _ => VNum (-1)) "includes" (VObj arr) [VNum 9] arr
                reading_state reading_state 0 2 2 6
                eq_refl eq_refl eq_refl eq_refl reading_state_hook_free (le_n 6))
    as H.
  cbv zeta in H. destruct H as (_ & _ & H & _). apply H. lia.
Defined.

Lemma X13_length_altering_witness :
  exec true 4 (length_altering_method (Ret (VNum 1))) initial_state =
    Normal (VNum 1) (enableTracking (pauseTracking initial_state)).
Proof.
  destruct (X13_length_altering_methods true (Ret (VNum 1)) initial_state 1)
    as (_ & H & _).
  apply (H (VNum 1) (pauseTracking initial_state) 4 eq_refl (le_n 4)).
Defined.

Lemma initial_state_hook_free : hook_free true initial_state.
Proof. right. intros e x [=]. Defined.

Lemma X14_ref_and_unref_witness :
  exec true (8 + 0)
       (bind (createRef ref_cell (VNum 5) false)
             (unref (fun _ _ => Ret VUndefined))) initial_state =
    Normal (if false then VNum 5 else convert (VNum 5))
      (fst (track true ref_cell GET (KStr "value")
              (set_heap
                 (heap_put
                    (heap_put
                       (heap_put (heap initial_state) ref_cell (KStr "_rawValue")
                                 (VNum 5))
                       ref_cell (KStr "_shallow") (VBool false))
                    ref_cell (KStr "_value")
                    (if false then VNum 5 else convert (VNum 5)))
                 initial_state))).
Proof.
  destruct (X14_ref_and_unref true (fun _ _ => Ret VUndefined) initial_state
              ref_cell (VNum 5) false 0) as (_ & _ & H).
  pose proof (H eq_refl eq_refl initial_state_hook_free) as H'.
  cbv zeta in H'. destruct H' as (_ & _ & H3). exact H3.
Defined.

Lemma X15_ref_write_then_read_witness :
  exec true 7 (bind (RefImpl_set_value ref_cell (VNum 2))
                    (fun _ => RefImpl_get_value ref_cell)) resting_state =
    Normal (if truthy (heap_get (heap resting_state) ref_cell (KStr "_shallow"))
            then VNum 2 else convert (VNum 2))
           (fst (track true ref_cell GET (KStr "value")
                   (set_heap (RefImpl_store (heap resting_state) ref_cell (VNum 2))
                             resting_state))).
Proof.
  apply (proj1 (@X15_ref_write_then_read true resting_state ref_cell (VNum 2) 7
                  (fun k => eq_refl) resting_state_hook_free (le_n 7))).
  reflexivity.
Defined.

Lemma X16_triggerRef_witness :
  In 0 (dep_at (fst (track true ref_cell GET (KStr "value") reading_state))
               (ref_cell, KStr "value")).
Proof.
  destruct (X16_triggerRef true (fun _ _ => Ret VUndefined) reading_state
              ref_cell 0) as (_ & H).
  destruct (H eq_refl eq_refl reading_state_hook_free) as (_ & H2).
  apply (H2 0 eq_refl eq_refl).
Defined.


Lemma X18_effect_creation_witness :
  exec true (S 3) (Effect (inl (Ret VUndefined)) plain_options
                          (fun e => Ret (VEffect e))) initial_state =
    andThen
      (run_finally
         (exec true 3 (Ret VUndefined)
               (enter_effect (List.length (effects initial_state))
                  (snd (createReactiveEffect (Ret VUndefined) plain_options
                                             initial_state)))))
      (fun _ st2 =>
         exec true 3 (Ret (VEffect (List.length (effects initial_state)))) st2).
Proof.
  pose proof (X18_effect_creation true (Ret VUndefined) plain_options
                (fun e => Ret (VEffect e)) initial_state 3) as H.
  cbv zeta in H. destruct H as (_ & _ & _ & _ & _ & H & _).
  exact (H eq_refl (Forall_nil _)).
Defined.

Lemma X19_stop_is_final_witness :
  match exec true 5 (Call 0 Ret)
             (update_effect 0 (set_active false) (cleanup 0 lazy_state)) with
  | Normal _ st'' =>
      effect_deps st'' 0 =
      effect_deps (update_effect 0 (set_active false) (cleanup 0 lazy_state)) 0
  | _ => False
  end.
Proof.
  assert (Hobs : match exec true 5 (Call 0 Ret)
                        (update_effect 0 (set_active false) (cleanup 0 lazy_state))
                 with
                 | Normal _ _ => True
                 | _ => False
                 end) by (vm_compute; auto).
  destruct (exec true 5 (Call 0 Ret)
              (update_effect 0 (set_active false) (cleanup 0 lazy_state)))
    as [v st''|v st''|] eqn:E; try contradiction.
  refine (proj1 (proj2 (@X19_stop_is_final true 3 0 VUndefined lazy_state
                          (update_effect 0 (set_active false) (cleanup 0 lazy_state))
                          5 (Call 0 Ret) st'' eq_refl (fun H => H) eq_refl _))).
  rewrite E. reflexivity.
Defined.

Lemma fresh_computed_read_hook_free :
  hook_free true (finally_block (enter_effect 0 fresh_computed_state)).
Proof. right. intros e x H. simpl in H. discriminate. Defined.

Lemma X20_computed_read_twice_witness :
  exec true 13 (bind (ComputedRefImpl_get_value computed_cell)
                     (fun _ => ComputedRefImpl_get_value computed_cell))
       fresh_computed_state =
    Normal (VNum 2)
      (fst (track true computed_cell GET (KStr "value")
         (fst (track true computed_cell GET (KStr "value")
                 (set_heap
                    (computed_cache
                       (heap (finally_block (enter_effect 0 fresh_computed_state)))
                       computed_cell (VNum 2))
                    (finally_block (enter_effect 0 fresh_computed_state))))))).
Proof.
  apply (@X20_computed_read_twice true fresh_computed_state computed_cell 0 (VNum 2)
           (finally_block (enter_effect 0 fresh_computed_state)) 2 13
           eq_refl eq_refl eq_refl fresh_computed_read_hook_free (le_n 13)).
Defined.

Lemma X21_get_unwraps_refs_witness :
  exec true (7 + 0)
       (createGetter [KSym 2] (KStr "__v_isReactive") (KStr "__v_isReadonly")
          (KStr "__v_raw") (fun _ => VUndefined) (fun _ _ => Ret VUndefined)
          true false obj_x (KStr "r") (VProxy true (VObj obj_x)))
       resting_state =
    Normal (heap_get (heap resting_state) ref_cell (KStr "_value"))
           (fst (track true ref_cell GET (KStr "value") resting_state)).
Proof.
  pose proof (@X21_get_unwraps_refs true [KSym 2] (KStr "__v_isReactive")
                (KStr "__v_isReadonly") (KStr "__v_raw") (fun _ => VUndefined)
                (fun _ _ => Ret VUndefined) true false resting_state obj_x
                (KStr "r") (VProxy true (VObj obj_x)) ref_cell 0
                eq_refl eq_refl eq_refl (fun H => match Bool.diff_false_true H with end)
                eq_refl eq_refl eq_refl resting_state_hook_free) as H.
  cbv zeta in H. destruct H as (_ & H). exact (H eq_refl (or_introl eq_refl)).
Defined.

Lemma X22_set_assigns_through_ref_witness :
  exec true (6 + 0)
       (set no_setter obj_x (KStr "r") (VNum 2) (VProxy false (VObj obj_x)))
       resting_state =
    Normal (VBool true)
      (if RefImpl_changed (heap resting_state) ref_cell (toRaw (VNum 2))
       then set_heap (RefImpl_store (heap resting_state) ref_cell (toRaw (VNum 2)))
                     resting_state
       else resting_state).
Proof.
  apply (proj1 (@X22_set_assigns_through_ref true no_setter resting_state obj_x
                  (KStr "r") (VNum 2) (VProxy false (VObj obj_x)) ref_cell 0
                  eq_refl eq_refl eq_refl eq_refl (fun k => eq_refl))).
Defined.

Lemma X23_set_runs_subscribers_witness :
  trigger true (exec true 3) obj_x SET (Some (KStr "n")) (VNum 5) (VNum 0)
          subscribed_state =
    forEach (run true (exec true 3) obj_x SET (Some (KStr "n")) (VNum 5) (VNum 0))
            (filter (eligible subscribed_state)
                    (dep_at subscribed_state (obj_x, KStr "n")))
            subscribed_state.
Proof.
  apply (proj1 (@X23_set_runs_subscribers_in_order true (exec true 3)
                  subscribed_state obj_x (KStr "n") (VNum 5) (VNum 0)
                  eq_refl eq_refl
                  (NoDup_cons 0 (fun H : In 0 [] => H) (NoDup_nil EffectId)))).
Defined.
